(** * Open/R configuration validation (openr/config/Config.cpp)

    A shallow embedding of [AreaConfiguration::compileRegexSet] and of the
    validation that [Config]'s constructor runs ([populateInternalDb] and the
    [check*Config] methods it calls), with the properties the specification
    states about them.

    Conventions.
    - A C++ function that may throw returns an [outcome]: [Ok] for a normal
      return, [Throw] for an exception, [Abort] for a failed [CHECK], which
      terminates the process.
    - Methods of [Config] that assign to members take the object and return
      the updated object; [const] methods return [unit].
    - Thrift integer fields are [Z] and optional fields are [option].  The
      arithmetic of the checks is that of [Z]: the overflow of a signed
      product, which C++ leaves undefined, is not modelled, and what is
      proved of a product is proved where it is within the range of [int]
      ([spark_products_fit]).
    - RE2 is an external library.  Its pattern parser is a parameter of the
      development (class [RE2.Parser]); the meaning of parsed patterns and
      [RE2::Set] are modelled in module [RE2] from RE2's documented
      behaviour under the options [compileRegexSet] selects. *)

From Stdlib Require Import ZArith NArith String Ascii List Bool Lia.
From stdpp Require Import gmap strings list fin_maps pretty.

Set Default Proof Using "Type".
#[local] Set Warnings "-clear-no-such-hyp".
Local Open Scope string_scope.
Local Open Scope list_scope.

(** ** Outcomes of C++ calls *)

Inductive exception : Type :=
| invalid_argument (what : string)      (* std::invalid_argument *)
| out_of_range (what : string)          (* std::out_of_range *)
| ConfigError (what : string)           (* thrift::ConfigError *)
| library_exception (what : string).    (* thrown by folly / the file system *)

Inductive outcome (A : Type) : Type :=
| Ok (a : A)
| Throw (e : exception)
| Abort (msg : string).

Arguments Ok {A} a.
Arguments Throw {A} e.
Arguments Abort {A} msg.

#[global] Instance outcome_ret : MRet outcome := fun _ a => Ok a.

#[global] Instance outcome_bind : MBind outcome := fun _ _ k m =>
  match m with
  | Ok a => k a
  | Throw e => Throw e
  | Abort msg => Abort msg
  end.

(** [if (cond) throw e;] *)
Definition throw_if (cond : bool) (e : exception) : outcome unit :=
  if cond then Throw e else Ok tt.

(** [CHECK(cond) << msg] *)
Definition CHECK (cond : bool) (msg : string) : outcome unit :=
  if cond then Ok tt else Abort msg.

Definition is_ok {A : Type} (m : outcome A) : bool :=
  match m with Ok _ => true | _ => false end.

(** The call returns or throws [std::invalid_argument]: it throws nothing
    else and fails no [CHECK]. *)
Definition throws_only_invalid_argument {A : Type} (m : outcome A) : Prop :=
  match m with
  | Ok _ | Throw (invalid_argument _) => True
  | _ => False
  end.

(** ** RE2 *)

Module RE2.

(** Parsed patterns: the operators of RE2's [Regexp] that the development
    gives a meaning to.  A literal and a character class record whether
    case folding was on where the pattern has them: the option of the set
    turns it on for the whole pattern, and the pattern can turn it off and
    on again for parts of itself ([(?-i)], [(?i)]). *)
Inductive regex : Type :=
| NoMatch
| EmptyMatch
| Literal (fold : bool) (c : ascii)
| AnyChar
| CharClass (fold negated : bool) (ranges : list (ascii * ascii))
| BeginText
| EndText
| Concat (r1 r2 : regex)
| Alternate (r1 r2 : regex)
| Star (r : regex)
| Plus (r : regex)
| Quest (r : regex).

(** [RE2::Options], the one option [compileRegexSet] changes.  The others
    keep their defaults: [dot_nl] and [never_nl] off, Perl syntax, so that
    [^] and [$] hold at the two ends of the text only. *)
Record Options : Type := { case_sensitive : bool }.

Definition default_options : Options := {| case_sensitive := true |}.

Definition set_case_sensitive (o : Options) (b : bool) : Options :=
  {| case_sensitive := b |}.

Inductive Anchor : Type := UNANCHORED | ANCHOR_START | ANCHOR_BOTH.

(** *** Characters *)

Definition code (c : ascii) : N := N_of_ascii c.

Definition is_upper (c : ascii) : bool := ((65 <=? code c) && (code c <=? 90))%N.
Definition is_lower (c : ascii) : bool := ((97 <=? code c) && (code c <=? 122))%N.
Definition is_ascii (c : ascii) : bool := (code c <? 128)%N.

Definition to_lower (c : ascii) : ascii :=
  if is_upper c then ascii_of_N (code c + 32) else c.

Definition to_upper (c : ascii) : ascii :=
  if is_lower c then ascii_of_N (code c - 32) else c.

Definition in_range (x : ascii) (r : ascii * ascii) : bool :=
  ((code (fst r) <=? code x) && (code x <=? code (snd r)))%N.

(** With case folding a literal stands for both of its cases, and a class
    contains a character as soon as it contains one of its cases; a negated
    class is complemented after folding. *)
Definition literal_match (fold : bool) (c x : ascii) : bool :=
  if fold then Ascii.eqb (to_lower c) (to_lower x) else Ascii.eqb c x.

Definition class_match (fold negated : bool) (ranges : list (ascii * ascii))
    (x : ascii) : bool :=
  xorb negated
    (existsb (in_range x) ranges
     || fold && (existsb (in_range (to_lower x)) ranges
                 || existsb (in_range (to_upper x)) ranges)).

(** *** Matching by derivatives

    [bot] says that the current position is the beginning of the text and
    [eot] that it is its end. *)
Fixpoint nullable (r : regex) (bot eot : bool) : bool :=
  match r with
  | NoMatch | Literal _ _ | AnyChar | CharClass _ _ _ => false
  | EmptyMatch | Star _ | Quest _ => true
  | BeginText => bot
  | EndText => eot
  | Concat r1 r2 => nullable r1 bot eot && nullable r2 bot eot
  | Alternate r1 r2 => nullable r1 bot eot || nullable r2 bot eot
  | Plus r1 => nullable r1 bot eot
  end.

(** What is left of [r] once it has read [x], a character of the text that
    stands at its beginning iff [bot]. *)
Fixpoint deriv (r : regex) (x : ascii) (bot : bool) : regex :=
  match r with
  | NoMatch | EmptyMatch | BeginText | EndText => NoMatch
  | Literal fold c => if literal_match fold c x then EmptyMatch else NoMatch
  | AnyChar => EmptyMatch
  | CharClass fold negated ranges =>
      if class_match fold negated ranges x then EmptyMatch else NoMatch
  | Concat r1 r2 =>
      Alternate (Concat (deriv r1 x bot) r2)
                (if nullable r1 bot false then deriv r2 x bot else NoMatch)
  | Alternate r1 r2 => Alternate (deriv r1 x bot) (deriv r2 x bot)
  | Star r1 => Concat (deriv r1 x bot) (Star r1)
  | Plus r1 => Concat (deriv r1 x bot) (Star r1)
  | Quest r1 => deriv r1 x bot
  end.

(** The whole of [s] matches [r]. *)
Fixpoint run (r : regex) (bot : bool) (s : list ascii) : bool :=
  match s with
  | [] => nullable r bot true
  | x :: s' => run (deriv r x bot) false s'
  end.

(** Some prefix of [s] matches [r]. *)
Fixpoint run_prefix (r : regex) (bot : bool) (s : list ascii) : bool :=
  match s with
  | [] => nullable r bot true
  | x :: s' => nullable r bot false || run_prefix (deriv r x bot) false s'
  end.

(** Some substring of [s] matches [r]. *)
Fixpoint search (r : regex) (bot : bool) (s : list ascii) : bool :=
  run_prefix r bot s
  || match s with
     | [] => false
     | _ :: s' => search r false s'
     end.

Definition regex_match (a : Anchor) (r : regex) (text : string) : bool :=
  let s := list_ascii_of_string text in
  match a with
  | UNANCHORED => search r true s
  | ANCHOR_START => run_prefix r true s
  | ANCHOR_BOTH => run r true s
  end.

(** Case folding is on at every literal and class of the pattern. *)
Fixpoint folds_case (r : regex) : bool :=
  match r with
  | Literal fold _ | CharClass fold _ _ => fold
  | Concat r1 r2 | Alternate r1 r2 => folds_case r1 && folds_case r2
  | Star r1 | Plus r1 | Quest r1 => folds_case r1
  | NoMatch | EmptyMatch | AnyChar | BeginText | EndText => true
  end.

Definition isnil (w : list ascii) : bool :=
  match w with [] => true | _ :: _ => false end.

(** *** What it means for a text to match

    [Matches r bot w eot]: the word [w] is in the language of [r], read at a
    place that starts at the beginning of the text iff [bot] and ends at
    the end of the text iff [eot]. *)
Inductive Matches : regex -> bool -> list ascii -> bool -> Prop :=
| MEmpty bot eot : Matches EmptyMatch bot [] eot
| MLiteral fold c x bot eot :
    literal_match fold c x = true -> Matches (Literal fold c) bot [x] eot
| MAnyChar x bot eot : Matches AnyChar bot [x] eot
| MCharClass fold negated ranges x bot eot :
    class_match fold negated ranges x = true ->
    Matches (CharClass fold negated ranges) bot [x] eot
| MBeginText eot : Matches BeginText true [] eot
| MEndText bot : Matches EndText bot [] true
| MConcat r1 r2 w1 w2 bot eot :
    Matches r1 bot w1 (eot && isnil w2) ->
    Matches r2 (bot && isnil w1) w2 eot ->
    Matches (Concat r1 r2) bot (w1 ++ w2) eot
| MAlternateL r1 r2 w bot eot :
    Matches r1 bot w eot -> Matches (Alternate r1 r2) bot w eot
| MAlternateR r1 r2 w bot eot :
    Matches r2 bot w eot -> Matches (Alternate r1 r2) bot w eot
| MStarNil r bot eot : Matches (Star r) bot [] eot
| MStarApp r w1 w2 bot eot :
    Matches r bot w1 (eot && isnil w2) ->
    Matches (Star r) (bot && isnil w1) w2 eot ->
    Matches (Star r) bot (w1 ++ w2) eot
| MPlus r w1 w2 bot eot :
    Matches r bot w1 (eot && isnil w2) ->
    Matches (Star r) (bot && isnil w1) w2 eot ->
    Matches (Plus r) bot (w1 ++ w2) eot
| MQuestNil r bot eot : Matches (Quest r) bot [] eot
| MQuest r w bot eot :
    Matches r bot w eot -> Matches (Quest r) bot w eot.

(** The entire text matches the pattern. *)
Definition FullMatch (r : regex) (text : string) : Prop :=
  Matches r true (list_ascii_of_string text) true.

(** The text has no line feed in it. *)
Definition no_line_feed (text : string) : Prop :=
  ~ In (ascii_of_N 10) (list_ascii_of_string text).

(** Two texts that differ in the case of their letters only. *)
Definition same_modulo_case (k k' : string) : Prop :=
  map to_lower (list_ascii_of_string k) = map to_lower (list_ascii_of_string k').

(** *** Pattern sets ([RE2::Set])

    The parser of patterns is RE2's own ([Regexp::Parse], with the flags
    of the options): it gives the parsed pattern, or the text of RE2's
    error status. *)
Class Parser : Type := parse : Options -> string -> string + regex.

Record Set_ : Type := {
  options : Options;
  anchor : Anchor;
  elem : list (string * regex);
  compiled : bool
}.

(** [RE2::Set::Set(options, anchor)] *)
Definition new (o : Options) (a : Anchor) : Set_ :=
  {| options := o; anchor := a; elem := []; compiled := false |}.

(** [int RE2::Set::Add(pattern, &error)]: the index of the pattern in the
    set, or -1 with [error] assigned when the pattern does not parse (or
    when the set is compiled already). *)
Definition Add `{Parser} (s : Set_) (pattern : string) (error : string)
    : Set_ * Z * string :=
  if compiled s then (s, (-1)%Z, error)
  else match parse (options s) pattern with
       | inl status => (s, (-1)%Z, status)
       | inr re =>
           ({| options := options s; anchor := anchor s;
               elem := elem s ++ [(pattern, re)]; compiled := false |},
            Z.of_nat (length (elem s)), error)
       end.

(** [bool RE2::Set::Compile()].  The memory budget of the compiled program,
    the one reason RE2 has to fail here, is not modelled; nor is the order
    in which RE2 keeps the patterns, which [Match] does not depend on. *)
Definition Compile (s : Set_) : Set_ * bool :=
  if compiled s then (s, false)
  else ({| options := options s; anchor := anchor s;
           elem := elem s; compiled := true |}, true).

(** [bool RE2::Set::Match(text, NULL)]: some pattern of the set matches. *)
Definition Match (s : Set_) (text : string) : bool :=
  compiled s
  && existsb (fun e => regex_match (anchor s) (snd e) text) (elem s).

(** *** A parser for the common syntax

    [parse_pattern] reads the part of RE2's syntax that the patterns of
    Open/R configurations are written in: literals, [.], [^], [$], groups
    [( )] and [(?: )], [|], the repetitions [*], [+], [?] (greedy or not),
    the flags [i], [s] and [U] ([(?i)], [(?-i)], [(?s:...)]), backslash
    escapes of punctuation, [\n \r \t \a \f \v], [\A], [\z], [\d \s \w] and
    their negations, and bracket classes with ranges.  On a pattern that
    uses anything else (counted repetition, the flag [m], named groups,
    word boundaries, Unicode classes, octal and hexadecimal escapes, POSIX
    class names, bytes above 127) it answers [not_modelled]; the properties
    of [compileRegexSet] stated for every list of patterns are proved for
    an arbitrary [Parser].  Patterns and texts are taken as ASCII, on which
    RE2's reading of them as UTF-8 agrees with this one. *)

Inductive token : Type :=
| Plain (c : ascii)
| Escaped (c : ascii)
| TrailingBackslash.

Fixpoint tokenize (s : list ascii) : list token :=
  match s with
  | [] => []
  | c :: s' =>
      if Ascii.eqb c "\"%char then
        match s' with
        | [] => [TrailingBackslash]
        | c' :: s'' => Escaped c' :: tokenize s''
        end
      else Plain c :: tokenize s'
  end.

Definition token_text (t : token) : string :=
  match t with
  | Plain c => String c ""
  | Escaped c => String "\"%char (String c "")
  | TrailingBackslash => "\"
  end.

Definition tokens_text (ts : list token) : string :=
  fold_right (fun t acc => token_text t +:+ acc) "" ts.

Definition not_modelled : string := "pattern outside the modelled syntax".

Definition is_digit (c : ascii) : bool := ((48 <=? code c) && (code c <=? 57))%N.
Definition is_alnum (c : ascii) : bool := is_digit c || is_upper c || is_lower c.

Definition ch (n : N) : ascii := ascii_of_N n.

Definition perl_d : list (ascii * ascii) := [("0"%char, "9"%char)].
Definition perl_s : list (ascii * ascii) :=
  [(ch 9, ch 10); (ch 12, ch 13); (" "%char, " "%char)].
Definition perl_w : list (ascii * ascii) :=
  [("0"%char, "9"%char); ("A"%char, "Z"%char); ("a"%char, "z"%char);
   ("_"%char, "_"%char)].

Inductive escape : Type :=
| EscLiteral (c : ascii)
| EscClass (negated : bool) (ranges : list (ascii * ascii))
| EscBeginText
| EscEndText
| EscNotModelled.

Definition escape_of (c : ascii) : escape :=
  if negb (is_ascii c) then EscNotModelled
  else if negb (is_alnum c) then EscLiteral c
  else if Ascii.eqb c "n" then EscLiteral (ch 10)
  else if Ascii.eqb c "r" then EscLiteral (ch 13)
  else if Ascii.eqb c "t" then EscLiteral (ch 9)
  else if Ascii.eqb c "a" then EscLiteral (ch 7)
  else if Ascii.eqb c "f" then EscLiteral (ch 12)
  else if Ascii.eqb c "v" then EscLiteral (ch 11)
  else if Ascii.eqb c "A" then EscBeginText
  else if Ascii.eqb c "z" then EscEndText
  else if Ascii.eqb c "d" then EscClass false perl_d
  else if Ascii.eqb c "D" then EscClass true perl_d
  else if Ascii.eqb c "s" then EscClass false perl_s
  else if Ascii.eqb c "S" then EscClass true perl_s
  else if Ascii.eqb c "w" then EscClass false perl_w
  else if Ascii.eqb c "W" then EscClass true perl_w
  else EscNotModelled.

(** Bracket classes: the tokens after the opening bracket. *)

(** One character of a class, alone or as an end of a range. *)
Definition class_char (t : token) : string + ascii :=
  match t with
  | Plain c => if is_ascii c then inr c else inl not_modelled
  | Escaped c =>
      match escape_of c with
      | EscLiteral c' => inr c'
      | EscNotModelled | EscClass _ _ => inl not_modelled
      | _ => inl ("invalid escape sequence: " +:+ token_text t)
      end
  | TrailingBackslash => inl "trailing \"
  end.

Definition is_plain (c : ascii) (t : token) : bool :=
  match t with Plain c' => Ascii.eqb c c' | _ => false end.

(** One item of a class starting at [t], followed by [ts]: the ranges it
    adds and the number of tokens of [ts] that belong to it. *)
Definition class_item (t : token) (ts : list token)
    : string + (list (ascii * ascii) * nat) :=
  let posix_name :=
    is_plain "[" t && match ts with t' :: _ => is_plain ":" t' | [] => false end in
  let perl_class :=
    match t with
    | Escaped c =>
        match escape_of c with
        | EscClass false ranges => Some ranges
        | _ => None
        end
    | _ => None
    end in
  if posix_name then inl not_modelled
  else match perl_class with
  | Some ranges => inr (ranges, 0)
  | None =>
      match class_char t with
      | inl err => inl err
      | inr lo =>
          match ts with
          | dash :: t' :: _ =>
              if is_plain "-" dash && negb (is_plain "]" t') then
                match class_char t' with
                | inl err => inl err
                | inr hi =>
                    if (code hi <? code lo)%N
                    then inl ("invalid character class range: "
                              +:+ token_text t +:+ "-" +:+ token_text t')
                    else inr ([(lo, hi)], 2)
                end
              else inr ([(lo, lo)], 0)
          | _ => inr ([(lo, lo)], 0)
          end
      end
  end.

(** The items up to the closing bracket: the ranges and the number of
    tokens read, the bracket included.  A closing bracket that comes first
    is a member of the class. *)
Fixpoint class_items (whole_class : string) (ts : list token) (first : bool)
    (skip : nat) (acc : list (ascii * ascii)) (n : nat)
    : string + (list (ascii * ascii) * nat) :=
  match ts with
  | [] => inl ("missing ]: " +:+ whole_class)
  | t :: ts' =>
      match skip with
      | S k => class_items whole_class ts' first k acc (S n)
      | O =>
          if is_plain "]" t && negb first then inr (acc, S n)
          else match class_item t ts' with
               | inl err => inl err
               | inr (ranges, k) =>
                   class_items whole_class ts' false k (acc ++ ranges) (S n)
               end
      end
  end.

(** [ParseCharClass], on the tokens that follow the opening bracket. *)
Definition parse_class (fold : bool) (ts : list token) : string + (regex * nat) :=
  let whole_class := "[" +:+ tokens_text ts in
  match ts with
  | t :: ts' =>
      if is_plain "^" t then
        match class_items whole_class ts' true 0 [] 1 with
        | inl err => inl err
        | inr (ranges, n) => inr (CharClass fold true ranges, n)
        end
      else
        match class_items whole_class ts true 0 [] 0 with
        | inl err => inl err
        | inr (ranges, n) => inr (CharClass fold false ranges, n)
        end
  | [] => inl ("missing ]: " +:+ whole_class)
  end.

(** Counted repetition: [{n}], [{n,}] or [{n,m}] after the brace. *)
Fixpoint digits (ts : list token) : list ascii * list token :=
  match ts with
  | Plain c :: ts' =>
      if is_digit c then let '(ds, rest) := digits ts' in (c :: ds, rest)
      else ([], ts)
  | _ => ([], ts)
  end.

Definition valid_integer (ds : list ascii) : bool :=
  match ds with
  | [] => false
  | d :: d' :: _ => negb (Ascii.eqb d "0")
  | _ => true
  end.

Definition starts_with (c : ascii) (ts : list token) : bool :=
  match ts with t :: _ => is_plain c t | [] => false end.

Definition maybe_repeat (ts : list token) : bool :=
  let '(lo, rest) := digits ts in
  valid_integer lo
  && (starts_with "}" rest
      || match rest with
         | comma :: rest' =>
             is_plain "," comma
             && (starts_with "}" rest'
                 || let '(hi, rest'') := digits rest' in
                    valid_integer hi && starts_with "}" rest'')
         | [] => false
         end).

(** [ParsePerlFlags], on the tokens that follow [(?]: the flags [fold] and
    [dot_nl] as the group sets them, whether the group goes on with a
    pattern ([(?flags:]) or ends ([(?flags)]), and the number of tokens
    read.  [seen] is the text read so far, which RE2 reports when the
    group is not well formed. *)
Fixpoint perl_flags (seen : string) (ts : list token)
    (negated sawflag fold dot_nl : bool) (n : nat)
    : string + (bool * bool * bool * nat) :=
  match ts with
  | [] => inl ("invalid perl operator: " +:+ seen)
  | t :: ts' =>
      let seen' := seen +:+ token_text t in
      match t with
      | Plain c =>
          if Ascii.eqb c "i" then
            perl_flags seen' ts' negated true (negb negated) dot_nl (S n)
          else if Ascii.eqb c "s" then
            perl_flags seen' ts' negated true fold (negb negated) (S n)
          else if Ascii.eqb c "U" then
            perl_flags seen' ts' negated true fold dot_nl (S n)
          else if Ascii.eqb c "m" then inl not_modelled
          else if Ascii.eqb c "-" then
            if negated then inl ("invalid perl operator: " +:+ seen')
            else perl_flags seen' ts' true false fold dot_nl (S n)
          else if Ascii.eqb c ":" || Ascii.eqb c ")" then
            if negated && negb sawflag then inl ("invalid perl operator: " +:+ seen')
            else inr (fold, dot_nl, Ascii.eqb c ":", S n)
          else if is_ascii c then inl ("invalid perl operator: " +:+ seen')
          else inl not_modelled
      | _ => inl ("invalid perl operator: " +:+ seen +:+ "\")
      end
  end.

(** The parser's state: the flags in force, the alternatives and the
    concatenation under construction (latest first), and for each
    enclosing group what it had of these when the group opened. *)
Record frame : Type := {
  saved_fold : bool;
  saved_dot_nl : bool;
  saved_alts : list regex;
  saved_cat : list regex
}.

Record pstate : Type := {
  fold_case : bool;
  dot_nl : bool;
  stack : list frame;
  alts : list regex;
  cat : list regex;
  lastunary : string
}.

Definition initial (o : Options) : pstate :=
  {| fold_case := negb (case_sensitive o); dot_nl := false;
     stack := []; alts := []; cat := []; lastunary := "" |}.

Fixpoint concat_of (rs : list regex) : regex :=
  match rs with
  | [] => EmptyMatch
  | [r] => r
  | r :: rs' => Concat r (concat_of rs')
  end.

Fixpoint alternate_of (rs : list regex) : regex :=
  match rs with
  | [] => NoMatch
  | [r] => r
  | r :: rs' => Alternate r (alternate_of rs')
  end.

Definition push (st : pstate) (r : regex) : pstate :=
  {| fold_case := fold_case st; dot_nl := dot_nl st;
     stack := stack st; alts := alts st; cat := r :: cat st; lastunary := "" |}.

Definition set_flags (st : pstate) (fold dotnl : bool) : pstate :=
  {| fold_case := fold; dot_nl := dotnl;
     stack := stack st; alts := alts st; cat := cat st; lastunary := "" |}.

Definition DoLeftParen (st : pstate) : pstate :=
  {| fold_case := fold_case st; dot_nl := dot_nl st;
     stack := {| saved_fold := fold_case st; saved_dot_nl := dot_nl st;
                 saved_alts := alts st; saved_cat := cat st |} :: stack st;
     alts := []; cat := []; lastunary := "" |}.

Definition DoVerticalBar (st : pstate) : pstate :=
  {| fold_case := fold_case st; dot_nl := dot_nl st;
     stack := stack st; alts := concat_of (rev (cat st)) :: alts st;
     cat := []; lastunary := "" |}.

Definition DoAlternation (st : pstate) : regex :=
  alternate_of (rev (concat_of (rev (cat st)) :: alts st)).

(** The flags go back to what they were when the group opened. *)
Definition DoRightParen (whole : string) (st : pstate) : string + pstate :=
  match stack st with
  | [] => inl ("unexpected ): " +:+ whole)
  | f :: stk =>
      inr {| fold_case := saved_fold f; dot_nl := saved_dot_nl f;
             stack := stk; alts := saved_alts f;
             cat := DoAlternation st :: saved_cat f; lastunary := "" |}
  end.

Definition DoFinish (whole : string) (st : pstate) : string + regex :=
  match stack st with
  | [] => inr (DoAlternation st)
  | _ :: _ => inl ("missing ): " +:+ whole)
  end.

Definition PushRepeatOp (op : regex -> regex) (opstr : string) (st : pstate)
    : string + pstate :=
  if negb (bool_decide (lastunary st = ""))
  then inl ("bad repetition operator: " +:+ lastunary st +:+ opstr)
  else match cat st with
       | [] => inl ("no argument for repetition operator: " +:+ opstr)
       | r :: rs =>
           inr {| fold_case := fold_case st; dot_nl := dot_nl st;
                  stack := stack st; alts := alts st; cat := op r :: rs;
                  lastunary := opstr |}
       end.

(** [PushDot]: any character, but for the line feed unless [dot_nl]. *)
Definition PushDot (st : pstate) : pstate :=
  push st (if dot_nl st then AnyChar
           else CharClass (fold_case st) true [(ch 10, ch 10)]).

(** One step of the parser at token [t], followed by [ts]: the new state
    and the number of tokens of [ts] the step has read as well. *)
Definition step (whole : string) (t : token) (ts : list token) (st : pstate)
    : string + (pstate * nat) :=
  let repeat (op : regex -> regex) (c : ascii) :=
    let nongreedy := starts_with "?" ts in
    let opstr := String c (if nongreedy then "?" else "") in
    match PushRepeatOp op opstr st with
    | inl err => inl err
    | inr st' => inr (st', if nongreedy then 1 else 0)
    end in
  match t with
  | TrailingBackslash => inl "trailing \"
  | Escaped c =>
      match escape_of c with
      | EscLiteral c' => inr (push st (Literal (fold_case st) c'), 0)
      | EscClass negated ranges =>
          inr (push st (CharClass (fold_case st) negated ranges), 0)
      | EscBeginText => inr (push st BeginText, 0)
      | EscEndText => inr (push st EndText, 0)
      | EscNotModelled => inl not_modelled
      end
  | Plain c =>
      if Ascii.eqb c "(" then
        match ts with
        | t' :: flags =>
            if is_plain "?" t' then
              if starts_with "P" flags || starts_with "<" flags
              then inl not_modelled
              else
                match perl_flags "(?" flags false false
                        (fold_case st) (dot_nl st) 1 with
                | inl err => inl err
                | inr (fold, dotnl, opens, n) =>
                    inr (set_flags (if opens then DoLeftParen st else st)
                           fold dotnl, n)
                end
            else inr (DoLeftParen st, 0)
        | [] => inr (DoLeftParen st, 0)
        end
      else if Ascii.eqb c "|" then inr (DoVerticalBar st, 0)
      else if Ascii.eqb c ")" then
        match DoRightParen whole st with
        | inl err => inl err
        | inr st' => inr (st', 0)
        end
      else if Ascii.eqb c "^" then inr (push st BeginText, 0)
      else if Ascii.eqb c "$" then inr (push st EndText, 0)
      else if Ascii.eqb c "." then inr (PushDot st, 0)
      else if Ascii.eqb c "[" then
        match parse_class (fold_case st) ts with
        | inl err => inl err
        | inr (r, n) => inr (push st r, n)
        end
      else if Ascii.eqb c "*" then repeat Star c
      else if Ascii.eqb c "+" then repeat Plus c
      else if Ascii.eqb c "?" then repeat Quest c
      else if Ascii.eqb c "{" && maybe_repeat ts then inl not_modelled
      else if is_ascii c then inr (push st (Literal (fold_case st) c), 0)
      else inl not_modelled
  end.

Fixpoint parse_loop (whole : string) (ts : list token) (skip : nat) (st : pstate)
    : string + regex :=
  match ts with
  | [] => DoFinish whole st
  | t :: ts' =>
      match skip with
      | S k => parse_loop whole ts' k st
      | O =>
          match step whole t ts' st with
          | inl err => inl err
          | inr (st', k) => parse_loop whole ts' k st'
          end
      end
  end.

Definition parse_pattern (o : Options) (pattern : string) : string + regex :=
  parse_loop pattern (tokenize (list_ascii_of_string pattern)) 0 (initial o).

(** *** Patterns that switch flags off

    The flags of a group, up to the [:] or the [)] that ends them, have a
    minus sign among them. *)
Fixpoint flags_negated (ts : list token) : bool :=
  match ts with
  | [] => false
  | t :: ts' =>
      if is_plain ":" t || is_plain ")" t then false
      else is_plain "-" t || flags_negated ts'
  end.

Fixpoint groups_negate_flags (ts : list token) : bool :=
  match ts with
  | [] => false
  | t :: ts' =>
      is_plain "(" t && starts_with "?" ts' && flags_negated (tl ts')
      || groups_negate_flags ts'
  end.

(** [(?-i)], [(?s-i:] and the like occur in the pattern. *)
Definition negates_flags (pattern : string) : bool :=
  groups_negate_flags (tokenize (list_ascii_of_string pattern)).

(** Case folding is on in the state of the parser and everywhere in what
    it has read. *)
Definition folds (r : regex) : Prop := folds_case r = true.

Definition frame_folds (f : frame) : Prop :=
  saved_fold f = true /\ Forall folds (saved_alts f) /\ Forall folds (saved_cat f).

Definition state_folds (st : pstate) : Prop :=
  fold_case st = true /\ Forall folds (cat st) /\ Forall folds (alts st) /\
  Forall frame_folds (stack st).

End RE2.

(** ** AreaConfiguration::compileRegexSet *)

Section CompileRegexSet.
Context {parser : RE2.Parser}.

(** [fmt::format("Failed to add regex: {}. Error: {}", str, regexErr)] *)
Definition failed_to_add (str regexErr : string) : string :=
  "Failed to add regex: " +:+ str +:+ ". Error: " +:+ regexErr.

(** The loop [for (const auto& str : strings)]. *)
Fixpoint add_strings (strings : list string) (reSet : RE2.Set_) (regexErr : string)
    : outcome (RE2.Set_ * string) :=
  match strings with
  | [] => Ok (reSet, regexErr)
  | str :: rest =>
      let '(reSet, rc, regexErr) := RE2.Add reSet str regexErr in
      if (rc =? -1)%Z
      then Throw (invalid_argument (failed_to_add str regexErr))
      else add_strings rest reSet regexErr
  end.

Definition compileRegexSet (strings : list string) : outcome RE2.Set_ :=
  let regexOpts := RE2.default_options in
  let regexErr := "" in
  let regexOpts := RE2.set_case_sensitive regexOpts false in
  let reSet := RE2.new regexOpts RE2.ANCHOR_BOTH in
  '(reSet, regexErr) ←
    (if bool_decide (strings = []) then
       (* make this regex set unmatchable *)
       let unmatchable := "a^" in
       let '(reSet, rc, regexErr) := RE2.Add reSet unmatchable regexErr in
       CHECK (negb (rc =? -1)%Z) (failed_to_add unmatchable regexErr);;
       Ok (reSet, regexErr)
     else Ok (reSet, regexErr));
  '(reSet, regexErr) ← add_strings strings reSet regexErr;
  let '(reSet, compiled) := RE2.Compile reSet in
  CHECK compiled "Regex compilation failed";;
  Ok reSet.

(** The options [compileRegexSet] builds its set with. *)
Definition folding_options : RE2.Options :=
  RE2.set_case_sensitive RE2.default_options false.

(** The patterns of [strings] parse, to the elements [es]. *)
Definition parsed_as (strings : list string) (es : list (string * RE2.regex)) : Prop :=
  Forall2 (fun p e => fst e = p /\ RE2.parse folding_options p = inr (snd e))
    strings es.

End CompileRegexSet.

(** ** The configuration structures (openr/if/OpenrConfig.thrift)

    The Thrift definitions are not among the sources.  Each structure has
    the fields that the validation reads or assigns, under the names the
    code reads them by ([x.f_ref()]); a field the code tests for presence
    is an [option].  An enumeration has the values the code names and one
    more constructor for every other value, which records whether the value
    has a name ([apache::thrift::util::enumName] finds one). *)

Module LabelRange.
Record t : Type := { start_label : Z; end_label : Z }.
End LabelRange.

Module MplsLabelRanges.
Record t : Type := { v4 : LabelRange.t; v6 : LabelRange.t }.
End MplsLabelRanges.

Inductive SegmentRoutingAdjLabelType : Type :=
| AUTO_IFINDEX
| SegmentRoutingAdjLabelType_other (named : bool).

Module SegmentRoutingAdjLabel.
Record t : Type := {
  sr_adj_label_type : SegmentRoutingAdjLabelType;
  adj_label_range : option LabelRange.t
}.
End SegmentRoutingAdjLabel.

Inductive SegmentRoutingNodeLabelType : Type :=
| AUTO
| SegmentRoutingNodeLabelType_other (named : bool).

Module SegmentRoutingNodeLabel.
Record t : Type := {
  sr_node_label_type : SegmentRoutingNodeLabelType;
  node_segment_label_range : option LabelRange.t;
  node_segment_label : option Z
}.
End SegmentRoutingNodeLabel.

Module AreaConfig.
Record t : Type := {
  area_id : string;
  neighbor_regexes : list string;
  include_interface_regexes : list string;
  exclude_interface_regexes : list string;
  redistribute_interface_regexes : list string;
  import_policy_name : option string;
  area_sr_node_label : option SegmentRoutingNodeLabel.t;
  sr_adj_label : option SegmentRoutingAdjLabel.t;
  prepend_label_ranges : option MplsLabelRanges.t
}.

(** A default-constructed [thrift::AreaConfig]. *)
Definition default : t :=
  {| area_id := ""; neighbor_regexes := [];
     include_interface_regexes := []; exclude_interface_regexes := [];
     redistribute_interface_regexes := []; import_policy_name := None;
     area_sr_node_label := None; sr_adj_label := None;
     prepend_label_ranges := None |}.

Definition set_area_id (a : t) (v : string) : t :=
  {| area_id := v; neighbor_regexes := neighbor_regexes a;
     include_interface_regexes := include_interface_regexes a;
     exclude_interface_regexes := exclude_interface_regexes a;
     redistribute_interface_regexes := redistribute_interface_regexes a;
     import_policy_name := import_policy_name a;
     area_sr_node_label := area_sr_node_label a;
     sr_adj_label := sr_adj_label a;
     prepend_label_ranges := prepend_label_ranges a |}.

Definition set_neighbor_regexes (a : t) (v : list string) : t :=
  {| area_id := area_id a; neighbor_regexes := v;
     include_interface_regexes := include_interface_regexes a;
     exclude_interface_regexes := exclude_interface_regexes a;
     redistribute_interface_regexes := redistribute_interface_regexes a;
     import_policy_name := import_policy_name a;
     area_sr_node_label := area_sr_node_label a;
     sr_adj_label := sr_adj_label a;
     prepend_label_ranges := prepend_label_ranges a |}.
End AreaConfig.

(** [neteng::config::routing_policy]: of the map [objects] of a policy
    filter, the validation reads the set of its keys only. *)
Module Filters.
Record t : Type := { objects : gset string }.
End Filters.

Module PolicyFilters.
Record t : Type := { routePropagationPolicy : option Filters.t }.
End PolicyFilters.

Module PolicyConfig.
Record t : Type := { filters : PolicyFilters.t }.
End PolicyConfig.

Module KvstoreFloodRate.
Record t : Type := { flood_msg_per_sec : Z; flood_msg_burst_size : Z }.
End KvstoreFloodRate.

Module KvstoreConfig.
Record t : Type := {
  key_ttl_ms : Z;
  ttl_decrement_ms : Z;
  flood_rate : option KvstoreFloodRate.t;
  set_leaf_node : option bool;
  key_prefix_filters : option (list string);
  key_originator_id_filters : option (list string);
  enable_flood_optimization : option bool;
  is_flood_root : option bool
}.
End KvstoreConfig.

Module DecisionConfig.
Record t : Type := { debounce_min_ms : Z; debounce_max_ms : Z }.
End DecisionConfig.

Module StepDetectorConfig.
Record t : Type := {
  fast_window_size : Z;
  slow_window_size : Z;
  lower_threshold : Z;
  upper_threshold : Z
}.
End StepDetectorConfig.

Module SparkConfig.
Record t : Type := {
  neighbor_discovery_port : Z;
  hello_time_s : Z;
  fastinit_hello_time_ms : Z;
  keepalive_time_s : Z;
  hold_time_s : Z;
  graceful_restart_time_s : Z;
  step_detector_conf : StepDetectorConfig.t
}.
End SparkConfig.

Module MonitorConfig.
Record t : Type := { max_event_log : Z }.
End MonitorConfig.

Module LinkMonitorConfig.
Record t : Type := {
  linkflap_initial_backoff_ms : Z;
  linkflap_max_backoff_ms : Z
}.
End LinkMonitorConfig.

Module SegmentRoutingConfig.
Record t : Type := {
  sr_adj_label : option SegmentRoutingAdjLabel.t;
  prepend_label_ranges : option MplsLabelRanges.t
}.
End SegmentRoutingConfig.

Inductive PrefixAllocationMode : Type :=
| DYNAMIC_LEAF_NODE
| DYNAMIC_ROOT_NODE
| STATIC
| PrefixAllocationMode_other (named : bool).

Module PrefixAllocationConfig.
Record t : Type := {
  prefix_allocation_mode : PrefixAllocationMode;
  seed_prefix : option string;
  allocate_prefix_len : option Z
}.
End PrefixAllocationConfig.

Module VipServiceConfig.
Record t : Type := { ingress_policy : option string }.
End VipServiceConfig.

Inductive AddPath : Type := RECEIVE | AddPath_other (named : bool).

Module BgpPeer.
Record t : Type := { peer_addr : string; add_path : option AddPath }.
End BgpPeer.

Module BgpConfig.
Record t : Type := { peers : list BgpPeer.t }.
End BgpConfig.

Module BgpRouteTranslationConfig.
Record t : Type := {
  disable_legacy_translation : bool;
  enable_bgp_to_openr : bool;
  enable_openr_to_bgp : bool
}.
End BgpRouteTranslationConfig.

Module ThriftServerConfig.
Record t : Type := {
  enable_secure_thrift_server : bool;
  x509_ca_path : option string;
  x509_cert_path : option string;
  x509_key_path : option string;
  ecc_curve_name : option string
}.
End ThriftServerConfig.

(** The validation tests the presence of the watchdog's configuration and
    reads none of its fields. *)
Module WatchdogConfig.
Record t : Type := { }.
End WatchdogConfig.

Inductive PrefixForwardingType : Type :=
| SR_MPLS
| PrefixForwardingType_other (named : bool).

Inductive PrefixForwardingAlgorithm : Type :=
| KSP2_ED_ECMP
| PrefixForwardingAlgorithm_other (named : bool).

Module OpenrConfig.
Record t : Type := {
  node_name : string;
  areas : list AreaConfig.t;
  area_policies : option PolicyConfig.t;
  enable_v4 : bool;
  enable_segment_routing : bool;
  enable_bgp_peering : bool;
  enable_vip_service : bool;
  enable_watchdog : bool;
  enable_prefix_allocation : bool;
  prefix_forwarding_type : PrefixForwardingType;
  prefix_forwarding_algorithm : PrefixForwardingAlgorithm;
  ip_tos : option Z;
  route_delete_delay_ms : Z;
  eor_time_s : option Z;
  kvstore_config : KvstoreConfig.t;
  decision_config : DecisionConfig.t;
  spark_config : SparkConfig.t;
  monitor_config : MonitorConfig.t;
  link_monitor_config : LinkMonitorConfig.t;
  segment_routing_config : option SegmentRoutingConfig.t;
  prefix_allocation_config : option PrefixAllocationConfig.t;
  vip_service_config : option VipServiceConfig.t;
  bgp_config : option BgpConfig.t;
  bgp_translation_config : option BgpRouteTranslationConfig.t;
  thrift_server : ThriftServerConfig.t;
  watchdog_config : option WatchdogConfig.t
}.

Definition set_areas (c : t) (v : list AreaConfig.t) : t :=
  {| node_name := node_name c; areas := v; area_policies := area_policies c;
     enable_v4 := enable_v4 c;
     enable_segment_routing := enable_segment_routing c;
     enable_bgp_peering := enable_bgp_peering c;
     enable_vip_service := enable_vip_service c;
     enable_watchdog := enable_watchdog c;
     enable_prefix_allocation := enable_prefix_allocation c;
     prefix_forwarding_type := prefix_forwarding_type c;
     prefix_forwarding_algorithm := prefix_forwarding_algorithm c;
     ip_tos := ip_tos c; route_delete_delay_ms := route_delete_delay_ms c;
     eor_time_s := eor_time_s c; kvstore_config := kvstore_config c;
     decision_config := decision_config c; spark_config := spark_config c;
     monitor_config := monitor_config c;
     link_monitor_config := link_monitor_config c;
     segment_routing_config := segment_routing_config c;
     prefix_allocation_config := prefix_allocation_config c;
     vip_service_config := vip_service_config c; bgp_config := bgp_config c;
     bgp_translation_config := bgp_translation_config c;
     thrift_server := thrift_server c; watchdog_config := watchdog_config c |}.

Definition set_bgp_translation_config (c : t)
    (v : option BgpRouteTranslationConfig.t) : t :=
  {| node_name := node_name c; areas := areas c; area_policies := area_policies c;
     enable_v4 := enable_v4 c;
     enable_segment_routing := enable_segment_routing c;
     enable_bgp_peering := enable_bgp_peering c;
     enable_vip_service := enable_vip_service c;
     enable_watchdog := enable_watchdog c;
     enable_prefix_allocation := enable_prefix_allocation c;
     prefix_forwarding_type := prefix_forwarding_type c;
     prefix_forwarding_algorithm := prefix_forwarding_algorithm c;
     ip_tos := ip_tos c; route_delete_delay_ms := route_delete_delay_ms c;
     eor_time_s := eor_time_s c; kvstore_config := kvstore_config c;
     decision_config := decision_config c; spark_config := spark_config c;
     monitor_config := monitor_config c;
     link_monitor_config := link_monitor_config c;
     segment_routing_config := segment_routing_config c;
     prefix_allocation_config := prefix_allocation_config c;
     vip_service_config := vip_service_config c; bgp_config := bgp_config c;
     bgp_translation_config := v;
     thrift_server := thrift_server c; watchdog_config := watchdog_config c |}.

Definition set_eor_time_s (c : t) (v : option Z) : t :=
  {| node_name := node_name c; areas := areas c; area_policies := area_policies c;
     enable_v4 := enable_v4 c;
     enable_segment_routing := enable_segment_routing c;
     enable_bgp_peering := enable_bgp_peering c;
     enable_vip_service := enable_vip_service c;
     enable_watchdog := enable_watchdog c;
     enable_prefix_allocation := enable_prefix_allocation c;
     prefix_forwarding_type := prefix_forwarding_type c;
     prefix_forwarding_algorithm := prefix_forwarding_algorithm c;
     ip_tos := ip_tos c; route_delete_delay_ms := route_delete_delay_ms c;
     eor_time_s := v; kvstore_config := kvstore_config c;
     decision_config := decision_config c; spark_config := spark_config c;
     monitor_config := monitor_config c;
     link_monitor_config := link_monitor_config c;
     segment_routing_config := segment_routing_config c;
     prefix_allocation_config := prefix_allocation_config c;
     vip_service_config := vip_service_config c; bgp_config := bgp_config c;
     bgp_translation_config := bgp_translation_config c;
     thrift_server := thrift_server c; watchdog_config := watchdog_config c |}.
End OpenrConfig.

(** The structures of if/KvStore.thrift that [toThriftKvStoreConfig]
    fills.  A field that the function assigns under a condition is an
    [option]: [None] stands for the field as the default constructor left
    it. *)
Module KvStoreFloodRate.
Record t : Type := { flood_msg_per_sec : Z; flood_msg_burst_size : Z }.
End KvStoreFloodRate.

Module KvStoreConfig.
Record t : Type := {
  node_name : string;
  key_ttl_ms : Z;
  ttl_decrement_ms : Z;
  flood_rate : option KvStoreFloodRate.t;
  set_leaf_node : option bool;
  key_prefix_filters : option (list string);
  key_originator_id_filters : option (list string);
  enable_flood_optimization : option bool;
  is_flood_root : option bool;
  ip_tos : option Z
}.
End KvStoreConfig.

(** ** What the validation uses and the sources do not define

    Constants, helpers of other headers, folly's address parser, the file
    system and the JSON deserializer are parameters. *)

Class Externals : Type := {
  (** openr/common/Constants.h *)
  kDefaultArea : string;
  kTtlInfinity : Z;
  (** openr/common/MplsUtil.h *)
  isMplsLabelValid : Z -> bool;
  isLabelRangeValid : LabelRange.t -> bool;
  (** [folly::IPAddress]; its constructor from a string and
      [createNetwork] throw on a malformed address. *)
  IPAddress : Type;
  isV4 : IPAddress -> bool;
  isV6 : IPAddress -> bool;
  isLoopback : IPAddress -> bool;
  IPAddress_of_string : string -> outcome IPAddress;
  createNetwork : string -> outcome (IPAddress * Z);
  (** [fs::exists(path)]: whether the path exists, or the
      [fs::filesystem_error] that the call throws when the file system
      cannot tell *)
  fs_exists : string -> exception + bool;
  (** [FileUtil::readFileToString]: the contents, or [None] for failure *)
  readFileToString : string -> option string;
  (** [SimpleJSONSerializer::deserialize]: the configuration, or the text
      of the exception *)
  deserialize : string -> string + OpenrConfig.t;
  (** [AreaConfiguration] (Config.h) and its constructor from the Thrift
      structure of an area *)
  AreaConfiguration : Type;
  AreaConfiguration_of : AreaConfig.t -> outcome AreaConfiguration;
  (** a default-constructed [thrift::BgpRouteTranslationConfig] *)
  BgpRouteTranslationConfig_default : BgpRouteTranslationConfig.t
}.

(** ** Config *)

Section Config.
Context {ext : Externals}.

(** [std::pair<folly::CIDRNetwork, uint8_t>] *)
Definition PrefixAllocationParams : Type := (IPAddress * Z) * Z.

(** The members of [Config] that the validation assigns. *)
Record Config : Type := {
  config_ : OpenrConfig.t;
  areaConfigs_ : gmap string AreaConfiguration;
  prefixAllocationParams_ : option PrefixAllocationParams
}.

Definition set_config_ (c : Config) (v : OpenrConfig.t) : Config :=
  {| config_ := v; areaConfigs_ := areaConfigs_ c;
     prefixAllocationParams_ := prefixAllocationParams_ c |}.

Definition set_areaConfigs_ (c : Config) (v : gmap string AreaConfiguration) : Config :=
  {| config_ := config_ c; areaConfigs_ := v;
     prefixAllocationParams_ := prefixAllocationParams_ c |}.

Definition set_prefixAllocationParams_ (c : Config)
    (v : option PrefixAllocationParams) : Config :=
  {| config_ := config_ c; areaConfigs_ := areaConfigs_ c;
     prefixAllocationParams_ := v |}.

(** The accessors of Config.h, which is not among the sources: each reads
    the flag or the member it is named after (the messages of the
    exceptions below name the flags: "enable_bgp_peering = true, but
    bgp_config is empty").  An unset flag reads [false]. *)
Definition isV4Enabled (c : Config) : bool := OpenrConfig.enable_v4 (config_ c).
Definition isSegmentRoutingEnabled (c : Config) : bool :=
  OpenrConfig.enable_segment_routing (config_ c).
Definition isBgpPeeringEnabled (c : Config) : bool :=
  OpenrConfig.enable_bgp_peering (config_ c).
Definition isVipServiceEnabled (c : Config) : bool :=
  OpenrConfig.enable_vip_service (config_ c).
Definition isWatchdogEnabled (c : Config) : bool :=
  OpenrConfig.enable_watchdog (config_ c).
Definition isPrefixAllocationEnabled (c : Config) : bool :=
  OpenrConfig.enable_prefix_allocation (config_ c).
Definition getThriftServerConfig (c : Config) : ThriftServerConfig.t :=
  OpenrConfig.thrift_server (config_ c).
Definition isSecureThriftServerEnabled (c : Config) : bool :=
  ThriftServerConfig.enable_secure_thrift_server (getThriftServerConfig c).
Definition getSparkConfig (c : Config) : SparkConfig.t :=
  OpenrConfig.spark_config (config_ c).
Definition getAreaPolicies (c : Config) : option PolicyConfig.t :=
  OpenrConfig.area_policies (config_ c).

(** [fmt::format]'s rendering of an integer *)
Definition fmt (z : Z) : string := pretty z.

(** Conversion to [uint8_t] *)
Definition to_uint8 (z : Z) : Z := z mod 256.

Definition createPrefixAllocationParams (seedPfxStr : string) (allocationPfxLen : Z)
    : outcome PrefixAllocationParams :=
  (* check seed_prefix and allocate_prefix_len are set *)
  throw_if (bool_decide (seedPfxStr = "") || (allocationPfxLen =? 0)%Z)
    (invalid_argument "seed_prefix and allocate_prefix_len must be filled.");;
  (* validate seed prefix *)
  seedPfx ← createNetwork seedPfxStr;
  (* validate allocate_prefix_len *)
  throw_if (isV4 seedPfx.1
            && ((allocationPfxLen <=? seedPfx.2)%Z || (32 <? allocationPfxLen)%Z))
    (out_of_range ("invalid allocate_prefix_len (" +:+ fmt allocationPfxLen
                   +:+ "), valid range = (" +:+ fmt seedPfx.2 +:+ ", 32]"));;
  throw_if (isV6 seedPfx.1
            && ((allocationPfxLen <=? seedPfx.2)%Z || (128 <? allocationPfxLen)%Z))
    (out_of_range ("invalid allocate_prefix_len (" +:+ fmt allocationPfxLen
                   +:+ "), valid range = (" +:+ fmt seedPfx.2 +:+ ", 128]"));;
  Ok (seedPfx, allocationPfxLen).

Definition label_range_text (r : LabelRange.t) : string :=
  "[" +:+ fmt (LabelRange.start_label r) +:+ ", "
  +:+ fmt (LabelRange.end_label r) +:+ "]".

Definition checkPrependLabelConfig (areaConf : AreaConfig.t) : outcome unit :=
  (* Check label range values for prepend labels *)
  match AreaConfig.prepend_label_ranges areaConf with
  | Some ranges =>
      let v4LblRange := MplsLabelRanges.v4 ranges in
      throw_if (negb (isLabelRangeValid v4LblRange))
        (invalid_argument ("v4: prepend label range " +:+ label_range_text v4LblRange
                           +:+ " is invalid for area id "
                           +:+ AreaConfig.area_id areaConf));;
      let v6LblRange := MplsLabelRanges.v6 ranges in
      throw_if (negb (isLabelRangeValid v6LblRange))
        (invalid_argument ("v6: prepend label range " +:+ label_range_text v6LblRange
                           +:+ " is invalid for area id "
                           +:+ AreaConfig.area_id areaConf))
  | None => Ok tt
  end.

Definition checkAdjacencyLabelConfig (areaConf : AreaConfig.t) : outcome unit :=
  match AreaConfig.sr_adj_label areaConf with
  | Some adj =>
      (* Check adj segment labels if configured or if label range is valid *)
      match SegmentRoutingAdjLabel.sr_adj_label_type adj with
      | AUTO_IFINDEX =>
          match SegmentRoutingAdjLabel.adj_label_range adj with
          | None =>
              Throw (invalid_argument
                ("label range for adjacency labels is not configured for area id "
                 +:+ AreaConfig.area_id areaConf))
          | Some label_range =>
              throw_if (negb (isLabelRangeValid label_range))
                (invalid_argument
                   ("label range " +:+ label_range_text label_range
                    +:+ " for adjacency labels is invalid for area id "
                    +:+ AreaConfig.area_id areaConf))
          end
      | _ => Ok tt
      end
  | None => Ok tt
  end.

Definition checkNodeSegmentLabelConfig (areaConf : AreaConfig.t) : outcome unit :=
  (* Check if Node Segment Label is configured or if label range is valid *)
  match AreaConfig.area_sr_node_label areaConf with
  | Some srNodeConfig =>
      match SegmentRoutingNodeLabel.sr_node_label_type srNodeConfig with
      | AUTO =>
          (* Automatic node segment label allocation *)
          match SegmentRoutingNodeLabel.node_segment_label_range srNodeConfig with
          | None =>
              Throw (invalid_argument
                ("node segment label range is not configured for area id: "
                 +:+ AreaConfig.area_id areaConf))
          | Some label_range =>
              throw_if (negb (isLabelRangeValid label_range))
                (invalid_argument
                   ("node segment label range " +:+ label_range_text label_range
                    +:+ " is invalid for area config id: "
                    +:+ AreaConfig.area_id areaConf))
          end
      | _ =>
          match SegmentRoutingNodeLabel.node_segment_label srNodeConfig with
          | None =>
              Throw (invalid_argument
                ("static node segment label is not configured for area config id: "
                 +:+ AreaConfig.area_id areaConf))
          | Some label =>
              throw_if (negb (isMplsLabelValid label))
                (invalid_argument
                   ("node segment label " +:+ fmt label
                    +:+ " is invalid for area config id: "
                    +:+ AreaConfig.area_id areaConf))
          end
      end
  | None => Ok tt
  end.

(** The route-propagation policy of the area policies, if there is one. *)
Definition propagationPolicy_of (c : Config) : option Filters.t :=
  match getAreaPolicies c with
  | Some areaPolicies =>
      PolicyFilters.routePropagationPolicy (PolicyConfig.filters areaPolicies)
  | None => None
  end.

(** [not propagationPolicy or propagationPolicy->objects_ref()->count(name) == 0] *)
Definition policy_undefined (propagationPolicy : option Filters.t) (name : string)
    : bool :=
  match propagationPolicy with
  | None => true
  | Some policy => bool_decide (name ∉ Filters.objects policy)
  end.

(** One turn of the loop [for (auto& areaConf : *config_.areas_ref())]:
    the area as the turn leaves it, and the map of area configurations.
    [emplace] constructs the [AreaConfiguration] from [areaConf] and inserts
    it unless the key is present. *)
Definition populateAreaConfig_area (propagationPolicy : option Filters.t)
    (areaConf : AreaConfig.t) (areaConfigs : gmap string AreaConfiguration)
    : outcome (AreaConfig.t * gmap string AreaConfiguration) :=
  let areaConf :=
    if bool_decide (AreaConfig.neighbor_regexes areaConf = [])
    then AreaConfig.set_neighbor_regexes areaConf [".*"]
    else areaConf in
  match AreaConfig.import_policy_name areaConf with
  | Some importPolicyName =>
      throw_if (policy_undefined propagationPolicy importPolicyName)
        (invalid_argument
           ("No area policy definition found for " +:+ importPolicyName))
  | None => Ok tt
  end;;
  areaConfiguration ← AreaConfiguration_of areaConf;
  throw_if (bool_decide (is_Some (areaConfigs !! AreaConfig.area_id areaConf)))
    (invalid_argument
       ("Duplicate area config id: " +:+ AreaConfig.area_id areaConf));;
  let areaConfigs := <[AreaConfig.area_id areaConf := areaConfiguration]> areaConfigs in
  checkNodeSegmentLabelConfig areaConf;;
  checkAdjacencyLabelConfig areaConf;;
  checkPrependLabelConfig areaConf;;
  Ok (areaConf, areaConfigs).

Fixpoint populateAreaConfig_loop (propagationPolicy : option Filters.t)
    (areas : list AreaConfig.t) (areaConfigs : gmap string AreaConfiguration)
    : outcome (list AreaConfig.t * gmap string AreaConfiguration) :=
  match areas with
  | [] => Ok ([], areaConfigs)
  | areaConf :: rest =>
      '(areaConf, areaConfigs) ←
        populateAreaConfig_area propagationPolicy areaConf areaConfigs;
      '(rest, areaConfigs) ←
        populateAreaConfig_loop propagationPolicy rest areaConfigs;
      Ok (areaConf :: rest, areaConfigs)
  end.

Definition populateAreaConfig (c : Config) : outcome Config :=
  let c :=
    if bool_decide (OpenrConfig.areas (config_ c) = []) then
      (* TODO remove once transition to areas is complete *)
      let defaultArea := AreaConfig.default in
      let defaultArea := AreaConfig.set_area_id defaultArea kDefaultArea in
      set_config_ c (OpenrConfig.set_areas (config_ c) [defaultArea])
    else c in
  let propagationPolicy := propagationPolicy_of c in
  '(areas, areaConfigs) ←
    populateAreaConfig_loop propagationPolicy (OpenrConfig.areas (config_ c))
      (areaConfigs_ c);
  Ok (set_areaConfigs_ (set_config_ c (OpenrConfig.set_areas (config_ c) areas))
        areaConfigs).

Definition checkKvStoreConfig (c : Config) : outcome unit :=
  let kvStoreConf := OpenrConfig.kvstore_config (config_ c) in
  match KvstoreConfig.flood_rate kvStoreConf with
  | Some floodRate =>
      throw_if (KvstoreFloodRate.flood_msg_per_sec floodRate <=? 0)%Z
        (out_of_range "kvstore flood_msg_per_sec should be > 0");;
      throw_if (KvstoreFloodRate.flood_msg_burst_size floodRate <=? 0)%Z
        (out_of_range "kvstore flood_msg_burst_size should be > 0")
  | None => Ok tt
  end;;
  throw_if (KvstoreConfig.key_ttl_ms kvStoreConf =? kTtlInfinity)%Z
    (out_of_range "kvstore key_ttl_ms should be a finite number").

Definition checkDecisionConfig (c : Config) : outcome unit :=
  let decisionConf := OpenrConfig.decision_config (config_ c) in
  throw_if (DecisionConfig.debounce_max_ms decisionConf
            <? DecisionConfig.debounce_min_ms decisionConf)%Z
    (invalid_argument
       ("decision_config.debounce_min_ms ("
        +:+ fmt (DecisionConfig.debounce_min_ms decisionConf)
        +:+ ") should be <= decision_config.debounce_max_ms ("
        +:+ fmt (DecisionConfig.debounce_max_ms decisionConf) +:+ ")")).

Definition checkSparkConfig (c : Config) : outcome unit :=
  let sparkConfig := OpenrConfig.spark_config (config_ c) in
  let port := SparkConfig.neighbor_discovery_port sparkConfig in
  let hello_time_s := SparkConfig.hello_time_s sparkConfig in
  let fastinit_hello_time_ms := SparkConfig.fastinit_hello_time_ms sparkConfig in
  let keepalive_time_s := SparkConfig.keepalive_time_s sparkConfig in
  let hold_time_s := SparkConfig.hold_time_s sparkConfig in
  let graceful_restart_time_s := SparkConfig.graceful_restart_time_s sparkConfig in
  let step := SparkConfig.step_detector_conf sparkConfig in
  let lower := StepDetectorConfig.lower_threshold step in
  let upper := StepDetectorConfig.upper_threshold step in
  let fast := StepDetectorConfig.fast_window_size step in
  let slow := StepDetectorConfig.slow_window_size step in
  throw_if ((port <=? 0) || (65535 <? port))%Z
    (out_of_range ("neighbor_discovery_port (" +:+ fmt port
                   +:+ ") should be in range [0, 65535]"));;
  throw_if (hello_time_s <=? 0)%Z
    (out_of_range ("hello_time_s (" +:+ fmt hello_time_s +:+ ") should be > 0"));;
  (* fast initial neighbor discovery *)
  throw_if (fastinit_hello_time_ms <=? 0)%Z
    (out_of_range ("fastinit_hello_time_ms (" +:+ fmt fastinit_hello_time_ms
                   +:+ ") should be > 0"));;
  throw_if (1000 * hello_time_s <? fastinit_hello_time_ms)%Z
    (invalid_argument
       ("fastinit_hello_time_ms (" +:+ fmt fastinit_hello_time_ms
        +:+ ") should be <= hold_time_s (" +:+ fmt hello_time_s +:+ ") * 1000"));;
  (* The rate of hello packet send is defined by keepAliveTime.
     This time must be less than the holdTime for each node. *)
  throw_if (keepalive_time_s <=? 0)%Z
    (out_of_range ("keepalive_time_s (" +:+ fmt keepalive_time_s
                   +:+ ") should be > 0"));;
  throw_if (hold_time_s <? keepalive_time_s)%Z
    (invalid_argument
       ("keepalive_time_s (" +:+ fmt keepalive_time_s
        +:+ ") should be <= hold_time_s (" +:+ fmt hold_time_s +:+ ")"));;
  (* Hold time tells the receiver how long to keep the information valid for. *)
  throw_if (hold_time_s <=? 0)%Z
    (out_of_range ("hold_time_s (" +:+ fmt hold_time_s +:+ ") should be > 0"));;
  throw_if (graceful_restart_time_s <=? 0)%Z
    (out_of_range ("graceful_restart_time_s (" +:+ fmt graceful_restart_time_s
                   +:+ ") should be > 0"));;
  throw_if (graceful_restart_time_s <? 3 * keepalive_time_s)%Z
    (invalid_argument
       ("graceful_restart_time_s (" +:+ fmt graceful_restart_time_s
        +:+ ") should be >= 3 * keepalive_time_s (" +:+ fmt keepalive_time_s
        +:+ ")"));;
  throw_if ((lower <? 0) || (upper <? 0) || (upper <=? lower))%Z
    (invalid_argument
       ("step_detector_conf.lower_threshold (" +:+ fmt lower
        +:+ ") should be < step_detector_conf.upper_threshold (" +:+ fmt upper
        +:+ "), and they should be >= 0"));;
  throw_if ((fast <? 0) || (slow <? 0) || (slow <? fast))%Z
    (invalid_argument
       ("step_detector_conf.fast_window_size (" +:+ fmt fast
        +:+ ") should be <= step_detector_conf.slow_window_size (" +:+ fmt slow
        +:+ "), and they should be >= 0"));;
  throw_if ((lower <? 0) || (upper <? 0) || (upper <=? lower))%Z
    (invalid_argument
       ("step_detector_conf.lower_threshold (" +:+ fmt lower
        +:+ ") should be < step_detector_conf.upper_threshold (" +:+ fmt upper
        +:+ ")")).

Definition checkMonitorConfig (c : Config) : outcome unit :=
  let monitorConfig := OpenrConfig.monitor_config (config_ c) in
  throw_if (MonitorConfig.max_event_log monitorConfig <? 0)%Z
    (out_of_range ("monitor_max_event_log ("
                   +:+ fmt (MonitorConfig.max_event_log monitorConfig)
                   +:+ ") should be >= 0")).

Definition checkLinkMonitorConfig (c : Config) : outcome unit :=
  let lmConf := OpenrConfig.link_monitor_config (config_ c) in
  let initial := LinkMonitorConfig.linkflap_initial_backoff_ms lmConf in
  let max := LinkMonitorConfig.linkflap_max_backoff_ms lmConf in
  (* backoff validation *)
  throw_if (initial <? 0)%Z
    (out_of_range ("linkflap_initial_backoff_ms (" +:+ fmt initial
                   +:+ ") should be >= 0"));;
  throw_if (max <? 0)%Z
    (out_of_range ("linkflap_max_backoff_ms (" +:+ fmt max +:+ ") should be >= 0"));;
  throw_if (max <? initial)%Z
    (out_of_range ("linkflap_initial_backoff_ms (" +:+ fmt initial
                   +:+ ") should be < linkflap_max_backoff_ms (" +:+ fmt max
                   +:+ ")")).

Definition checkSegmentRoutingConfig (c : Config) : outcome unit :=
  match OpenrConfig.segment_routing_config (config_ c) with
  | Some srConfig =>
      (* Check label range values for prepend labels *)
      match SegmentRoutingConfig.prepend_label_ranges srConfig with
      | Some ranges =>
          let v4LblRange := MplsLabelRanges.v4 ranges in
          throw_if (negb (isLabelRangeValid v4LblRange))
            (invalid_argument ("v4: prepend label range "
                               +:+ label_range_text v4LblRange +:+ " is invalid"));;
          let v6LblRange := MplsLabelRanges.v6 ranges in
          throw_if (negb (isLabelRangeValid v6LblRange))
            (invalid_argument ("v6: prepend label range "
                               +:+ label_range_text v6LblRange +:+ " is invalid"))
      | None => Ok tt
      end;;
      match SegmentRoutingConfig.sr_adj_label srConfig with
      | Some adj =>
          (* Check adj segment labels if configured or if label range is valid *)
          match SegmentRoutingAdjLabel.sr_adj_label_type adj with
          | AUTO_IFINDEX =>
              match SegmentRoutingAdjLabel.adj_label_range adj with
              | None =>
                  Throw (invalid_argument
                           "label range for adjacency labels is not configured")
              | Some label_range =>
                  throw_if (negb (isLabelRangeValid label_range))
                    (invalid_argument
                       ("label range " +:+ label_range_text label_range
                        +:+ " for adjacency labels is invalid"))
              end
          | _ => Ok tt
          end
      | None => Ok tt
      end
  | None => Ok tt
  end.

(** [enumName(x)] finds a name *)
Definition PrefixAllocationMode_named (m : PrefixAllocationMode) : bool :=
  match m with PrefixAllocationMode_other named => named | _ => true end.
Definition PrefixForwardingType_named (t : PrefixForwardingType) : bool :=
  match t with PrefixForwardingType_other named => named | _ => true end.
Definition PrefixForwardingAlgorithm_named (a : PrefixForwardingAlgorithm) : bool :=
  match a with PrefixForwardingAlgorithm_other named => named | _ => true end.

Definition checkPrefixAllocationConfig (c : Config) : outcome Config :=
  match OpenrConfig.prefix_allocation_config (config_ c) with
  | None =>
      (* check if config exists *)
      Throw (invalid_argument
        "enable_prefix_allocation = true, but prefix_allocation_config is empty")
  | Some paConf =>
      let mode := PrefixAllocationConfig.prefix_allocation_mode paConf in
      (* sanity check enum prefix_allocation_mode *)
      throw_if (negb (PrefixAllocationMode_named mode))
        (invalid_argument "invalid prefix_allocation_mode");;
      let seedPrefix := default "" (PrefixAllocationConfig.seed_prefix paConf) in
      let allocatePfxLen :=
        default 0%Z (PrefixAllocationConfig.allocate_prefix_len paConf) in
      match mode with
      | DYNAMIC_ROOT_NODE =>
          (* populate prefixAllocationParams_ from seed_prefix and
             allocate_prefix_len *)
          params ← createPrefixAllocationParams seedPrefix (to_uint8 allocatePfxLen);
          let c := set_prefixAllocationParams_ c (Some params) in
          throw_if (isV4 params.1.1 && negb (isV4Enabled c))
            (invalid_argument "v4 seed_prefix detected, but enable_v4 = false");;
          Ok c
      | DYNAMIC_LEAF_NODE | STATIC =>
          (* seed_prefix and allocate_prefix_len have to to empty *)
          throw_if (negb (bool_decide (seedPrefix = "")) || (0 <? allocatePfxLen)%Z)
            (invalid_argument
               "prefix_allocation_mode != DYNAMIC_ROOT_NODE, seed_prefix and allocate_prefix_len must be empty");;
          Ok c
      | PrefixAllocationMode_other _ => Ok c
      end
  end.

Definition checkVipServiceConfig (c : Config) : outcome unit :=
  if isVipServiceEnabled c then
    match OpenrConfig.vip_service_config (config_ c) with
    | None =>
        Throw (invalid_argument
                 "enable_vip_service = true, but vip_service_config is empty")
    | Some vip =>
        match VipServiceConfig.ingress_policy vip with
        | Some ingress_policy =>
            let propagationPolicy := propagationPolicy_of c in
            throw_if (policy_undefined propagationPolicy ingress_policy)
              (invalid_argument
                 ("No area policy definition found for " +:+ ingress_policy))
        | None => Ok tt
        end
    end
  else Ok tt.

(** The loop over the BGP peers: is BGP Add Path enabled for local peering? *)
Fixpoint checkBgpPeers (c : Config) (peers : list BgpPeer.t) : outcome unit :=
  match peers with
  | [] => Ok tt
  | peer :: rest =>
      addr ← IPAddress_of_string (BgpPeer.peer_addr peer);
      throw_if (isLoopback addr
                && match BgpPeer.add_path peer with
                   | Some RECEIVE => true
                   | _ => false
                   end
                && negb (isSegmentRoutingEnabled c))
        (invalid_argument
           "segment routing should be congfigured when BGP add_path is configured");;
      checkBgpPeers c rest
  end.

Definition checkBgpPeeringConfig (c : Config) : outcome Config :=
  throw_if (isBgpPeeringEnabled c
            && negb (bool_decide (is_Some (OpenrConfig.bgp_config (config_ c)))))
    (invalid_argument "enable_bgp_peering = true, but bgp_config is empty");;
  (if isBgpPeeringEnabled c then
     match OpenrConfig.bgp_config (config_ c) with
     | Some bgp => checkBgpPeers c (BgpConfig.peers bgp)
     | None => Ok tt
     end
   else Ok tt);;
  (* Set BGP Translation Config if unset *)
  let c :=
    if isBgpPeeringEnabled c
       && negb (bool_decide (is_Some (OpenrConfig.bgp_translation_config (config_ c))))
    then set_config_ c (OpenrConfig.set_bgp_translation_config (config_ c)
                          (Some BgpRouteTranslationConfig_default))
    else c in
  (* Validate BGP Translation config *)
  (if isBgpPeeringEnabled c then
     let bgpTranslationConf := OpenrConfig.bgp_translation_config (config_ c) in
     CHECK (bool_decide (is_Some bgpTranslationConf)) "";;
     match bgpTranslationConf with
     | Some conf =>
         throw_if (BgpRouteTranslationConfig.disable_legacy_translation conf
                   && (negb (BgpRouteTranslationConfig.enable_openr_to_bgp conf)
                       || negb (BgpRouteTranslationConfig.enable_bgp_to_openr conf)))
           (invalid_argument
              "Legacy translation can be disabled only when new translation is enabled")
     | None => Ok tt
     end
   else Ok tt);;
  Ok c.

(** The call [fs::exists(path)]. *)
Definition path_exists (path : string) : outcome bool :=
  match fs_exists path with
  | inl e => Throw e
  | inr found => Ok found
  end.

Definition checkThriftServerConfig (c : Config) : outcome unit :=
  let thriftServerConfig := getThriftServerConfig c in
  (* Checking the fields needed when we enable the secure thrift server *)
  match ThriftServerConfig.x509_ca_path thriftServerConfig,
        ThriftServerConfig.x509_cert_path thriftServerConfig,
        ThriftServerConfig.ecc_curve_name thriftServerConfig with
  | Some caPath, Some certPath, Some _ =>
      (* the second operand of [or] is evaluated if the first is false *)
      notFound ←
        (caFound ← path_exists caPath;
         if negb caFound then Ok true
         else certFound ← path_exists certPath; Ok (negb certFound));
      throw_if notFound
        (invalid_argument
           "x509_ca_path or x509_cert_path is specified in the config but not found in the disk.");;
      (* x509_key_path could be empty. If specified, need to be present in
         the file system. *)
      match ThriftServerConfig.x509_key_path (getThriftServerConfig c) with
      | Some keyPath =>
          keyFound ← path_exists keyPath;
          throw_if (negb keyFound)
            (invalid_argument
               "x509_key_path is specified in the config but not found in the disk.")
      | None => Ok tt
      end
  | _, _, _ =>
      Throw (invalid_argument
        "enable_secure_thrift_server = true, but x509_ca_path, x509_cert_path or ecc_curve_name is empty.")
  end.

Definition populateInternalDb (c : Config) : outcome Config :=
  c ← populateAreaConfig c;
  (* validate prefix forwarding type and algorithm *)
  let pfxType := OpenrConfig.prefix_forwarding_type (config_ c) in
  let pfxAlgo := OpenrConfig.prefix_forwarding_algorithm (config_ c) in
  throw_if (negb (PrefixForwardingType_named pfxType)
            || negb (PrefixForwardingAlgorithm_named pfxAlgo))
    (invalid_argument "invalid prefix_forwarding_type or prefix_forwarding_algorithm");;
  throw_if (match pfxAlgo, pfxType with
            | KSP2_ED_ECMP, SR_MPLS => false
            | KSP2_ED_ECMP, _ => true
            | _, _ => false
            end)
    (invalid_argument "prefix_forwarding_type must be set to SR_MPLS for KSP2_ED_ECMP");;
  (* validate IP-TOS *)
  match OpenrConfig.ip_tos (config_ c) with
  | Some ipTos =>
      throw_if ((ipTos <? 0) || (256 <=? ipTos))%Z
        (out_of_range "ip_tos must be greater or equal to 0 and less than 256")
  | None => Ok tt
  end;;
  (* To avoid bgp and vip service advertise the same prefixes,
     bgp speaker and vip service shouldn't co-exist *)
  throw_if (isBgpPeeringEnabled c && isVipServiceEnabled c)
    (invalid_argument "Bgp Peering and Vip Service can not be both enabled");;
  (* check watchdog has config if enabled *)
  throw_if (isWatchdogEnabled c
            && negb (bool_decide (is_Some (OpenrConfig.watchdog_config (config_ c)))))
    (invalid_argument "enable_watchdog = true, but watchdog_config is empty");;
  (* Check Route Deletion Parameter *)
  throw_if (OpenrConfig.route_delete_delay_ms (config_ c) <? 0)%Z
    (invalid_argument "Route delete duration must be >= 0ms");;
  (* validate KvStore config (e.g. ttl/flood-rate/etc.) *)
  checkKvStoreConfig c;;
  (* validate Decision config (e.g. debounce) *)
  checkDecisionConfig c;;
  (* validate Spark config *)
  checkSparkConfig c;;
  (* validate Monitor config (e.g. event log) *)
  checkMonitorConfig c;;
  (* validate Link Monitor config (e.g. backoff) *)
  checkLinkMonitorConfig c;;
  (* validate Segment Routing config *)
  checkSegmentRoutingConfig c;;
  (* validate Prefix Allocation config *)
  c ← (if isPrefixAllocationEnabled c then
         (* by now areaConfigs_ should be filled. *)
         throw_if (1 <? size (areaConfigs_ c))%nat
           (invalid_argument "prefix_allocation only support single area config");;
         checkPrefixAllocationConfig c
       else Ok c);
  (* validate VipServiceConfig config *)
  checkVipServiceConfig c;;
  (* validate BGP Peering config and BGP Translation config *)
  c ← checkBgpPeeringConfig c;
  (* validate thrift server config *)
  (if isSecureThriftServerEnabled c then checkThriftServerConfig c else Ok tt);;
  (* Set an implicit value for eor_time_s (Decision Hold time) if not
     specified explicitly. *)
  Ok (if bool_decide (is_Some (OpenrConfig.eor_time_s (config_ c))) then c
      else set_config_ c
             (OpenrConfig.set_eor_time_s (config_ c)
                (Some (3 * SparkConfig.keepalive_time_s (getSparkConfig c))%Z))).

(** [Config::Config(const std::string& configFile)].  The members other
    than [config_] start empty. *)
Definition Config_new (config : OpenrConfig.t) : Config :=
  {| config_ := config; areaConfigs_ := ∅; prefixAllocationParams_ := None |}.

Definition Config_of_file (configFile : string) : outcome Config :=
  contents ←
    match readFileToString configFile with
    | None => Throw (ConfigError ("Could not read config file: " +:+ configFile))
    | Some contents => Ok contents
    end;
  config ←
    match deserialize contents with
    | inl ex => Throw (ConfigError ("Could not parse OpenrConfig struct: " +:+ ex))
    | inr config => Ok config
    end;
  populateInternalDb (Config_new config).

(** More accessors of Config.h. *)
Definition getConfig (c : Config) : OpenrConfig.t := config_ c.
Definition getNodeName (c : Config) : string := OpenrConfig.node_name (config_ c).
Definition getKvStoreConfig (c : Config) : KvstoreConfig.t :=
  OpenrConfig.kvstore_config (config_ c).

(** The translation of [thrift::KvstoreConfig] (if/OpenrConfig.thrift) to
    [thrift::KvStoreConfig] (if/KvStore.thrift). *)
Definition toThriftKvStoreConfig (c : Config) : KvStoreConfig.t :=
  let oldConfig := getKvStoreConfig c in
  {| KvStoreConfig.node_name := getNodeName c;
     KvStoreConfig.key_ttl_ms := KvstoreConfig.key_ttl_ms oldConfig;
     KvStoreConfig.ttl_decrement_ms := KvstoreConfig.ttl_decrement_ms oldConfig;
     KvStoreConfig.flood_rate :=
       match KvstoreConfig.flood_rate oldConfig with
       | Some floodRate =>
           Some {| KvStoreFloodRate.flood_msg_per_sec :=
                     KvstoreFloodRate.flood_msg_per_sec floodRate;
                   KvStoreFloodRate.flood_msg_burst_size :=
                     KvstoreFloodRate.flood_msg_burst_size floodRate |}
       | None => None
       end;
     KvStoreConfig.set_leaf_node := KvstoreConfig.set_leaf_node oldConfig;
     KvStoreConfig.key_prefix_filters := KvstoreConfig.key_prefix_filters oldConfig;
     KvStoreConfig.key_originator_id_filters :=
       KvstoreConfig.key_originator_id_filters oldConfig;
     KvStoreConfig.enable_flood_optimization :=
       KvstoreConfig.enable_flood_optimization oldConfig;
     KvStoreConfig.is_flood_root := KvstoreConfig.is_flood_root oldConfig;
     KvStoreConfig.ip_tos := OpenrConfig.ip_tos (getConfig c) |}.

(** *** What the validation establishes *)

(** The areas [populateAreaConfig] works on, and what it makes of one. *)
Definition effective_areas (config : OpenrConfig.t) : list AreaConfig.t :=
  match OpenrConfig.areas config with
  | [] => [AreaConfig.set_area_id AreaConfig.default kDefaultArea]
  | areas => areas
  end.

Definition normalize_area (areaConf : AreaConfig.t) : AreaConfig.t :=
  match AreaConfig.neighbor_regexes areaConf with
  | [] => AreaConfig.set_neighbor_regexes areaConf [".*"]
  | _ => areaConf
  end.

(** The checks that [populateAreaConfig] makes of a single area pass. *)
Definition area_passes (propagationPolicy : option Filters.t)
    (areaConf : AreaConfig.t) : Prop :=
  (forall name, AreaConfig.import_policy_name areaConf = Some name ->
                policy_undefined propagationPolicy name = false) /\
  is_ok (AreaConfiguration_of areaConf) = true /\
  checkNodeSegmentLabelConfig areaConf = Ok tt /\
  checkAdjacencyLabelConfig areaConf = Ok tt /\
  checkPrependLabelConfig areaConf = Ok tt.

(** The area has its entry in the map of area configurations. *)
Definition area_registered (areaConfigs : gmap string AreaConfiguration)
    (areaConf : AreaConfig.t) : Prop :=
  exists areaConfiguration,
    AreaConfiguration_of areaConf = Ok areaConfiguration /\
    areaConfigs !! AreaConfig.area_id areaConf = Some areaConfiguration.

(** The process is aborted by a [CHECK] of the code that the parameters
    stand for. *)
Definition external_abort (msg : string) : Prop :=
  (exists areaConf, AreaConfiguration_of areaConf = Abort msg) \/
  (exists addr, IPAddress_of_string addr = Abort msg) \/
  (exists prefix, createNetwork prefix = Abort msg).

(** The call fails no [CHECK] of its own. *)
Definition aborts_externally {A : Type} (m : outcome A) : Prop :=
  forall msg, m = Abort msg -> external_abort msg.

(** The exception is one that the validation throws itself,
    [std::invalid_argument] or [std::out_of_range], or one that the code
    the parameters stand for throws: the constructor of
    [AreaConfiguration], folly's parsing of addresses, [fs::exists]. *)
Definition validation_exception (e : exception) : Prop :=
  (exists what, e = invalid_argument what) \/
  (exists what, e = out_of_range what) \/
  (exists areaConf, AreaConfiguration_of areaConf = Throw e) \/
  (exists addr, IPAddress_of_string addr = Throw e) \/
  (exists prefix, createNetwork prefix = Throw e) \/
  (exists path, fs_exists path = inl e).

(** The call throws nothing else. *)
Definition throws_validation_exceptions {A : Type} (m : outcome A) : Prop :=
  forall e, m = Throw e -> validation_exception e.

(** What the steps of [populateInternalDb] that follow [populateAreaConfig]
    leave alone: they assign [bgp_translation_config], [eor_time_s] and
    [prefixAllocationParams_], and nothing else. *)
Definition validation_frame (c c' : Config) : Prop :=
  areaConfigs_ c' = areaConfigs_ c /\
  exists bgpTranslationConf eor,
    config_ c'
    = OpenrConfig.set_eor_time_s
        (OpenrConfig.set_bgp_translation_config (config_ c) bgpTranslationConf) eor.

(** Every check of [populateInternalDb] holds of the object. *)
Record FullyValidated (c : Config) : Prop := {
  fv_areas_nonempty : OpenrConfig.areas (config_ c) <> [];
  fv_neighbor_regexes :
    Forall (fun a => AreaConfig.neighbor_regexes a <> [])
      (OpenrConfig.areas (config_ c));
  fv_areas_pass :
    Forall (area_passes (propagationPolicy_of c)) (OpenrConfig.areas (config_ c));
  fv_areas_registered :
    Forall (area_registered (areaConfigs_ c)) (OpenrConfig.areas (config_ c));
  fv_area_ids : NoDup (map AreaConfig.area_id (OpenrConfig.areas (config_ c)));
  fv_areaConfigs :
    dom (areaConfigs_ c)
    = list_to_set (map AreaConfig.area_id (OpenrConfig.areas (config_ c)));
  fv_forwarding_named :
    PrefixForwardingType_named (OpenrConfig.prefix_forwarding_type (config_ c)) = true
    /\ PrefixForwardingAlgorithm_named
         (OpenrConfig.prefix_forwarding_algorithm (config_ c)) = true;
  fv_ksp2 :
    OpenrConfig.prefix_forwarding_algorithm (config_ c) = KSP2_ED_ECMP ->
    OpenrConfig.prefix_forwarding_type (config_ c) = SR_MPLS;
  fv_ip_tos :
    forall ipTos, OpenrConfig.ip_tos (config_ c) = Some ipTos -> (0 <= ipTos < 256)%Z;
  fv_bgp_vip : isBgpPeeringEnabled c && isVipServiceEnabled c = false;
  fv_watchdog :
    isWatchdogEnabled c = true -> is_Some (OpenrConfig.watchdog_config (config_ c));
  fv_route_delete : (0 <= OpenrConfig.route_delete_delay_ms (config_ c))%Z;
  fv_kvstore : checkKvStoreConfig c = Ok tt;
  fv_decision : checkDecisionConfig c = Ok tt;
  fv_spark : checkSparkConfig c = Ok tt;
  fv_monitor : checkMonitorConfig c = Ok tt;
  fv_link_monitor : checkLinkMonitorConfig c = Ok tt;
  fv_segment_routing : checkSegmentRoutingConfig c = Ok tt;
  fv_prefix_allocation :
    isPrefixAllocationEnabled c = true ->
    size (areaConfigs_ c) <= 1 /\ checkPrefixAllocationConfig c = Ok c;
  fv_vip : checkVipServiceConfig c = Ok tt;
  fv_bgp : checkBgpPeeringConfig c = Ok c;
  fv_thrift :
    isSecureThriftServerEnabled c = true -> checkThriftServerConfig c = Ok tt;
  fv_eor_time_s : is_Some (OpenrConfig.eor_time_s (config_ c))
}.

(** The two products that [checkSparkConfig] computes are within the range
    of [int], where C++ defines them. *)
Definition spark_products_fit (sparkConfig : SparkConfig.t) : Prop :=
  (1000 * SparkConfig.hello_time_s sparkConfig <= 2147483647)%Z /\
  (3 * SparkConfig.keepalive_time_s sparkConfig <= 2147483647)%Z.

(** The message of the check of [hold_time_s], and the message of the
    last check of the step detector's thresholds. *)
Definition hold_time_s_message (sparkConfig : SparkConfig.t) : string :=
  "hold_time_s (" +:+ fmt (SparkConfig.hold_time_s sparkConfig)
  +:+ ") should be > 0".

Definition last_threshold_message (sparkConfig : SparkConfig.t) : string :=
  let step := SparkConfig.step_detector_conf sparkConfig in
  "step_detector_conf.lower_threshold ("
  +:+ fmt (StepDetectorConfig.lower_threshold step)
  +:+ ") should be < step_detector_conf.upper_threshold ("
  +:+ fmt (StepDetectorConfig.upper_threshold step) +:+ ")".

(** The area that has the adjacency label and the prepend label ranges of
    the segment routing configuration, and nothing else. *)
Definition area_of_segment_routing (srConfig : SegmentRoutingConfig.t) : AreaConfig.t :=
  {| AreaConfig.area_id := ""; AreaConfig.neighbor_regexes := [];
     AreaConfig.include_interface_regexes := [];
     AreaConfig.exclude_interface_regexes := [];
     AreaConfig.redistribute_interface_regexes := [];
     AreaConfig.import_policy_name := None;
     AreaConfig.area_sr_node_label := None;
     AreaConfig.sr_adj_label := SegmentRoutingConfig.sr_adj_label srConfig;
     AreaConfig.prepend_label_ranges :=
       SegmentRoutingConfig.prepend_label_ranges srConfig |}.

(** The outcome of a construction: an object of which every check holds,
    or an exception and no object, or an abort from outside and no object. *)
Definition all_or_nothing (m : outcome Config) : Prop :=
  (exists c, m = Ok c /\ FullyValidated c) \/
  (exists e, m = Throw e) \/
  (exists msg, m = Abort msg /\ external_abort msg).

End Config.

(** ** The KvStore's key filter *)

Section KeyFilter.
Context {parser : RE2.Parser}.

Inductive Combinator : Type := AND | OR.

(** Modelled from the spec: the filter of a subscription and its
    evaluation (section 4.6), which belong to the KvStore and are not among
    the sources.  An entry matches if, combined per [combinator], its key
    matches at least one pattern and/or its originator is in the set; an
    empty pattern set matches every key and an empty originator set every
    originator.  A key pattern is matched against the beginning of the key
    (section 8: a prefix match). *)
Record KeyFilter : Type := {
  keyPatterns : list string;
  originatorIds : list string;
  combinator : Combinator;
  ignoreTtl : bool;
  redactValue : bool
}.

(** Modelled from the spec: an entry of the store (section 3), without its
    digest. *)
Record Entry : Type := {
  key : string;
  value : option string;
  version : Z;
  originatorId : string;
  ttlMs : Z;
  ttlVersion : Z
}.

(** Modelled from the spec: the key matches at least one pattern. *)
Definition keyMatch (f : KeyFilter) (k : string) : bool :=
  match keyPatterns f with
  | [] => true
  | patterns =>
      existsb (fun p =>
                 match RE2.parse RE2.default_options p with
                 | inr re => RE2.regex_match RE2.ANCHOR_START re k
                 | inl _ => false
                 end) patterns
  end.

(** Modelled from the spec: the originator is in the set. *)
Definition originatorMatch (f : KeyFilter) (originator : string) : bool :=
  match originatorIds f with
  | [] => true
  | ids => bool_decide (originator ∈ ids)
  end.

(** Modelled from the spec: the two conditions, combined. *)
Definition filterMatch (f : KeyFilter) (e : Entry) : bool :=
  match combinator f with
  | AND => keyMatch f (key e) && originatorMatch f (originatorId e)
  | OR => keyMatch f (key e) || originatorMatch f (originatorId e)
  end.

End KeyFilter.

(** The filter and the store of the scenario of section 8. *)
Definition scenario_filter : KeyFilter :=
  {| keyPatterns := ["key3"]; originatorIds := ["node3"; "node33"];
     combinator := AND; ignoreTtl := false; redactValue := false |}.

Definition scenario_entry (k originator v : string) : Entry :=
  {| key := k; value := Some v; version := 1; originatorId := originator;
     ttlMs := 30000; ttlVersion := 1 |}.

Definition scenario_store : list Entry :=
  [scenario_entry "key3" "node3" "value3";
   scenario_entry "key33" "node33" "value33";
   scenario_entry "key333" "node33" "value333"].

(** The pattern [key3] of the scenario as RE2 reads it, case sensitive:
    its four characters, one after the other. *)
Definition scenario_pattern : RE2.regex :=
  RE2.Concat (RE2.Literal false "k")
    (RE2.Concat (RE2.Literal false "e")
       (RE2.Concat (RE2.Literal false "y") (RE2.Literal false "3"))).

(** ** Instances for the examples *)

(** Addresses are told apart by their first characters only. *)
Inductive example_address : Type := example_v4 (loopback : bool) | example_v6 (loopback : bool).

Definition example_address_of (s : string) : outcome example_address :=
  if String.prefix "127." s then Ok (example_v4 true)
  else if String.prefix "::1" s then Ok (example_v6 true)
  else if String.prefix "10." s then Ok (example_v4 false)
  else if String.prefix "fc00:" s then Ok (example_v6 false)
  else Throw (library_exception "IPAddressFormatException").

Definition example_area (id : string) (neighbors : list string) : AreaConfig.t :=
  AreaConfig.set_neighbor_regexes
    (AreaConfig.set_area_id AreaConfig.default id) neighbors.

Definition example_kvstore (ttl : Z) (rate : option KvstoreFloodRate.t)
    : KvstoreConfig.t :=
  {| KvstoreConfig.key_ttl_ms := ttl;
     KvstoreConfig.ttl_decrement_ms := 1;
     KvstoreConfig.flood_rate := rate;
     KvstoreConfig.set_leaf_node := None;
     KvstoreConfig.key_prefix_filters := None;
     KvstoreConfig.key_originator_id_filters := None;
     KvstoreConfig.enable_flood_optimization := Some true;
     KvstoreConfig.is_flood_root := Some true |}.

Definition example_openr_config (areas : list AreaConfig.t) (kvstore : KvstoreConfig.t)
    : OpenrConfig.t :=
  {| OpenrConfig.node_name := "thanos@universe";
     OpenrConfig.areas := areas;
     OpenrConfig.area_policies := None;
     OpenrConfig.enable_v4 := true;
     OpenrConfig.enable_segment_routing := true;
     OpenrConfig.enable_bgp_peering := false;
     OpenrConfig.enable_vip_service := false;
     OpenrConfig.enable_watchdog := false;
     OpenrConfig.enable_prefix_allocation := false;
     OpenrConfig.prefix_forwarding_type := SR_MPLS;
     OpenrConfig.prefix_forwarding_algorithm := KSP2_ED_ECMP;
     OpenrConfig.ip_tos := Some 192%Z;
     OpenrConfig.route_delete_delay_ms := 1000;
     OpenrConfig.eor_time_s := None;
     OpenrConfig.kvstore_config := kvstore;
     OpenrConfig.decision_config :=
       {| DecisionConfig.debounce_min_ms := 10;
          DecisionConfig.debounce_max_ms := 250 |};
     OpenrConfig.spark_config :=
       {| SparkConfig.neighbor_discovery_port := 6666;
          SparkConfig.hello_time_s := 20;
          SparkConfig.fastinit_hello_time_ms := 500;
          SparkConfig.keepalive_time_s := 2;
          SparkConfig.hold_time_s := 10;
          SparkConfig.graceful_restart_time_s := 30;
          SparkConfig.step_detector_conf :=
            {| StepDetectorConfig.fast_window_size := 10;
               StepDetectorConfig.slow_window_size := 60;
               StepDetectorConfig.lower_threshold := 2;
               StepDetectorConfig.upper_threshold := 5 |} |};
     OpenrConfig.monitor_config := {| MonitorConfig.max_event_log := 100 |};
     OpenrConfig.link_monitor_config :=
       {| LinkMonitorConfig.linkflap_initial_backoff_ms := 60000;
          LinkMonitorConfig.linkflap_max_backoff_ms := 300000 |};
     OpenrConfig.segment_routing_config := None;
     OpenrConfig.prefix_allocation_config := None;
     OpenrConfig.vip_service_config := None;
     OpenrConfig.bgp_config := None;
     OpenrConfig.bgp_translation_config := None;
     OpenrConfig.thrift_server :=
       {| ThriftServerConfig.enable_secure_thrift_server := false;
          ThriftServerConfig.x509_ca_path := None;
          ThriftServerConfig.x509_cert_path := None;
          ThriftServerConfig.x509_key_path := None;
          ThriftServerConfig.ecc_curve_name := None |};
     OpenrConfig.watchdog_config := None |}.

(** The configuration the example file holds: one area is missing its
    neighbor patterns. *)
Definition example_config : OpenrConfig.t :=
  example_openr_config
    [example_area "spine" ["rsw.*"; "fsw.*"]; example_area "pod" []]
    (example_kvstore 300000
       (Some {| KvstoreFloodRate.flood_msg_per_sec := 1024;
                KvstoreFloodRate.flood_msg_burst_size := 128 |})).

(** A configuration that turns the secure thrift server on; the
    certificate of the CA is in a directory [fs::exists] may not enter. *)
Definition example_secure_config : OpenrConfig.t :=
  let config := example_config in
  {| OpenrConfig.node_name := OpenrConfig.node_name config;
     OpenrConfig.areas := OpenrConfig.areas config;
     OpenrConfig.area_policies := OpenrConfig.area_policies config;
     OpenrConfig.enable_v4 := OpenrConfig.enable_v4 config;
     OpenrConfig.enable_segment_routing := OpenrConfig.enable_segment_routing config;
     OpenrConfig.enable_bgp_peering := OpenrConfig.enable_bgp_peering config;
     OpenrConfig.enable_vip_service := OpenrConfig.enable_vip_service config;
     OpenrConfig.enable_watchdog := OpenrConfig.enable_watchdog config;
     OpenrConfig.enable_prefix_allocation :=
       OpenrConfig.enable_prefix_allocation config;
     OpenrConfig.prefix_forwarding_type := OpenrConfig.prefix_forwarding_type config;
     OpenrConfig.prefix_forwarding_algorithm :=
       OpenrConfig.prefix_forwarding_algorithm config;
     OpenrConfig.ip_tos := OpenrConfig.ip_tos config;
     OpenrConfig.route_delete_delay_ms := OpenrConfig.route_delete_delay_ms config;
     OpenrConfig.eor_time_s := OpenrConfig.eor_time_s config;
     OpenrConfig.kvstore_config := OpenrConfig.kvstore_config config;
     OpenrConfig.decision_config := OpenrConfig.decision_config config;
     OpenrConfig.spark_config := OpenrConfig.spark_config config;
     OpenrConfig.monitor_config := OpenrConfig.monitor_config config;
     OpenrConfig.link_monitor_config := OpenrConfig.link_monitor_config config;
     OpenrConfig.segment_routing_config := OpenrConfig.segment_routing_config config;
     OpenrConfig.prefix_allocation_config :=
       OpenrConfig.prefix_allocation_config config;
     OpenrConfig.vip_service_config := OpenrConfig.vip_service_config config;
     OpenrConfig.bgp_config := OpenrConfig.bgp_config config;
     OpenrConfig.bgp_translation_config := OpenrConfig.bgp_translation_config config;
     OpenrConfig.thrift_server :=
       {| ThriftServerConfig.enable_secure_thrift_server := true;
          ThriftServerConfig.x509_ca_path := Some "/root/ca.pem";
          ThriftServerConfig.x509_cert_path := Some "/etc/openr/cert.pem";
          ThriftServerConfig.x509_key_path := Some "/etc/openr/key.pem";
          ThriftServerConfig.ecc_curve_name := Some "prime256v1" |};
     OpenrConfig.watchdog_config := OpenrConfig.watchdog_config config |}.

Definition example_externals : Externals := {|
  kDefaultArea := "0";
  kTtlInfinity := -2147483648;
  isMplsLabelValid := fun label => ((16 <=? label) && (label <? 1048576))%Z;
  isLabelRangeValid := fun r =>
    ((16 <=? LabelRange.start_label r)
     && (LabelRange.start_label r <=? LabelRange.end_label r)
     && (LabelRange.end_label r <? 1048576))%Z;
  IPAddress := example_address;
  isV4 := fun a => match a with example_v4 _ => true | _ => false end;
  isV6 := fun a => match a with example_v6 _ => true | _ => false end;
  isLoopback := fun a =>
    match a with example_v4 l => l | example_v6 l => l end;
  IPAddress_of_string := example_address_of;
  createNetwork := fun s => a ← example_address_of s; Ok (a, 16%Z);
  fs_exists := fun path =>
    if String.prefix "/root/" path
    then inl (library_exception "filesystem error: status: Permission denied")
    else inr (String.prefix "/etc/" path);
  readFileToString := fun path =>
    if String.eqb path "/etc/openr.conf" then Some "{}"
    else if String.eqb path "/etc/openr.tls" then Some "{tls}"
    else if String.eqb path "/etc/openr.broken" then Some "{"
    else None;
  deserialize := fun contents =>
    if String.eqb contents "{}" then inr example_config
    else if String.eqb contents "{tls}" then inr example_secure_config
    else inl "expected '}'";
  AreaConfiguration := RE2.Set_;
  AreaConfiguration_of := fun areaConf =>
    @compileRegexSet RE2.parse_pattern (AreaConfig.neighbor_regexes areaConf);
  BgpRouteTranslationConfig_default :=
    {| BgpRouteTranslationConfig.disable_legacy_translation := false;
       BgpRouteTranslationConfig.enable_bgp_to_openr := false;
       BgpRouteTranslationConfig.enable_openr_to_bgp := false |}
|}.

(** The example configuration with other areas and another configuration
    of Spark, and with prefix allocation if a configuration is given for
    it. *)
Definition example_variant (areas : list AreaConfig.t) (spark : SparkConfig.t)
    (prefix_allocation : option PrefixAllocationConfig.t) : OpenrConfig.t :=
  let config := example_config in
  {| OpenrConfig.node_name := OpenrConfig.node_name config;
     OpenrConfig.areas := areas;
     OpenrConfig.area_policies := OpenrConfig.area_policies config;
     OpenrConfig.enable_v4 := OpenrConfig.enable_v4 config;
     OpenrConfig.enable_segment_routing := OpenrConfig.enable_segment_routing config;
     OpenrConfig.enable_bgp_peering := OpenrConfig.enable_bgp_peering config;
     OpenrConfig.enable_vip_service := OpenrConfig.enable_vip_service config;
     OpenrConfig.enable_watchdog := OpenrConfig.enable_watchdog config;
     OpenrConfig.enable_prefix_allocation :=
       match prefix_allocation with Some _ => true | None => false end;
     OpenrConfig.prefix_forwarding_type := OpenrConfig.prefix_forwarding_type config;
     OpenrConfig.prefix_forwarding_algorithm :=
       OpenrConfig.prefix_forwarding_algorithm config;
     OpenrConfig.ip_tos := OpenrConfig.ip_tos config;
     OpenrConfig.route_delete_delay_ms := OpenrConfig.route_delete_delay_ms config;
     OpenrConfig.eor_time_s := OpenrConfig.eor_time_s config;
     OpenrConfig.kvstore_config := OpenrConfig.kvstore_config config;
     OpenrConfig.decision_config := OpenrConfig.decision_config config;
     OpenrConfig.spark_config := spark;
     OpenrConfig.monitor_config := OpenrConfig.monitor_config config;
     OpenrConfig.link_monitor_config := OpenrConfig.link_monitor_config config;
     OpenrConfig.segment_routing_config := OpenrConfig.segment_routing_config config;
     OpenrConfig.prefix_allocation_config := prefix_allocation;
     OpenrConfig.vip_service_config := OpenrConfig.vip_service_config config;
     OpenrConfig.bgp_config := OpenrConfig.bgp_config config;
     OpenrConfig.bgp_translation_config := OpenrConfig.bgp_translation_config config;
     OpenrConfig.thrift_server := OpenrConfig.thrift_server config;
     OpenrConfig.watchdog_config := OpenrConfig.watchdog_config config |}.

(** Spark as the example configuration has it, on another port. *)
Definition example_spark (port : Z) : SparkConfig.t :=
  let spark := OpenrConfig.spark_config example_config in
  {| SparkConfig.neighbor_discovery_port := port;
     SparkConfig.hello_time_s := SparkConfig.hello_time_s spark;
     SparkConfig.fastinit_hello_time_ms := SparkConfig.fastinit_hello_time_ms spark;
     SparkConfig.keepalive_time_s := SparkConfig.keepalive_time_s spark;
     SparkConfig.hold_time_s := SparkConfig.hold_time_s spark;
     SparkConfig.graceful_restart_time_s := SparkConfig.graceful_restart_time_s spark;
     SparkConfig.step_detector_conf := SparkConfig.step_detector_conf spark |}.

(** An area that imports a policy. *)
Definition example_area_importing (id policy : string) : AreaConfig.t :=
  {| AreaConfig.area_id := id; AreaConfig.neighbor_regexes := [];
     AreaConfig.include_interface_regexes := [];
     AreaConfig.exclude_interface_regexes := [];
     AreaConfig.redistribute_interface_regexes := [];
     AreaConfig.import_policy_name := Some policy;
     AreaConfig.area_sr_node_label := None;
     AreaConfig.sr_adj_label := None;
     AreaConfig.prepend_label_ranges := None |}.

(** A root node of prefix allocation: /24 prefixes out of a /16 seed. *)
Definition example_prefix_allocation : PrefixAllocationConfig.t :=
  {| PrefixAllocationConfig.prefix_allocation_mode := DYNAMIC_ROOT_NODE;
     PrefixAllocationConfig.seed_prefix := Some "10.1.0.0/16";
     PrefixAllocationConfig.allocate_prefix_len := Some 24%Z |}.

Definition example_root_config : OpenrConfig.t :=
  example_variant [example_area "spine" ["rsw.*"]] (example_spark 6666)
    (Some example_prefix_allocation).

(** * Properties *)

(** ** The derivative matcher decides [Matches] *)

Section Derivatives.
Import RE2.

Lemma app_nil_inv (w1 w2 : list ascii) : w1 ++ w2 = [] -> w1 = [] /\ w2 = [].
Proof. destruct w1; [tauto | discriminate]. Qed.

Lemma Matches_nil_nullable r bot w eot :
  Matches r bot w eot -> w = [] -> nullable r bot eot = true.
Proof.
  induction 1; intros Hw; simpl; try discriminate; try reflexivity.
  - apply app_nil_inv in Hw as [-> ->]. simpl in *.
    rewrite !andb_true_r in *. rewrite IHMatches1, IHMatches2; auto.
  - rewrite IHMatches; auto.
  - rewrite IHMatches; auto. apply orb_true_r.
  - apply app_nil_inv in Hw as [-> ->]. simpl in *.
    rewrite !andb_true_r in *. auto.
Qed.

Lemma nullable_Matches_nil r bot eot :
  nullable r bot eot = true -> Matches r bot [] eot.
Proof.
  induction r; simpl; intros Hn; try discriminate.
  - constructor.
  - subst. constructor.
  - subst. constructor.
  - apply andb_true_iff in Hn as [H1 H2].
    apply (MConcat r1 r2 [] []); simpl; rewrite andb_true_r; auto.
  - apply orb_true_iff in Hn as [H1 | H2];
      [apply MAlternateL | apply MAlternateR]; auto.
  - apply MStarNil.
  - apply (MPlus r [] []); simpl; rewrite andb_true_r; auto.
    apply MStarNil.
  - apply MQuestNil.
Qed.

Lemma deriv_sound r : forall x bot w eot,
  Matches (deriv r x bot) false w eot ->
  Matches r bot (x :: w) eot.
Proof.
  induction r; simpl; intros x bot w eot Hm.
  - inversion Hm.
  - inversion Hm.
  - destruct (literal_match fold c x) eqn:E; inversion Hm; subst.
    constructor; auto.
  - inversion Hm; subst. constructor.
  - destruct (class_match fold negated ranges x) eqn:E; inversion Hm; subst.
    constructor; auto.
  - inversion Hm.
  - inversion Hm.
  - inversion Hm as [| | | | | | | ? ? ? ? ? Hl | ? ? ? ? ? Hr | | | | |]; subst.
    + inversion Hl as [| | | | | | ? ? w1 w2 ? ? H1 H2 | | | | | | |]; subst.
      apply (MConcat r1 r2 (x :: w1) w2); simpl.
      * apply IHr1; auto.
      * rewrite andb_false_r. simpl in H2. exact H2.
    + destruct (nullable r1 bot false) eqn:E; [| inversion Hr].
      apply (MConcat r1 r2 [] (x :: w)); simpl.
      * rewrite andb_false_r. apply nullable_Matches_nil; auto.
      * rewrite andb_true_r. apply IHr2; auto.
  - inversion Hm; subst; [apply MAlternateL | apply MAlternateR]; auto.
  - inversion Hm as [| | | | | | ? ? w1 w2 ? ? H1 H2 | | | | | | |]; subst.
    apply (MStarApp r (x :: w1) w2); simpl.
    + apply IHr; auto.
    + rewrite andb_false_r. exact H2.
  - inversion Hm as [| | | | | | ? ? w1 w2 ? ? H1 H2 | | | | | | |]; subst.
    apply (MPlus r (x :: w1) w2); simpl.
    + apply IHr; auto.
    + rewrite andb_false_r. exact H2.
  - apply MQuest. apply IHr; auto.
Qed.

Lemma deriv_complete r bot w0 eot :
  Matches r bot w0 eot ->
  forall y v, w0 = y :: v -> Matches (deriv r y bot) false v eot.
Proof.
  induction 1 as [ | fold c x bot eot Hc | | fold negated ranges x bot eot Hc | |
                   | r1 r2 w1 w2 bot eot H1 IH1 H2 IH2
                   | r1 r2 w bot eot H1 IH1 | r1 r2 w bot eot H1 IH1 |
                   | r w1 w2 bot eot H1 IH1 H2 IH2
                   | r w1 w2 bot eot H1 IH1 H2 IH2 | | r w bot eot H1 IH1 ];
    intros y v Hw; simpl; try discriminate.
  - injection Hw as -> <-. rewrite Hc. constructor.
  - injection Hw as -> <-. constructor.
  - injection Hw as -> <-. rewrite Hc. constructor.
  - destruct w1 as [| z w1']; simpl in *.
    + subst w2. apply MAlternateR.
      rewrite andb_false_r in H1. rewrite andb_true_r in *.
      rewrite (Matches_nil_nullable _ _ _ _ H1 eq_refl). auto.
    + injection Hw as -> <-. apply MAlternateL.
      rewrite andb_false_r in *.
      apply (MConcat _ r2 w1' w2); simpl; auto.
  - apply MAlternateL; auto.
  - apply MAlternateR; auto.
  - destruct w1 as [| z w1']; simpl in *.
    + subst w2. rewrite andb_true_r in *. apply (IH2 y v eq_refl).
    + injection Hw as -> <-. rewrite andb_false_r in *.
      apply (MConcat _ (Star r) w1' w2); simpl; auto.
  - destruct w1 as [| z w1']; simpl in *.
    + subst w2. rewrite andb_true_r in *. apply (IH2 y v eq_refl).
    + injection Hw as -> <-. rewrite andb_false_r in *.
      apply (MConcat _ (Star r) w1' w2); simpl; auto.
  - auto.
Qed.

Lemma run_Matches s : forall r bot,
  run r bot s = true <-> Matches r bot s true.
Proof.
  induction s as [| x s IH]; intros r bot; simpl.
  - split; [apply nullable_Matches_nil | intros Hm].
    apply (Matches_nil_nullable _ _ _ _ Hm eq_refl).
  - rewrite IH. split; [apply deriv_sound | intros Hm].
    apply (deriv_complete _ _ _ _ Hm _ _ eq_refl).
Qed.

(** A match anchored at the start is a match of a prefix of the text. *)
Lemma run_prefix_Matches s : forall r bot,
  run_prefix r bot s = true <->
  exists w1 w2, s = w1 ++ w2 /\ Matches r bot w1 (isnil w2).
Proof.
  induction s as [| x s IH]; intros r bot; simpl.
  - split.
    + intros Hn. exists [], []. split; [reflexivity |].
      apply nullable_Matches_nil, Hn.
    + intros (w1 & w2 & Hs & Hm). symmetry in Hs.
      apply app_nil_inv in Hs as [-> ->].
      apply (Matches_nil_nullable _ _ _ _ Hm eq_refl).
  - rewrite orb_true_iff, IH. split.
    + intros [Hn | (w1 & w2 & -> & Hm)].
      * exists [], (x :: s). split; [reflexivity |].
        apply nullable_Matches_nil, Hn.
      * exists (x :: w1), w2. split; [reflexivity |].
        apply deriv_sound, Hm.
    + intros ([| y v] & w2 & Hs & Hm); simpl in Hs.
      * subst w2. left. apply (Matches_nil_nullable _ _ _ _ Hm eq_refl).
      * injection Hs as <- ->. right. exists v, w2. split; [reflexivity |].
        apply (deriv_complete _ _ _ _ Hm _ _ eq_refl).
Qed.

End Derivatives.

(** ** Case folding *)

Section CaseFolding.
Import RE2.

Ltac each_char x :=
  destruct x as [[] [] [] [] [] [] [] []]; vm_compute; try reflexivity; try discriminate.

Lemma to_upper_to_lower x : to_upper (to_lower x) = to_upper x.
Proof. each_char x. Qed.

Lemma to_lower_or_to_upper x : x = to_lower x \/ x = to_upper x.
Proof. each_char x; auto. Qed.

Lemma class_match_fold negated ranges x :
  class_match true negated ranges x
  = xorb negated (existsb (in_range (to_lower x)) ranges
                  || existsb (in_range (to_upper x)) ranges).
Proof.
  unfold class_match. f_equal. simpl.
  destruct (to_lower_or_to_upper x) as [E | E]; rewrite E at 1;
    destruct (existsb (in_range (to_lower x)) ranges),
             (existsb (in_range (to_upper x)) ranges); reflexivity.
Qed.

Lemma folds_case_deriv r x bot :
  folds_case r = true -> folds_case (deriv r x bot) = true.
Proof.
  induction r; simpl; intros Hf; try reflexivity.
  - destruct (literal_match fold c x); reflexivity.
  - destruct (class_match fold negated ranges x); reflexivity.
  - apply andb_true_iff in Hf as [H1 H2]. rewrite IHr1, H2 by assumption.
    destruct (nullable r1 bot false); simpl; auto.
  - apply andb_true_iff in Hf as [H1 H2]. rewrite IHr1, IHr2 by assumption.
    reflexivity.
  - rewrite IHr, Hf by assumption. reflexivity.
  - rewrite IHr, Hf by assumption. reflexivity.
  - auto.
Qed.

Lemma deriv_same_modulo_case r x x' bot :
  folds_case r = true ->
  to_lower x = to_lower x' -> deriv r x bot = deriv r x' bot.
Proof.
  intros Hf E. induction r; simpl in *; try reflexivity.
  - subst fold. unfold literal_match. rewrite E. reflexivity.
  - subst fold.
    rewrite !class_match_fold, <- (to_upper_to_lower x), <- (to_upper_to_lower x'), E.
    reflexivity.
  - apply andb_true_iff in Hf as [H1 H2]. rewrite IHr1, IHr2 by assumption.
    reflexivity.
  - apply andb_true_iff in Hf as [H1 H2]. rewrite IHr1, IHr2 by assumption.
    reflexivity.
  - rewrite IHr by assumption. reflexivity.
  - rewrite IHr by assumption. reflexivity.
  - auto.
Qed.

Lemma run_same_modulo_case s : forall s' r bot,
  folds_case r = true ->
  map to_lower s = map to_lower s' -> run r bot s = run r bot s'.
Proof.
  induction s as [| x s IH]; intros [| x' s'] r bot Hf E; simpl in *;
    try discriminate; auto.
  injection E as Ex Es. rewrite (deriv_same_modulo_case r x x' bot Hf Ex).
  apply IH; [apply folds_case_deriv |]; assumption.
Qed.

Lemma run_prefix_same_modulo_case s : forall s' r bot,
  folds_case r = true ->
  map to_lower s = map to_lower s' ->
  run_prefix r bot s = run_prefix r bot s'.
Proof.
  induction s as [| x s IH]; intros [| x' s'] r bot Hf E; simpl in *;
    try discriminate; auto.
  injection E as Ex Es. rewrite (deriv_same_modulo_case r x x' bot Hf Ex).
  f_equal. apply IH; [apply folds_case_deriv |]; assumption.
Qed.

Lemma search_same_modulo_case s : forall s' r bot,
  folds_case r = true ->
  map to_lower s = map to_lower s' ->
  search r bot s = search r bot s'.
Proof.
  induction s as [| x s IH]; intros [| x' s'] r bot Hf E; try discriminate; auto.
  cbn [search]. rewrite (run_prefix_same_modulo_case _ _ r bot Hf E).
  injection E as Ex Es. f_equal. auto.
Qed.

Lemma Match_same_modulo_case set k k' :
  Forall (fun e => folds_case (snd e) = true) (elem set) ->
  same_modulo_case k k' ->
  Match set k = Match set k'.
Proof.
  intros Hf Hk. unfold Match. f_equal.
  induction Hf as [| e es He Hes IH]; simpl; [reflexivity |].
  rewrite IH. f_equal. unfold regex_match.
  destruct (anchor set).
  - apply search_same_modulo_case; assumption.
  - apply run_prefix_same_modulo_case; assumption.
  - apply run_same_modulo_case; assumption.
Qed.

End CaseFolding.

(** ** compileRegexSet *)

Section CompileRegexSetFacts.
Context {parser : RE2.Parser}.
Import RE2.

Lemma add_strings_Ok strings : forall reSet regexErr reSet' regexErr',
  compiled reSet = false ->
  options reSet = folding_options ->
  add_strings strings reSet regexErr = Ok (reSet', regexErr') ->
  options reSet' = options reSet /\ anchor reSet' = anchor reSet /\
  compiled reSet' = false /\
  exists es, elem reSet' = elem reSet ++ es /\ parsed_as strings es.
Proof.
  induction strings as [| str rest IH]; simpl;
    intros reSet regexErr reSet' regexErr' Hc Ho Hadd.
  - injection Hadd as <- <-. repeat split; auto.
    exists []. rewrite app_nil_r. split; [reflexivity | constructor].
  - unfold Add in Hadd. rewrite Hc, Ho in Hadd.
    destruct (parse folding_options str) as [status | re] eqn:Hp; simpl in Hadd;
      [discriminate |].
    destruct (Z.eqb_spec (Z.of_nat (length (elem reSet))) (-1)); [lia |].
    apply IH in Hadd as (Ho' & Ha & Hc' & es & He & Hes); [| reflexivity ..].
    simpl in *. repeat split; auto; [congruence |].
    exists ((str, re) :: es). split.
    + rewrite He, <- app_assoc. reflexivity.
    + constructor; auto.
Qed.

Lemma add_strings_Throw pre str post status reSet regexErr :
  compiled reSet = false ->
  options reSet = folding_options ->
  Forall (fun p => exists re, parse folding_options p = inr re) pre ->
  parse folding_options str = inl status ->
  add_strings (pre ++ str :: post) reSet regexErr
  = Throw (invalid_argument (failed_to_add str status)).
Proof.
  intros Hc Ho Hpre Hstr. revert reSet regexErr Hc Ho.
  induction Hpre as [| p pre [re Hp] _ IH]; intros reSet regexErr Hc Ho; simpl.
  - unfold Add. rewrite Hc, Ho, Hstr. reflexivity.
  - unfold Add. rewrite Hc, Ho, Hp.
    destruct (Z.eqb_spec (Z.of_nat (length (elem reSet))) (-1)); [lia |].
    apply IH; reflexivity.
Qed.

Lemma first_invalid strings :
  (exists p, In p strings /\ exists status, parse folding_options p = inl status) ->
  exists pre str post status,
    strings = pre ++ str :: post /\
    Forall (fun p => exists re, parse folding_options p = inr re) pre /\
    parse folding_options str = inl status.
Proof.
  induction strings as [| q rest IH]; intros (p & Hin & status & Hp).
  - destruct Hin.
  - destruct (parse folding_options q) as [st | re] eqn:Hq.
    + exists [], q, rest, st. repeat split; auto.
    + destruct Hin as [-> | Hin]; [congruence |].
      destruct IH as (pre & str & post & st & -> & Hpre & Hstr); [eauto |].
      exists (q :: pre), str, post, st. repeat split; eauto.
Qed.

Lemma add_strings_throws strings : forall reSet regexErr,
  throws_only_invalid_argument (add_strings strings reSet regexErr).
Proof.
  induction strings as [| str rest IH]; simpl; intros reSet regexErr.
  - exact I.
  - destruct (Add reSet str regexErr) as [[reSet' rc] regexErr'].
    destruct (rc =? -1)%Z; [exact I | apply IH].
Qed.

Lemma compileRegexSet_nonempty_Ok strings set :
  strings <> [] ->
  compileRegexSet strings = Ok set ->
  exists es, parsed_as strings es /\
    set = {| options := folding_options; anchor := ANCHOR_BOTH;
             elem := es; compiled := true |}.
Proof.
  intros Hne. unfold compileRegexSet.
  rewrite bool_decide_false by assumption. simpl.
  destruct (add_strings strings _ _) as [[reSet regexErr] | |] eqn:Hadd; simpl;
    try discriminate.
  apply add_strings_Ok in Hadd as (Ho & Ha & Hc & es & He & Hes); [| reflexivity ..].
  unfold Compile. rewrite Hc. simpl. intros [= <-].
  exists es. split; auto. rewrite Ho, Ha, He. reflexivity.
Qed.

(** What a set that [compileRegexSet] returns is made of. *)
Lemma compileRegexSet_Ok strings set :
  compileRegexSet strings = Ok set ->
  exists es,
    parsed_as (if bool_decide (strings = []) then ["a^"] else strings) es /\
    set = {| options := folding_options; anchor := ANCHOR_BOTH;
             elem := es; compiled := true |}.
Proof.
  intros Hok. destruct (decide (strings = [])) as [-> | Hne].
  - rewrite bool_decide_true by reflexivity.
    unfold compileRegexSet, Add in Hok. simpl in Hok.
    change (set_case_sensitive default_options false) with folding_options in Hok.
    destruct (parse folding_options "a^") as [| re] eqn:Hp; simpl in Hok;
      [discriminate |].
    injection Hok as <-. exists [("a^", re)]. split; [| reflexivity].
    constructor; [| constructor]. split; [reflexivity | exact Hp].
  - rewrite bool_decide_false by assumption.
    apply compileRegexSet_nonempty_Ok; assumption.
Qed.

Lemma parsed_as_In strings es :
  parsed_as strings es ->
  forall e, In e es -> In (fst e) strings /\ parse folding_options (fst e) = inr (snd e).
Proof.
  induction 1 as [| q e strings es [Hf Hp] _ IH]; intros e'; simpl.
  - tauto.
  - intros [<- | Hin]; [rewrite Hf; auto |].
    destruct (IH _ Hin); auto.
Qed.

Lemma parsed_as_In_strings strings es :
  parsed_as strings es ->
  forall q re, In q strings -> parse folding_options q = inr re -> In (q, re) es.
Proof.
  induction 1 as [| q0 e strings es [Hf Hp] _ IH]; intros q re; simpl.
  - tauto.
  - intros [<- | Hin] Hq; [| right; eauto].
    left. destruct e as [q' re']. simpl in *. congruence.
Qed.

(** With a parser that reads the unmatchable pattern, [compileRegexSet]
    fails no [CHECK] and throws [std::invalid_argument] only. *)
Lemma compileRegexSet_throws strings :
  (exists re, parse folding_options "a^" = inr re) ->
  throws_only_invalid_argument (compileRegexSet strings).
Proof.
  intros (re & Hre). unfold compileRegexSet.
  destruct (decide (strings = [])) as [-> | Hne].
  - unfold Add. simpl. change (set_case_sensitive default_options false)
      with folding_options. rewrite Hre. simpl. exact I.
  - rewrite bool_decide_false by assumption. simpl.
    pose proof (add_strings_throws strings
                  (new (set_case_sensitive default_options false) ANCHOR_BOTH) "")
      as Hthrows.
    destruct (add_strings strings _ _) as [[reSet regexErr] | e | msg] eqn:Hadd; simpl.
    + apply add_strings_Ok in Hadd as (_ & _ & Hc & _); [| reflexivity ..].
      unfold Compile. rewrite Hc. simpl. exact I.
    + exact Hthrows.
    + exact Hthrows.
Qed.

End CompileRegexSetFacts.

Section CompileRegexSetClaims.
Context {parser : RE2.Parser}.
Import RE2.


(** C6.  When some string of the list is not a valid pattern,
    [compileRegexSet] throws [std::invalid_argument]; the message names
    the first such string and carries RE2's diagnosis of it.  No set is
    returned. *)
Theorem compileRegexSet_invalid_pattern strings :
  (exists p, In p strings /\ exists status, parse folding_options p = inl status) ->
  exists pre str post status,
    strings = pre ++ str :: post /\
    Forall (fun p => exists re, parse folding_options p = inr re) pre /\
    parse folding_options str = inl status /\
    compileRegexSet strings
    = Throw (invalid_argument
               ("Failed to add regex: " +:+ str +:+ ". Error: " +:+ status)).
Proof.
  intros Hinv.
  destruct (first_invalid strings Hinv) as (pre & str & post & status & -> & Hpre & Hstr).
  exists pre, str, post, status. repeat split; auto.
  unfold compileRegexSet.
  rewrite bool_decide_false by (destruct pre; discriminate). simpl.
  rewrite (add_strings_Throw pre str post status); auto.
Qed.

End CompileRegexSetClaims.

(** ** Where the parser leaves case folding on *)

Section ParserFolds.
Import RE2.

Lemma perl_flags_fold ts : forall seen sawflag fold dotnl n fold' dotnl' opens n',
  flags_negated ts = false ->
  fold = true ->
  perl_flags seen ts false sawflag fold dotnl n = inr (fold', dotnl', opens, n') ->
  fold' = true.
Proof.
  induction ts as [| t ts IH];
    intros seen sawflag fold dotnl n fold' dotnl' opens n' Hneg Hfold Hflags.
  - discriminate.
  - destruct t as [c | c |]; [| discriminate ..].
    cbn [perl_flags] in Hflags.
    destruct (Ascii.eqb_spec c "i") as [-> | Hi].
    { simpl in Hneg. eapply IH; [exact Hneg | | exact Hflags]. reflexivity. }
    destruct (Ascii.eqb_spec c "s") as [-> | Hs].
    { simpl in Hneg. eapply IH; [exact Hneg | exact Hfold | exact Hflags]. }
    destruct (Ascii.eqb_spec c "U") as [-> | HU].
    { simpl in Hneg. eapply IH; [exact Hneg | exact Hfold | exact Hflags]. }
    destruct (Ascii.eqb_spec c "m") as [-> | Hm]; [discriminate |].
    destruct (Ascii.eqb_spec c "-") as [-> | Hminus]; [discriminate |].
    destruct (Ascii.eqb c ":" || Ascii.eqb c ")").
    + simpl in Hflags. injection Hflags as <- _ _ _. exact Hfold.
    + destruct (is_ascii c); discriminate.
Qed.

Lemma folds_concat_of rs : Forall folds rs -> folds (concat_of rs).
Proof.
  induction 1 as [| r rs Hr Hrs IH]; [reflexivity |].
  destruct rs as [| r' rs']; [exact Hr |].
  unfold folds in *. cbn [concat_of folds_case] in *. rewrite Hr. exact IH.
Qed.

Lemma folds_alternate_of rs : Forall folds rs -> folds (alternate_of rs).
Proof.
  induction 1 as [| r rs Hr Hrs IH]; [reflexivity |].
  destruct rs as [| r' rs']; [exact Hr |].
  unfold folds in *. cbn [alternate_of folds_case] in *. rewrite Hr. exact IH.
Qed.

Lemma Forall_folds_rev rs : Forall folds rs -> Forall folds (rev rs).
Proof.
  intros Hrs. apply List.Forall_forall. intros r Hin.
  apply List.in_rev in Hin. revert r Hin. apply List.Forall_forall. exact Hrs.
Qed.

Lemma folds_DoAlternation st : state_folds st -> folds (DoAlternation st).
Proof.
  intros (_ & Hcat & Halts & _). unfold DoAlternation.
  apply folds_alternate_of, Forall_folds_rev. constructor; [| exact Halts].
  apply folds_concat_of, Forall_folds_rev, Hcat.
Qed.

Lemma state_folds_push st r : state_folds st -> folds r -> state_folds (push st r).
Proof.
  intros (Hf & Hcat & Halts & Hstack) Hr. repeat split; simpl; auto.
Qed.

Lemma state_folds_DoLeftParen st : state_folds st -> state_folds (DoLeftParen st).
Proof.
  intros (Hf & Hcat & Halts & Hstack). repeat split; simpl; auto.
  constructor; [| exact Hstack]. repeat split; simpl; auto.
Qed.

Lemma state_folds_set_flags st dotnl :
  state_folds st -> state_folds (set_flags st true dotnl).
Proof.
  intros (Hf & Hcat & Halts & Hstack). repeat split; simpl; auto.
Qed.

Lemma state_folds_PushRepeatOp op opstr st st' :
  (forall r, folds_case (op r) = folds_case r) ->
  state_folds st ->
  PushRepeatOp op opstr st = inr st' ->
  state_folds st'.
Proof.
  intros Hop (Hf & Hcat & Halts & Hstack). unfold PushRepeatOp.
  destruct (negb _); [discriminate |].
  destruct (cat st) as [| r rs] eqn:E; [discriminate |].
  intros [= <-]. inversion Hcat; subst. repeat split; simpl; auto.
  constructor; [| assumption]. unfold folds. rewrite Hop. assumption.
Qed.

Lemma parse_class_folds ts r n : parse_class true ts = inr (r, n) -> folds r.
Proof.
  unfold parse_class. destruct ts as [| t ts']; [discriminate |].
  destruct (is_plain "^" t).
  - destruct (class_items _ ts' _ _ _ _) as [| [ranges k]]; [discriminate |].
    intros [= <- _]. reflexivity.
  - destruct (class_items _ (t :: ts') _ _ _ _) as [| [ranges k]]; [discriminate |].
    intros [= <- _]. reflexivity.
Qed.

Lemma state_folds_step whole t ts st st' k :
  groups_negate_flags (t :: ts) = false ->
  state_folds st ->
  step whole t ts st = inr (st', k) ->
  state_folds st'.
Proof.
  intros Hneg Hst.
  assert (Hrepeat : forall op c,
            (forall r, folds_case (op r) = folds_case r) ->
            match PushRepeatOp op (String c (if starts_with "?" ts then "?" else "")) st
            with
            | inl err => inl err
            | inr st0 => inr (st0, if starts_with "?" ts then 1 else 0)
            end = inr (st', k) ->
            state_folds st').
  { intros op c Hop. destruct (PushRepeatOp op _ st) as [| st0] eqn:E; [discriminate |].
    intros [= <- _]. eapply state_folds_PushRepeatOp; eauto. }
  pose proof Hst as (Hf & _).
  unfold step. destruct t as [c | c |]; [| | discriminate].
  - destruct (Ascii.eqb_spec c "(") as [-> | _].
    { destruct ts as [| t' flags].
      - intros [= <- _]. apply state_folds_DoLeftParen, Hst.
      - destruct (is_plain "?" t') eqn:Eq.
        + destruct (starts_with "P" flags || starts_with "<" flags); [discriminate |].
          destruct (perl_flags _ flags _ _ _ _ _) as [| [[[fold dotnl] opens] n]] eqn:E;
            [discriminate |].
          intros [= <- _].
          cbn [groups_negate_flags is_plain starts_with tl] in Hneg. simpl in Hneg.
          rewrite Eq in Hneg. simpl in Hneg.
          apply orb_false_iff in Hneg as [Hneg _].
          rewrite (perl_flags_fold _ _ _ _ _ _ _ _ _ _ Hneg Hf E).
          apply state_folds_set_flags.
          destruct opens; [apply state_folds_DoLeftParen |]; exact Hst.
        + intros [= <- _]. apply state_folds_DoLeftParen, Hst. }
    destruct (Ascii.eqb c "|").
    { intros [= <- _]. destruct Hst as (? & Hcat & Halts & Hstack).
      repeat split; simpl; auto. constructor; [| exact Halts].
      apply folds_concat_of, Forall_folds_rev, Hcat. }
    destruct (Ascii.eqb c ")").
    { unfold DoRightParen. destruct (stack st) as [| f stk] eqn:E; [discriminate |].
      intros [= <- _]. pose proof (folds_DoAlternation st Hst) as Halt.
      destruct Hst as (? & Hcat & Halts & Hstack). rewrite E in Hstack.
      inversion Hstack as [| ? ? (Hsf & Hsa & Hsc) Hstk]; subst.
      repeat split; simpl; auto. }
    destruct (Ascii.eqb c "^").
    { intros [= <- _]. apply state_folds_push; [exact Hst | reflexivity]. }
    destruct (Ascii.eqb c "$").
    { intros [= <- _]. apply state_folds_push; [exact Hst | reflexivity]. }
    destruct (Ascii.eqb c ".").
    { intros [= <- _]. apply state_folds_push; [exact Hst |].
      destruct (dot_nl st); [reflexivity | exact Hf]. }
    destruct (Ascii.eqb c "[").
    { rewrite Hf. destruct (parse_class true ts) as [| [r n]] eqn:E; [discriminate |].
      intros [= <- _]. apply state_folds_push; [exact Hst |].
      eapply parse_class_folds, E. }
    destruct (Ascii.eqb c "*"); [apply Hrepeat; reflexivity |].
    destruct (Ascii.eqb c "+"); [apply Hrepeat; reflexivity |].
    destruct (Ascii.eqb c "?"); [apply Hrepeat; reflexivity |].
    destruct (Ascii.eqb c "{" && maybe_repeat ts); [discriminate |].
    destruct (is_ascii c); [| discriminate].
    intros [= <- _]. apply state_folds_push; [exact Hst | exact Hf].
  - destruct (escape_of c); try discriminate;
      intros [= <- _]; apply state_folds_push; try exact Hst; try exact Hf;
      reflexivity.
Qed.

Lemma parse_loop_folds whole ts : forall skip st re,
  groups_negate_flags ts = false ->
  state_folds st ->
  parse_loop whole ts skip st = inr re ->
  folds re.
Proof.
  induction ts as [| t ts IH]; intros skip st re Hneg Hst; cbn [parse_loop].
  - unfold DoFinish. destruct (stack st); [| discriminate].
    intros [= <-]. apply folds_DoAlternation, Hst.
  - assert (Hneg' : groups_negate_flags ts = false).
    { cbn [groups_negate_flags] in Hneg. apply orb_false_iff in Hneg. tauto. }
    destruct skip as [| k]; [| apply IH; assumption].
    destruct (step whole t ts st) as [| [st' k]] eqn:E; [discriminate |].
    apply IH; [exact Hneg' |]. eapply state_folds_step; eauto.
Qed.

Lemma parse_pattern_folds pattern re :
  negates_flags pattern = false ->
  parse_pattern folding_options pattern = inr re ->
  folds_case re = true.
Proof.
  intros Hneg. apply parse_loop_folds; [exact Hneg |].
  repeat split; constructor.
Qed.

End ParserFolds.

(** ** Case folding in the sets of compileRegexSet *)

Section CaseInsensitivity.
Import RE2.

Lemma parsed_as_folds (parser : Parser) strings es :
  (forall p re, negates_flags p = false ->
                parse folding_options p = inr re -> folds_case re = true) ->
  Forall (fun p => negates_flags p = false) strings ->
  parsed_as strings es ->
  Forall (fun e => folds_case (snd e) = true) es.
Proof.
  intros Hparser Hneg Hes. revert Hneg.
  induction Hes as [| p e strings es [_ Hp] _ IH]; intros Hneg; constructor.
  - inversion Hneg; subst. eapply Hparser; eauto.
  - apply IH. inversion Hneg; assumption.
Qed.


End CaseInsensitivity.

(** ** Outcomes *)

Section OutcomeFacts.

Lemma bind_Ok_inv {A B} (m : outcome A) (k : A -> outcome B) b :
  m ≫= k = Ok b -> exists a, m = Ok a /\ k a = Ok b.
Proof. destruct m; simpl; intros Hk; try discriminate. eauto. Qed.

Lemma throw_if_Ok_inv cond e u : throw_if cond e = Ok u -> cond = false.
Proof. destruct cond; [discriminate | reflexivity]. Qed.

Lemma throw_if_false e : throw_if false e = Ok tt.
Proof. reflexivity. Qed.

Lemma bool_decide_is_Some {A} (o : option A) :
  bool_decide (is_Some o) = match o with Some _ => true | None => false end.
Proof.
  destruct o; [apply bool_decide_true; eauto |].
  apply bool_decide_false. intros [? ?]. discriminate.
Qed.

Lemma is_ok_bind_false {A B} (m : outcome A) (k : A -> outcome B) :
  is_ok m = false -> is_ok (m ≫= k) = false.
Proof. destruct m; simpl; auto. discriminate. Qed.

End OutcomeFacts.

(** Takes apart a hypothesis that says a sequence of calls returned. *)
Ltac invert_Ok H :=
  repeat match type of H with
         | _ ≫= _ = Ok _ =>
             let a := fresh "r" in
             let Ha := fresh "Hr" in
             apply bind_Ok_inv in H as (a & Ha & H)
         | (let '(_, _) := ?p in _) = Ok _ => destruct p
         end.

(** ** populateInternalDb, step by step *)

Section PopulateInternalDbFacts.
Context {ext : Externals}.

Lemma populateInternalDb_Ok_inv c c' :
  populateInternalDb c = Ok c' ->
  exists c1 c2 c3,
    populateAreaConfig c = Ok c1 /\
    (negb (PrefixForwardingType_named (OpenrConfig.prefix_forwarding_type (config_ c1)))
     || negb (PrefixForwardingAlgorithm_named
                (OpenrConfig.prefix_forwarding_algorithm (config_ c1))) = false) /\
    (OpenrConfig.prefix_forwarding_algorithm (config_ c1) = KSP2_ED_ECMP ->
     OpenrConfig.prefix_forwarding_type (config_ c1) = SR_MPLS) /\
    (forall ipTos, OpenrConfig.ip_tos (config_ c1) = Some ipTos ->
                   (0 <= ipTos < 256)%Z) /\
    isBgpPeeringEnabled c1 && isVipServiceEnabled c1 = false /\
    (isWatchdogEnabled c1 = true ->
     is_Some (OpenrConfig.watchdog_config (config_ c1))) /\
    (0 <= OpenrConfig.route_delete_delay_ms (config_ c1))%Z /\
    checkKvStoreConfig c1 = Ok tt /\
    checkDecisionConfig c1 = Ok tt /\
    checkSparkConfig c1 = Ok tt /\
    checkMonitorConfig c1 = Ok tt /\
    checkLinkMonitorConfig c1 = Ok tt /\
    checkSegmentRoutingConfig c1 = Ok tt /\
    (if isPrefixAllocationEnabled c1
     then size (areaConfigs_ c1) <= 1 /\ checkPrefixAllocationConfig c1 = Ok c2
     else c2 = c1) /\
    checkVipServiceConfig c2 = Ok tt /\
    checkBgpPeeringConfig c2 = Ok c3 /\
    (isSecureThriftServerEnabled c3 = true -> checkThriftServerConfig c3 = Ok tt) /\
    c' = (if bool_decide (is_Some (OpenrConfig.eor_time_s (config_ c3))) then c3
          else set_config_ c3
                 (OpenrConfig.set_eor_time_s (config_ c3)
                    (Some (3 * SparkConfig.keepalive_time_s (getSparkConfig c3))%Z))).
Proof.
  unfold populateInternalDb. intros Hok. invert_Ok Hok.
  repeat match goal with u : unit |- _ => destruct u end.
  injection Hok as <-.
  exists r, r12, r14. split; [assumption |].
  apply throw_if_Ok_inv in Hr0, Hr1, Hr3, Hr4, Hr5.
  repeat match goal with |- _ /\ _ => split end; try assumption.
  - intros Ha. rewrite Ha in Hr1.
    destruct (OpenrConfig.prefix_forwarding_type (config_ r)); [reflexivity | discriminate].
  - intros ipTos Ht. rewrite Ht in Hr2. apply throw_if_Ok_inv in Hr2. lia.
  - intros Hw. rewrite Hw in Hr4. simpl in Hr4.
    apply negb_false_iff, bool_decide_eq_true in Hr4. exact Hr4.
  - lia.
  - destruct (isPrefixAllocationEnabled r); [| congruence].
    invert_Ok Hr12.
    match goal with
    | Hx : throw_if (_ <? _)%nat _ = Ok _ |- _ =>
        apply throw_if_Ok_inv, Nat.ltb_ge in Hx
    end.
    split; assumption.
  - intros Hs. rewrite Hs in Hr15. exact Hr15.
  - reflexivity.
Qed.

(** A configuration that one of the checks refuses is not accepted. *)
Lemma populateInternalDb_not_ok c :
  (forall c1, populateAreaConfig c = Ok c1 -> is_ok (checkKvStoreConfig c1) = false) ->
  is_ok (populateInternalDb c) = false.
Proof.
  intros Hk. destruct (populateInternalDb c) as [c' | |] eqn:E; try reflexivity.
  apply populateInternalDb_Ok_inv in E as (c1 & c2 & c3 & Hc1 & E).
  apply Hk in Hc1. destruct E as (_ & _ & _ & _ & _ & _ & Hkv & _).
  rewrite Hkv in Hc1. discriminate.
Qed.

End PopulateInternalDbFacts.

(** ** populateAreaConfig *)

Section PopulateAreaConfigFacts.
Context {ext : Externals}.

Local Abbreviation ids areas := (map AreaConfig.area_id areas).

Lemma normalize_area_id a : AreaConfig.area_id (normalize_area a) = AreaConfig.area_id a.
Proof. unfold normalize_area. destruct (AreaConfig.neighbor_regexes a); reflexivity. Qed.

Lemma normalize_area_ids areas : ids (map normalize_area areas) = ids areas.
Proof.
  induction areas as [| a areas IH]; simpl; [reflexivity |].
  rewrite normalize_area_id, IH. reflexivity.
Qed.

Lemma normalize_area_neighbor_regexes a :
  AreaConfig.neighbor_regexes (normalize_area a) <> [].
Proof.
  unfold normalize_area.
  destruct (AreaConfig.neighbor_regexes a) eqn:E; simpl; [discriminate |].
  rewrite E. discriminate.
Qed.

Lemma normalize_area_all areas :
  Forall (fun a => AreaConfig.neighbor_regexes a <> []) (map normalize_area areas).
Proof.
  induction areas; simpl; constructor; auto using normalize_area_neighbor_regexes.
Qed.

Lemma normalize_area_decide a :
  (if bool_decide (AreaConfig.neighbor_regexes a = [])
   then AreaConfig.set_neighbor_regexes a [".*"] else a) = normalize_area a.
Proof.
  unfold normalize_area. destruct (AreaConfig.neighbor_regexes a); reflexivity.
Qed.

Lemma effective_areas_decide (config : OpenrConfig.t) :
  OpenrConfig.areas
    (if bool_decide (OpenrConfig.areas config = [])
     then OpenrConfig.set_areas config
            [AreaConfig.set_area_id AreaConfig.default kDefaultArea]
     else config)
  = effective_areas config.
Proof.
  unfold effective_areas. destruct (OpenrConfig.areas config) eqn:E; simpl; auto.
Qed.

Lemma populateAreaConfig_area_Ok pp a m a' m' :
  populateAreaConfig_area pp a m = Ok (a', m') ->
  a' = normalize_area a /\ area_passes pp a' /\
  m !! AreaConfig.area_id a' = None /\
  exists ac, AreaConfiguration_of a' = Ok ac /\ m' = <[AreaConfig.area_id a' := ac]> m.
Proof.
  unfold populateAreaConfig_area. rewrite normalize_area_decide.
  set (n := normalize_area a). intros Hok. invert_Ok Hok.
  repeat match goal with u : unit |- _ => destruct u end.
  injection Hok as <- <-.
  match goal with
  | Hx : throw_if (bool_decide _) _ = Ok _ |- _ =>
      apply throw_if_Ok_inv, bool_decide_eq_false in Hx; rename Hx into Hfresh
  end.
  split; [reflexivity |]. split; [| split].
  - unfold area_passes. repeat match goal with |- _ /\ _ => split end; try assumption.
    + intros name Hn. rewrite Hn in Hr. eapply throw_if_Ok_inv; eauto.
    + rewrite Hr0. reflexivity.
  - destruct (m !! AreaConfig.area_id n) eqn:E; [| reflexivity].
    exfalso. apply Hfresh. eauto.
  - eauto.
Qed.

Lemma populateAreaConfig_loop_Ok pp areas : forall m areas' m',
  populateAreaConfig_loop pp areas m = Ok (areas', m') ->
  areas' = map normalize_area areas /\
  Forall (area_passes pp) areas' /\
  Forall (area_registered m') areas' /\
  NoDup (ids areas) /\
  (forall k, k ∈ ids areas -> m !! k = None) /\
  dom m' = dom m ∪ list_to_set (ids areas) /\
  (forall k, k ∉ ids areas -> m' !! k = m !! k).
Proof.
  induction areas as [| a areas IH]; simpl; intros m areas' m' Hok.
  - injection Hok as <- <-.
    repeat match goal with |- _ /\ _ => split end; auto using NoDup_nil_2.
    + intros k Hk. inversion Hk.
    + set_solver.
  - invert_Ok Hok. injection Hok as <- <-.
    apply populateAreaConfig_area_Ok in Hr as (-> & Hpass & Hfresh & ac & Hac & ->).
    apply IH in Hr0 as (-> & Hpasses & Hregs & Hnd & Hfree & Hdom & Hout).
    rewrite normalize_area_id in *.
    assert (Hnotin : AreaConfig.area_id a ∉ ids areas).
    { intros Hin. apply Hfree in Hin. rewrite lookup_insert_eq in Hin. discriminate. }
    repeat match goal with |- _ /\ _ => split end.
    + reflexivity.
    + constructor; assumption.
    + constructor; [| assumption].
      exists ac. split; [assumption |].
      rewrite normalize_area_id. rewrite Hout by assumption.
      apply lookup_insert_eq.
    + constructor; assumption.
    + intros k Hk. apply elem_of_cons in Hk as [-> | Hk]; [assumption |].
      specialize (Hfree k Hk).
      destruct (decide (AreaConfig.area_id a = k)) as [Heq | Hne];
        [subst k; contradiction |].
      rewrite lookup_insert_ne in Hfree; assumption.
    + rewrite Hdom, dom_insert_L. set_solver.
    + intros k Hk. apply not_elem_of_cons in Hk as [Hne Hk].
      rewrite (Hout k Hk). apply lookup_insert_ne. congruence.
Qed.

Lemma populateAreaConfig_Ok c c' :
  populateAreaConfig c = Ok c' ->
  let areas := effective_areas (config_ c) in
  config_ c' = OpenrConfig.set_areas (config_ c) (map normalize_area areas) /\
  prefixAllocationParams_ c' = prefixAllocationParams_ c /\
  Forall (area_passes (propagationPolicy_of c)) (map normalize_area areas) /\
  Forall (area_registered (areaConfigs_ c')) (map normalize_area areas) /\
  NoDup (ids areas) /\
  (forall k, k ∈ ids areas -> areaConfigs_ c !! k = None) /\
  dom (areaConfigs_ c') = dom (areaConfigs_ c) ∪ list_to_set (ids areas) /\
  (forall k, k ∉ ids areas -> areaConfigs_ c' !! k = areaConfigs_ c !! k).
Proof.
  unfold populateAreaConfig. intros Hok. invert_Ok Hok.
  injection Hok as <-.
  assert (Hareas :
    OpenrConfig.areas
      (config_ (if bool_decide (OpenrConfig.areas (config_ c) = [])
                then set_config_ c
                       (OpenrConfig.set_areas (config_ c)
                          [AreaConfig.set_area_id AreaConfig.default kDefaultArea])
                else c))
    = effective_areas (config_ c)).
  { rewrite <- effective_areas_decide.
    destruct (bool_decide (OpenrConfig.areas (config_ c) = [])); reflexivity. }
  rewrite Hareas in Hr.
  assert (Hpp :
    propagationPolicy_of
      (if bool_decide (OpenrConfig.areas (config_ c) = [])
       then set_config_ c
              (OpenrConfig.set_areas (config_ c)
                 [AreaConfig.set_area_id AreaConfig.default kDefaultArea])
       else c)
    = propagationPolicy_of c).
  { destruct (bool_decide (OpenrConfig.areas (config_ c) = [])); reflexivity. }
  rewrite Hpp in Hr.
  assert (Hm :
    areaConfigs_
      (if bool_decide (OpenrConfig.areas (config_ c) = [])
       then set_config_ c
              (OpenrConfig.set_areas (config_ c)
                 [AreaConfig.set_area_id AreaConfig.default kDefaultArea])
       else c)
    = areaConfigs_ c).
  { destruct (bool_decide (OpenrConfig.areas (config_ c) = [])); reflexivity. }
  rewrite Hm in Hr.
  apply populateAreaConfig_loop_Ok in Hr as (-> & Hpass & Hreg & Hnd & Hfree & Hdom & Hout).
  simpl. repeat match goal with |- _ /\ _ => split end; try assumption.
  - destruct (bool_decide (OpenrConfig.areas (config_ c) = [])); reflexivity.
  - destruct (bool_decide (OpenrConfig.areas (config_ c) = [])); reflexivity.
Qed.

End PopulateAreaConfigFacts.

Section PopulateAreaConfigOutcomes.
Context {ext : Externals}.

Local Abbreviation ids areas := (map AreaConfig.area_id areas).

Lemma populateAreaConfig_loop_app pp pre : forall rest m,
  populateAreaConfig_loop pp (pre ++ rest) m
  = '(pre', m1) ← populateAreaConfig_loop pp pre m;
    '(rest', m2) ← populateAreaConfig_loop pp rest m1;
    Ok (pre' ++ rest', m2).
Proof.
  induction pre as [| a pre IH]; intros rest m; simpl.
  - destruct (populateAreaConfig_loop pp rest m) as [[rest' m2] | |]; reflexivity.
  - destruct (populateAreaConfig_area pp a m) as [[a' m1] | |]; simpl; try reflexivity.
    rewrite IH.
    destruct (populateAreaConfig_loop pp pre m1) as [[pre' m2] | |]; simpl;
      try reflexivity.
    destruct (populateAreaConfig_loop pp rest m2) as [[rest' m3] | |]; reflexivity.
Qed.

(** Distinct, unused ids and areas that pass their own checks: the loop
    returns. *)
Lemma populateAreaConfig_area_succeeds pp a m :
  area_passes pp (normalize_area a) ->
  m !! AreaConfig.area_id a = None ->
  exists ac, AreaConfiguration_of (normalize_area a) = Ok ac /\
    populateAreaConfig_area pp a m
    = Ok (normalize_area a, <[AreaConfig.area_id a := ac]> m).
Proof.
  intros (Hpol & Hctor & Hnode & Hadj & Hpre) Hfree.
  unfold populateAreaConfig_area. rewrite normalize_area_decide.
  destruct (AreaConfiguration_of (normalize_area a)) as [ac | |] eqn:Hac;
    try discriminate.
  exists ac. split; [reflexivity |].
  assert (Hp : match AreaConfig.import_policy_name (normalize_area a) with
               | Some importPolicyName =>
                   throw_if (policy_undefined pp importPolicyName)
                     (invalid_argument
                        ("No area policy definition found for " +:+ importPolicyName))
               | None => Ok tt
               end = Ok tt).
  { destruct (AreaConfig.import_policy_name (normalize_area a)) as [name |];
      [| reflexivity].
    rewrite (Hpol name eq_refl). reflexivity. }
  rewrite Hp. simpl. rewrite normalize_area_id, Hfree.
  rewrite bool_decide_false by (intros [? ?]; discriminate). simpl.
  rewrite Hnode, Hadj, Hpre. reflexivity.
Qed.

Lemma populateAreaConfig_loop_succeeds pp areas : forall m,
  NoDup (ids areas) ->
  (forall k, k ∈ ids areas -> m !! k = None) ->
  Forall (area_passes pp) (map normalize_area areas) ->
  exists m', populateAreaConfig_loop pp areas m = Ok (map normalize_area areas, m').
Proof.
  induction areas as [| a areas IH]; simpl; intros m Hnd Hfree Hpass.
  - eauto.
  - apply NoDup_cons in Hnd as [Hnotin Hnd]. apply Forall_cons in Hpass as [Hp Hpass].
    destruct (populateAreaConfig_area_succeeds pp a m Hp) as (ac & Hac & ->).
    { apply Hfree. left. }
    simpl.
    destruct (IH (<[AreaConfig.area_id a := ac]> m) Hnd) as (m' & ->); auto.
    + intros k Hk. rewrite lookup_insert_ne; [apply Hfree; right; assumption |].
      intros <-. contradiction.
    + simpl. eauto.
Qed.

(** A repeated id, or one that is in the map already: the loop does not
    return. *)
Lemma populateAreaConfig_loop_duplicate pp areas m :
  ~ NoDup (ids areas) -> is_ok (populateAreaConfig_loop pp areas m) = false.
Proof.
  intros Hdup.
  destruct (populateAreaConfig_loop pp areas m) as [[areas' m'] | |] eqn:E;
    try reflexivity.
  apply populateAreaConfig_loop_Ok in E as (_ & _ & _ & Hnd & _). contradiction.
Qed.

(** The first repeated id is reported as a duplicate when the areas before
    it pass and the area passes the steps that come before the insertion. *)
Lemma populateAreaConfig_loop_first_duplicate pp pre a post m :
  is_ok (populateAreaConfig_loop pp pre m) = true ->
  AreaConfig.area_id a ∈ ids pre ->
  (forall name, AreaConfig.import_policy_name a = Some name ->
                policy_undefined pp name = false) ->
  is_ok (AreaConfiguration_of (normalize_area a)) = true ->
  populateAreaConfig_loop pp (pre ++ a :: post) m
  = Throw (invalid_argument ("Duplicate area config id: " +:+ AreaConfig.area_id a)).
Proof.
  intros Hpre Hin Hpol Hctor. rewrite populateAreaConfig_loop_app.
  destruct (populateAreaConfig_loop pp pre m) as [[pre' m1] | |] eqn:E;
    try discriminate.
  apply populateAreaConfig_loop_Ok in E as (_ & _ & _ & _ & _ & Hdom & _).
  assert (Hsome : is_Some (m1 !! AreaConfig.area_id a)).
  { apply elem_of_dom. rewrite Hdom. apply elem_of_union_r, elem_of_list_to_set, Hin. }
  simpl. unfold populateAreaConfig_area. rewrite normalize_area_decide.
  assert (Hp : match AreaConfig.import_policy_name (normalize_area a) with
               | Some importPolicyName =>
                   throw_if (policy_undefined pp importPolicyName)
                     (invalid_argument
                        ("No area policy definition found for " +:+ importPolicyName))
               | None => Ok tt
               end = Ok tt).
  { assert (Hn : AreaConfig.import_policy_name (normalize_area a)
                 = AreaConfig.import_policy_name a).
    { unfold normalize_area. destruct (AreaConfig.neighbor_regexes a); reflexivity. }
    rewrite Hn. destruct (AreaConfig.import_policy_name a) as [name |]; [| reflexivity].
    rewrite (Hpol name eq_refl). reflexivity. }
  rewrite Hp. simpl.
  destruct (AreaConfiguration_of (normalize_area a)) as [ac | |]; try discriminate.
  simpl. rewrite normalize_area_id, bool_decide_true by assumption. reflexivity.
Qed.

End PopulateAreaConfigOutcomes.

Section InvalidArgumentOnly.
Context {ext : Externals}.

Lemma throws_only_invalid_argument_bind {A B} (m : outcome A) (k : A -> outcome B) :
  throws_only_invalid_argument m ->
  (forall a, throws_only_invalid_argument (k a)) ->
  throws_only_invalid_argument (m ≫= k).
Proof. destruct m as [a | [] |]; simpl; auto; contradiction. Qed.

Ltac by_cases :=
  repeat match goal with
         | |- context [match ?x with _ => _ end] => destruct x
         end; simpl; auto.

Lemma throws_only_invalid_argument_throw_if cond what :
  throws_only_invalid_argument (throw_if cond (invalid_argument what)).
Proof. destruct cond; simpl; auto. Qed.

Lemma checkNodeSegmentLabelConfig_throws a :
  throws_only_invalid_argument (checkNodeSegmentLabelConfig a).
Proof. unfold checkNodeSegmentLabelConfig, throw_if. by_cases. Qed.

Lemma checkAdjacencyLabelConfig_throws a :
  throws_only_invalid_argument (checkAdjacencyLabelConfig a).
Proof. unfold checkAdjacencyLabelConfig, throw_if. by_cases. Qed.

Lemma checkPrependLabelConfig_throws a :
  throws_only_invalid_argument (checkPrependLabelConfig a).
Proof.
  unfold checkPrependLabelConfig.
  destruct (AreaConfig.prepend_label_ranges a); simpl; auto.
  apply throws_only_invalid_argument_bind; intros;
    apply throws_only_invalid_argument_throw_if.
Qed.

Lemma populateAreaConfig_area_throws pp a m :
  throws_only_invalid_argument (AreaConfiguration_of (normalize_area a)) ->
  throws_only_invalid_argument (populateAreaConfig_area pp a m).
Proof.
  intros Hctor. unfold populateAreaConfig_area. rewrite normalize_area_decide.
  apply throws_only_invalid_argument_bind.
  { destruct (AreaConfig.import_policy_name (normalize_area a)); simpl; auto.
    apply throws_only_invalid_argument_throw_if. }
  intros _. apply throws_only_invalid_argument_bind; [assumption |].
  intros ac. apply throws_only_invalid_argument_bind;
    [apply throws_only_invalid_argument_throw_if |].
  intros _. apply throws_only_invalid_argument_bind;
    [apply checkNodeSegmentLabelConfig_throws |].
  intros _. apply throws_only_invalid_argument_bind;
    [apply checkAdjacencyLabelConfig_throws |].
  intros _. apply throws_only_invalid_argument_bind;
    [apply checkPrependLabelConfig_throws |].
  intros _. exact I.
Qed.

Lemma populateAreaConfig_loop_throws pp areas : forall m,
  (forall a, throws_only_invalid_argument (AreaConfiguration_of a)) ->
  throws_only_invalid_argument (populateAreaConfig_loop pp areas m).
Proof.
  induction areas as [| a areas IH]; intros m Hctor; simpl; [exact I |].
  apply throws_only_invalid_argument_bind.
  { apply populateAreaConfig_area_throws, Hctor. }
  intros [a' m1]. apply throws_only_invalid_argument_bind; [apply IH, Hctor |].
  intros [rest m2]. exact I.
Qed.

Lemma populateAreaConfig_throws c :
  (forall a, throws_only_invalid_argument (AreaConfiguration_of a)) ->
  throws_only_invalid_argument (populateAreaConfig c).
Proof.
  intros Hctor. unfold populateAreaConfig.
  apply throws_only_invalid_argument_bind;
    [apply populateAreaConfig_loop_throws, Hctor |].
  intros [areas m]. exact I.
Qed.

Lemma not_ok_invalid_argument {A} (m : outcome A) :
  throws_only_invalid_argument m -> is_ok m = false ->
  exists what, m = Throw (invalid_argument what).
Proof. destruct m as [a | [] |]; simpl; try discriminate; try contradiction; eauto. Qed.

End InvalidArgumentOnly.

(** ** checkKvStoreConfig *)

Section KvStoreConfigClaims.
Context {ext : Externals}.

Lemma checkKvStoreConfig_populateAreaConfig c c1 :
  populateAreaConfig c = Ok c1 -> checkKvStoreConfig c1 = checkKvStoreConfig c.
Proof.
  intros Hok. apply populateAreaConfig_Ok in Hok as (Hcfg & _).
  unfold checkKvStoreConfig. rewrite Hcfg. reflexivity.
Qed.

Lemma checkKvStoreConfig_rejected c :
  is_ok (checkKvStoreConfig c) = false -> is_ok (populateInternalDb c) = false.
Proof.
  intros Hk. apply populateInternalDb_not_ok. intros c1 Hc1.
  rewrite (checkKvStoreConfig_populateAreaConfig c c1 Hc1). exact Hk.
Qed.

(** C4.  When the flood rate of the KvStore is set and [flood_msg_per_sec]
    or [flood_msg_burst_size] is not positive, [checkKvStoreConfig] throws
    [std::out_of_range] and the configuration is not accepted.  When the
    flood rate is unset, or both numbers are positive, the check of the
    flood rate throws nothing: what [checkKvStoreConfig] does is the check
    of the TTL that follows. *)
Theorem checkKvStoreConfig_flood_rate c :
  let kvStoreConf := OpenrConfig.kvstore_config (config_ c) in
  (forall floodRate,
     KvstoreConfig.flood_rate kvStoreConf = Some floodRate ->
     (KvstoreFloodRate.flood_msg_per_sec floodRate <= 0
      \/ KvstoreFloodRate.flood_msg_burst_size floodRate <= 0)%Z ->
     (exists what,
        checkKvStoreConfig c = Throw (out_of_range what) /\
        (what = "kvstore flood_msg_per_sec should be > 0"
         \/ what = "kvstore flood_msg_burst_size should be > 0")) /\
     is_ok (populateInternalDb c) = false) /\
  ((KvstoreConfig.flood_rate kvStoreConf = None
    \/ exists floodRate,
         KvstoreConfig.flood_rate kvStoreConf = Some floodRate /\
         (0 < KvstoreFloodRate.flood_msg_per_sec floodRate)%Z /\
         (0 < KvstoreFloodRate.flood_msg_burst_size floodRate)%Z) ->
   checkKvStoreConfig c
   = throw_if (KvstoreConfig.key_ttl_ms kvStoreConf =? kTtlInfinity)%Z
       (out_of_range "kvstore key_ttl_ms should be a finite number")).
Proof.
  intros kvStoreConf. split.
  - intros floodRate Hrate Hbad.
    assert (Hthrow : exists what,
      checkKvStoreConfig c = Throw (out_of_range what) /\
      (what = "kvstore flood_msg_per_sec should be > 0"
       \/ what = "kvstore flood_msg_burst_size should be > 0")).
    { unfold checkKvStoreConfig. fold kvStoreConf. rewrite Hrate.
      destruct (Z.leb_spec (KvstoreFloodRate.flood_msg_per_sec floodRate) 0);
        simpl; [eauto |].
      destruct (Z.leb_spec (KvstoreFloodRate.flood_msg_burst_size floodRate) 0);
        simpl; [eauto | lia]. }
    split; [exact Hthrow |].
    apply checkKvStoreConfig_rejected.
    destruct Hthrow as (what & -> & _). reflexivity.
  - intros Hgood. unfold checkKvStoreConfig. fold kvStoreConf.
    destruct Hgood as [-> | (floodRate & -> & Hsec & Hburst)]; [reflexivity |].
    destruct (Z.leb_spec (KvstoreFloodRate.flood_msg_per_sec floodRate) 0); [lia |].
    destruct (Z.leb_spec (KvstoreFloodRate.flood_msg_burst_size floodRate) 0); [lia |].
    reflexivity.
Qed.

(** C5.  When the default TTL of keys, [key_ttl_ms], is the sentinel of an
    infinite TTL, [checkKvStoreConfig] throws [std::out_of_range] and the
    configuration is not accepted. *)
Theorem checkKvStoreConfig_infinite_ttl c :
  KvstoreConfig.key_ttl_ms (OpenrConfig.kvstore_config (config_ c)) = kTtlInfinity ->
  (exists what, checkKvStoreConfig c = Throw (out_of_range what)) /\
  is_ok (populateInternalDb c) = false.
Proof.
  intros Httl.
  assert (Hthrow : exists what, checkKvStoreConfig c = Throw (out_of_range what)).
  { unfold checkKvStoreConfig. rewrite Httl, Z.eqb_refl.
    destruct (KvstoreConfig.flood_rate _) as [floodRate |]; simpl; [| eauto].
    destruct (KvstoreFloodRate.flood_msg_per_sec floodRate <=? 0)%Z; simpl; [eauto |].
    destruct (KvstoreFloodRate.flood_msg_burst_size floodRate <=? 0)%Z; simpl; eauto. }
  split; [exact Hthrow |].
  apply checkKvStoreConfig_rejected. destruct Hthrow as (what & ->). reflexivity.
Qed.

End KvStoreConfigClaims.

(** C4 at work: a burst size of zero is refused, the rate of the example
    configuration is accepted. *)
Lemma checkKvStoreConfig_flood_rate_witness :
  let c (rate : KvstoreFloodRate.t) :=
    @Config_new example_externals
      (example_openr_config [] (example_kvstore 300000 (Some rate))) in
  (exists what,
     @checkKvStoreConfig example_externals
       (c {| KvstoreFloodRate.flood_msg_per_sec := 1024;
             KvstoreFloodRate.flood_msg_burst_size := 0 |})
     = Throw (out_of_range what)) /\
  @checkKvStoreConfig example_externals
    (c {| KvstoreFloodRate.flood_msg_per_sec := 1024;
          KvstoreFloodRate.flood_msg_burst_size := 128 |})
  = Ok tt.
Proof.
  intros c. split.
  - destruct (@checkKvStoreConfig_flood_rate example_externals
                (c {| KvstoreFloodRate.flood_msg_per_sec := 1024;
                      KvstoreFloodRate.flood_msg_burst_size := 0 |})) as [Hbad _].
    destruct (Hbad _ eq_refl) as [(what & Hwhat & _) _]; [right; simpl; lia |].
    exists what. exact Hwhat.
  - destruct (@checkKvStoreConfig_flood_rate example_externals
                (c {| KvstoreFloodRate.flood_msg_per_sec := 1024;
                      KvstoreFloodRate.flood_msg_burst_size := 128 |})) as [_ Hgood].
    rewrite Hgood; [reflexivity |].
    right. eexists. split; [reflexivity |]. simpl. lia.
Defined.

(** C5 at work: the sentinel as the default TTL is refused. *)
Lemma checkKvStoreConfig_infinite_ttl_witness :
  is_ok (@populateInternalDb example_externals
           (Config_new (example_openr_config [] (example_kvstore (-2147483648) None))))
  = false.
Proof.
  apply (@checkKvStoreConfig_infinite_ttl example_externals). reflexivity.
Defined.

(** ** compileRegexSet on the patterns of the scenarios *)

Section Scenarios.
Import RE2.


(** C6 at work: an unclosed group among valid patterns. *)
Lemma compileRegexSet_invalid_pattern_witness :
  exists str status,
    parse_pattern folding_options str = inl status /\
    @compileRegexSet parse_pattern ["adj:.*"; "(prefix"; "key3"]
    = Throw (invalid_argument
               ("Failed to add regex: " +:+ str +:+ ". Error: " +:+ status)).
Proof.
  destruct (@compileRegexSet_invalid_pattern parse_pattern ["adj:.*"; "(prefix"; "key3"])
    as (pre & str & post & status & _ & _ & Hstr & Hthrow).
  - exists "(prefix". split; [simpl; auto |]. eexists. reflexivity.
  - exists str, status. split; assumption.
Defined.



Example compileRegexSet_unclosed_group :
  @compileRegexSet parse_pattern ["adj:.*"; "(prefix"; "key3"]
  = Throw (invalid_argument "Failed to add regex: (prefix. Error: missing ): (prefix").
Proof. reflexivity. Qed.

Lemma unmatchable_never_matches fold bot w eot :
  ~ Matches (Concat (Literal fold "a") BeginText) bot w eot.
Proof.
  intros Hm.
  inversion Hm as [| | | | | | ? ? w1 w2 ? ? H1 H2 | | | | | | |]; subst.
  inversion H1; subst. simpl in H2. rewrite andb_false_r in H2. inversion H2.
Qed.

(** The set that [compileRegexSet] builds from an empty list of pattern
    strings holds the one pattern [a^], which nothing matches: the set of
    an area matches no text at all. *)
Lemma compileRegexSet_empty_unmatchable :
  exists set,
    @compileRegexSet parse_pattern [] = Ok set /\
    elem set = [("a^", Concat (Literal true "a") BeginText)] /\
    forall text, Match set text = false.
Proof.
  eexists. split; [reflexivity |]. split; [reflexivity |].
  intros text. unfold Match, regex_match. simpl.
  rewrite orb_false_r. apply not_true_is_false. intros Hrun.
  apply run_Matches in Hrun. exact (unmatchable_never_matches _ _ _ _ Hrun).
Qed.

(** The set that [compileRegexSet] builds from [key3] is anchored at both
    ends: the set of an area matches the name [key3] and neither [key33]
    nor [key333]. *)
Example compileRegexSet_key3 :
  exists set,
    @compileRegexSet parse_pattern ["key3"] = Ok set /\
    Match set "key3" = true /\
    Match set "key33" = false /\
    Match set "key333" = false.
Proof. eexists. split; [reflexivity |]. repeat split; reflexivity. Qed.

Lemma dot_matches x :
  x <> ascii_of_N 10 -> class_match true true [(ch 10, ch 10)] x = true.
Proof.
  intros Hx. destruct x as [[] [] [] [] [] [] [] []]; vm_compute; try reflexivity.
  exfalso. apply Hx. reflexivity.
Qed.

Lemma dot_star_matches s : forall bot,
  ~ In (ascii_of_N 10) s ->
  Matches (Star (CharClass true true [(ch 10, ch 10)])) bot s true.
Proof.
  induction s as [| x s IH]; intros bot Hs.
  - apply MStarNil.
  - apply (MStarApp _ [x] s).
    + apply MCharClass, dot_matches. intros ->. apply Hs. left. reflexivity.
    + apply IH. intros Hin. apply Hs. right. exact Hin.
Qed.

(** The set of the one pattern [.*] matches every text that has no line
    feed in it. *)
Lemma compileRegexSet_dot_star :
  exists set,
    @compileRegexSet parse_pattern [".*"] = Ok set /\
    forall text, no_line_feed text -> Match set text = true.
Proof.
  eexists. split; [reflexivity |].
  intros text Hnl. unfold Match, regex_match. simpl. rewrite orb_false_r.
  apply run_Matches, dot_star_matches, Hnl.
Qed.

End Scenarios.

(** ** The filter of a subscription *)

Section KeyFilterClaims.
Import RE2.

Lemma Matches_Literal_inv c bot w eot :
  Matches (Literal false c) bot w eot -> w = [c].
Proof.
  intros Hm. inversion Hm as [| ? ? x ? ? Hc | | | | | | | | | | | |]; subst.
  simpl in Hc. apply Ascii.eqb_eq in Hc. subst. reflexivity.
Qed.

Lemma Matches_Concat_inv r1 r2 bot w eot :
  Matches (Concat r1 r2) bot w eot ->
  exists w1 w2,
    w = w1 ++ w2 /\ Matches r1 bot w1 (eot && isnil w2) /\
    Matches r2 (bot && isnil w1) w2 eot.
Proof.
  intros Hm. inversion Hm as [| | | | | | ? ? w1 w2 ? ? H1 H2 | | | | | | |]; subst.
  eauto.
Qed.

(** What matches the pattern of the scenario: its four characters. *)
Lemma scenario_pattern_Matches bot w eot :
  Matches scenario_pattern bot w eot <-> w = list_ascii_of_string "key3".
Proof.
  unfold scenario_pattern. split.
  - intros Hm.
    apply Matches_Concat_inv in Hm as (w1 & w' & -> & H1 & Hm).
    apply Matches_Concat_inv in Hm as (w2 & w'' & -> & H2 & Hm).
    apply Matches_Concat_inv in Hm as (w3 & w4 & -> & H3 & H4).
    apply Matches_Literal_inv in H1, H2, H3, H4. subst. reflexivity.
  - intros ->.
    apply (MConcat _ _ ["k"%char] (list_ascii_of_string "ey3"));
      [constructor; reflexivity |].
    apply (MConcat _ _ ["e"%char] (list_ascii_of_string "y3"));
      [constructor; reflexivity |].
    apply (MConcat _ _ ["y"%char] ["3"%char]); constructor; reflexivity.
Qed.

(** The keys that begin with [key3]. *)
Lemma scenario_pattern_prefix k :
  regex_match ANCHOR_START scenario_pattern k = true <->
  exists rest, k = "key3" +:+ rest.
Proof.
  unfold regex_match. rewrite run_prefix_Matches. split.
  - intros (w1 & w2 & Hk & Hm). apply scenario_pattern_Matches in Hm. subst w1.
    exists (string_of_list_ascii w2).
    rewrite <- (string_of_list_ascii_of_string k), Hk. reflexivity.
  - intros (rest & ->).
    exists (list_ascii_of_string "key3"), (list_ascii_of_string rest).
    split; [reflexivity |]. apply scenario_pattern_Matches. reflexivity.
Qed.


(** C2.  RE2 reads the pattern [key3] as its four characters.  The filter
    of the scenario then matches exactly the keys that begin with [key3],
    [key33] and [key333] among them and [key2] not, and exactly the entries
    with such a key whose originator is [node3] or [node33]: it matches
    the three entries of the store. *)
Theorem scenario_filter_matches_store (parser : Parser) :
  parse default_options "key3" = inr scenario_pattern ->
  (forall k, keyMatch scenario_filter k = true <-> exists rest, k = "key3" +:+ rest) /\
  (forall e,
     filterMatch scenario_filter e = true <->
     (exists rest, key e = "key3" +:+ rest) /\
     (originatorId e = "node3" \/ originatorId e = "node33")) /\
  keyMatch scenario_filter "key33" = true /\
  keyMatch scenario_filter "key333" = true /\
  keyMatch scenario_filter "key2" = false /\
  filter (fun e => filterMatch scenario_filter e = true) scenario_store
  = scenario_store.
Proof.
  intros Hparse.
  assert (Hkey : forall k,
             keyMatch scenario_filter k
             = regex_match ANCHOR_START scenario_pattern k).
  { intros k. unfold keyMatch. simpl. rewrite Hparse. apply orb_false_r. }
  assert (Hprefix : forall k,
             keyMatch scenario_filter k = true <-> exists rest, k = "key3" +:+ rest).
  { intros k. rewrite Hkey. apply scenario_pattern_prefix. }
  assert (Hfilter : forall e,
             filterMatch scenario_filter e = true <->
             (exists rest, key e = "key3" +:+ rest) /\
             (originatorId e = "node3" \/ originatorId e = "node33")).
  { intros e. unfold filterMatch, originatorMatch.
    change (combinator scenario_filter) with AND.
    change (originatorIds scenario_filter) with ["node3"; "node33"].
    cbv beta iota.
    rewrite andb_true_iff, Hprefix, bool_decide_eq_true, !elem_of_cons, elem_of_nil.
    tauto. }
  split; [exact Hprefix |]. split; [exact Hfilter |].
  split; [| split; [| split]].
  - rewrite Hkey. reflexivity.
  - rewrite Hkey. reflexivity.
  - rewrite Hkey. reflexivity.
  - unfold scenario_store.
    rewrite !filter_cons_True, filter_nil; [reflexivity | ..];
      apply Hfilter; simpl; split; eauto.
Qed.

(** C2 at work, with the parser of the common syntax. *)
Lemma scenario_filter_matches_store_witness :
  filter (fun e => @filterMatch parse_pattern scenario_filter e = true) scenario_store
  = scenario_store /\
  @keyMatch parse_pattern scenario_filter "key33" = true.
Proof.
  destruct (scenario_filter_matches_store parse_pattern eq_refl)
    as (_ & _ & Hkey33 & _ & _ & Hstore).
  split; [exact Hstore | exact Hkey33].
Defined.

End KeyFilterClaims.

(** ** populateAreaConfig: defaults and area ids *)

Section PopulateAreaConfigClaims.
Context {ext : Externals}.

Local Abbreviation ids areas := (map AreaConfig.area_id areas).

Lemma populateAreaConfig_unfold c :
  populateAreaConfig c
  = '(areas, areaConfigs) ←
      populateAreaConfig_loop (propagationPolicy_of c)
        (effective_areas (config_ c)) (areaConfigs_ c);
    Ok (set_areaConfigs_ (set_config_ c (OpenrConfig.set_areas (config_ c) areas))
          areaConfigs).
Proof.
  unfold populateAreaConfig, effective_areas.
  destruct (OpenrConfig.areas (config_ c)) eqn:E.
  - rewrite bool_decide_true by reflexivity. reflexivity.
  - rewrite bool_decide_false by discriminate. rewrite E. reflexivity.
Qed.


(** C10.  A list of areas in which an id comes twice is refused: the
    configuration is not accepted, the exception is
    [std::invalid_argument] as long as the constructor of
    [AreaConfiguration] throws nothing else, and it is the one of the
    duplicate id when the areas before the repeated one pass and the
    repeated one gets as far as the insertion.  A list of areas with
    distinct ids, each of which passes its own checks, is accepted, and
    every area has its own entry in the map of area configurations, which
    has no other entry. *)
Theorem populateAreaConfig_area_ids c :
  let areas := OpenrConfig.areas (config_ c) in
  let policy := propagationPolicy_of c in
  (~ NoDup (ids areas) ->
   is_ok (populateAreaConfig c) = false /\
   ((forall a, throws_only_invalid_argument (AreaConfiguration_of a)) ->
    exists what, populateAreaConfig c = Throw (invalid_argument what))) /\
  (forall pre a post,
     areas = pre ++ a :: post ->
     AreaConfig.area_id a ∈ ids pre ->
     is_ok (populateAreaConfig_loop policy pre (areaConfigs_ c)) = true ->
     (forall name, AreaConfig.import_policy_name a = Some name ->
                   policy_undefined policy name = false) ->
     is_ok (AreaConfiguration_of (normalize_area a)) = true ->
     populateAreaConfig c
     = Throw (invalid_argument
                ("Duplicate area config id: " +:+ AreaConfig.area_id a))) /\
  (NoDup (ids (effective_areas (config_ c))) ->
   areaConfigs_ c = ∅ ->
   Forall (area_passes policy) (map normalize_area (effective_areas (config_ c))) ->
   exists c',
     populateAreaConfig c = Ok c' /\
     Forall (area_registered (areaConfigs_ c')) (OpenrConfig.areas (config_ c')) /\
     dom (areaConfigs_ c') = list_to_set (ids (OpenrConfig.areas (config_ c'))) /\
     size (areaConfigs_ c') = length (OpenrConfig.areas (config_ c'))).
Proof.
  intros areas policy. split; [| split].
  - intros Hdup.
    assert (Hne : effective_areas (config_ c) = areas).
    { unfold effective_areas. fold areas. destruct areas; [| reflexivity].
      exfalso. apply Hdup. constructor. }
    assert (Hnot : is_ok (populateAreaConfig c) = false).
    { rewrite populateAreaConfig_unfold, Hne.
      apply is_ok_bind_false, populateAreaConfig_loop_duplicate, Hdup. }
    split; [exact Hnot |].
    intros Hctor. apply not_ok_invalid_argument; [| exact Hnot].
    apply populateAreaConfig_throws, Hctor.
  - intros pre a post Hareas Hin Hpre Hpol Hctor.
    rewrite populateAreaConfig_unfold.
    assert (Hne : effective_areas (config_ c) = pre ++ a :: post).
    { unfold effective_areas. fold areas. rewrite Hareas.
      destruct pre; reflexivity. }
    rewrite Hne.
    rewrite (populateAreaConfig_loop_first_duplicate _ pre a post); auto.
  - intros Hnd Hempty Hpass.
    destruct (populateAreaConfig_loop_succeeds policy (effective_areas (config_ c))
                (areaConfigs_ c) Hnd) as (m' & Hloop); [| exact Hpass |].
    { intros k _. rewrite Hempty. apply lookup_empty. }
    assert (Hok : populateAreaConfig c
                  = Ok (set_areaConfigs_
                          (set_config_ c
                             (OpenrConfig.set_areas (config_ c)
                                (map normalize_area (effective_areas (config_ c)))))
                          m')).
    { rewrite populateAreaConfig_unfold. fold policy. rewrite Hloop. reflexivity. }
    eexists. split; [exact Hok |].
    apply populateAreaConfig_Ok in Hok as (_ & _ & _ & Hreg & _ & _ & Hdom & _).
    cbv zeta in *. simpl in *.
    assert (Hdom' : dom m' = list_to_set (ids (map normalize_area
                                                 (effective_areas (config_ c))))).
    { rewrite Hdom, Hempty, dom_empty_L, normalize_area_ids. set_solver. }
    repeat split.
    + exact Hreg.
    + exact Hdom'.
    + rewrite <- size_dom, Hdom', size_list_to_set.
      * rewrite length_map. reflexivity.
      * rewrite normalize_area_ids. exact Hnd.
Qed.

End PopulateAreaConfigClaims.



(** C10 at work: the id [spine] twice, and the example configuration. *)
Lemma populateAreaConfig_area_ids_witness :
  let twice :=
    @Config_new example_externals
      (example_openr_config
         [example_area "spine" ["rsw.*"]; example_area "pod" [];
          example_area "spine" []]
         (example_kvstore 300000 None)) in
  (exists what, populateAreaConfig twice = Throw (invalid_argument what)) /\
  populateAreaConfig twice
  = Throw (invalid_argument "Duplicate area config id: spine") /\
  exists c',
    @populateAreaConfig example_externals (Config_new example_config) = Ok c' /\
    size (areaConfigs_ c') = 2.
Proof.
  intros twice.
  destruct (@populateAreaConfig_area_ids example_externals twice)
    as (Hrefused & Hfirst & _).
  destruct (@populateAreaConfig_area_ids example_externals
              (Config_new example_config)) as (_ & _ & Hdistinct).
  split; [| split].
  - destruct Hrefused as [_ Hinvalid].
    + intros Hnd. apply (bool_decide_pack _) in Hnd. vm_compute in Hnd. exact Hnd.
    + apply Hinvalid. intros a.
      apply (@compileRegexSet_throws RE2.parse_pattern). eexists. reflexivity.
  - apply (Hfirst [example_area "spine" ["rsw.*"]; example_area "pod" []]
             (example_area "spine" []) []).
    + reflexivity.
    + simpl. left.
    + reflexivity.
    + intros name Hname. discriminate Hname.
    + reflexivity.
  - destruct Hdistinct as (c' & Hok & _ & _ & Hsize).
    + apply (bool_decide_unpack _). vm_compute. exact I.
    + reflexivity.
    + repeat constructor; simpl; intros name Hname; discriminate Hname.
    + exists c'. split; [exact Hok |]. rewrite Hsize.
      destruct (@populateAreaConfig_Ok example_externals _ _ Hok) as (-> & _).
      reflexivity.
Defined.

(** ** The object that the constructor returns *)

Section ConstructorFacts.
Context {ext : Externals}.

Lemma validation_frame_refl c : validation_frame c c.
Proof.
  split; [reflexivity |].
  exists (OpenrConfig.bgp_translation_config (config_ c)),
         (OpenrConfig.eor_time_s (config_ c)).
  destruct (config_ c). reflexivity.
Qed.

Lemma validation_frame_trans c1 c2 c3 :
  validation_frame c1 c2 -> validation_frame c2 c3 -> validation_frame c1 c3.
Proof.
  intros (Ha & b & e & Hc) (Ha' & b' & e' & Hc'). split; [congruence |].
  exists b', e'. rewrite Hc', Hc. reflexivity.
Qed.

Lemma validation_frame_eor c v :
  validation_frame c (set_config_ c (OpenrConfig.set_eor_time_s (config_ c) v)).
Proof.
  split; [reflexivity |].
  exists (OpenrConfig.bgp_translation_config (config_ c)), v.
  simpl. destruct (config_ c). reflexivity.
Qed.

Lemma validation_frame_bgp c v :
  validation_frame c
    (set_config_ c (OpenrConfig.set_bgp_translation_config (config_ c) v)).
Proof.
  split; [reflexivity |].
  exists v, (OpenrConfig.eor_time_s (config_ c)).
  simpl. destruct (config_ c). reflexivity.
Qed.

Lemma validation_frame_params c v :
  validation_frame c (set_prefixAllocationParams_ c v).
Proof. apply (validation_frame_refl c). Qed.

(** The checks that read neither of the assigned members. *)
Lemma checkKvStoreConfig_frame c c' :
  validation_frame c c' -> checkKvStoreConfig c' = checkKvStoreConfig c.
Proof. unfold checkKvStoreConfig. intros (_ & ? & ? & ->). reflexivity. Qed.

Lemma checkDecisionConfig_frame c c' :
  validation_frame c c' -> checkDecisionConfig c' = checkDecisionConfig c.
Proof. unfold checkDecisionConfig. intros (_ & ? & ? & ->). reflexivity. Qed.

Lemma checkSparkConfig_frame c c' :
  validation_frame c c' -> checkSparkConfig c' = checkSparkConfig c.
Proof. unfold checkSparkConfig. intros (_ & ? & ? & ->). reflexivity. Qed.

Lemma checkMonitorConfig_frame c c' :
  validation_frame c c' -> checkMonitorConfig c' = checkMonitorConfig c.
Proof. unfold checkMonitorConfig. intros (_ & ? & ? & ->). reflexivity. Qed.

Lemma checkLinkMonitorConfig_frame c c' :
  validation_frame c c' -> checkLinkMonitorConfig c' = checkLinkMonitorConfig c.
Proof. unfold checkLinkMonitorConfig. intros (_ & ? & ? & ->). reflexivity. Qed.

Lemma checkSegmentRoutingConfig_frame c c' :
  validation_frame c c' -> checkSegmentRoutingConfig c' = checkSegmentRoutingConfig c.
Proof. unfold checkSegmentRoutingConfig. intros (_ & ? & ? & ->). reflexivity. Qed.

Lemma checkVipServiceConfig_frame c c' :
  validation_frame c c' -> checkVipServiceConfig c' = checkVipServiceConfig c.
Proof.
  unfold checkVipServiceConfig, isVipServiceEnabled, propagationPolicy_of,
    getAreaPolicies.
  intros (_ & ? & ? & ->). reflexivity.
Qed.

Lemma checkThriftServerConfig_frame c c' :
  validation_frame c c' -> checkThriftServerConfig c' = checkThriftServerConfig c.
Proof.
  unfold checkThriftServerConfig, getThriftServerConfig.
  intros (_ & ? & ? & ->). reflexivity.
Qed.

Lemma checkBgpPeers_frame c c' peers :
  isSegmentRoutingEnabled c' = isSegmentRoutingEnabled c ->
  checkBgpPeers c' peers = checkBgpPeers c peers.
Proof.
  intros Hsr. induction peers as [| peer peers IH]; simpl; [reflexivity |].
  rewrite Hsr, IH. reflexivity.
Qed.

Lemma set_prefixAllocationParams_id (c : Config) params :
  prefixAllocationParams_ c = params -> set_prefixAllocationParams_ c params = c.
Proof. intros <-. destruct c. reflexivity. Qed.

(** [checkPrefixAllocationConfig] assigns [prefixAllocationParams_] only,
    and passes again on an object that has the value it assigned. *)
Lemma checkPrefixAllocationConfig_Ok c c2 :
  checkPrefixAllocationConfig c = Ok c2 ->
  validation_frame c c2 /\
  forall c', validation_frame c2 c' ->
             prefixAllocationParams_ c' = prefixAllocationParams_ c2 ->
             checkPrefixAllocationConfig c' = Ok c'.
Proof.
  unfold checkPrefixAllocationConfig. intros Hok.
  destruct (OpenrConfig.prefix_allocation_config (config_ c)) as [paConf |] eqn:Epa;
    [| discriminate].
  invert_Ok Hok.
  assert (Hre : forall c', validation_frame c2 c' -> config_ c2 = config_ c ->
    OpenrConfig.prefix_allocation_config (config_ c') = Some paConf /\
    isV4Enabled c' = isV4Enabled c).
  { intros c' (_ & ? & ? & Hc') Hc2. unfold isV4Enabled.
    rewrite Hc', Hc2. simpl. auto. }
  destruct (PrefixAllocationConfig.prefix_allocation_mode paConf) eqn:Emode.
  - invert_Ok Hok. injection Hok as <-.
    split; [apply validation_frame_refl |].
    intros c' Hframe _. destruct (Hre c' Hframe eq_refl) as [-> _].
    rewrite Emode, Hr. simpl. rewrite Hr0. reflexivity.
  - invert_Ok Hok. injection Hok as <-.
    split; [apply validation_frame_params |].
    intros c' Hframe Hparams. destruct (Hre c' Hframe eq_refl) as [-> Hv4].
    rewrite Emode, Hr. simpl. rewrite Hr0. simpl.
    unfold isV4Enabled in *. simpl in *. rewrite Hv4, Hr1. simpl.
    rewrite set_prefixAllocationParams_id; auto.
  - invert_Ok Hok. injection Hok as <-.
    split; [apply validation_frame_refl |].
    intros c' Hframe _. destruct (Hre c' Hframe eq_refl) as [-> _].
    rewrite Emode, Hr. simpl. rewrite Hr0. reflexivity.
  - injection Hok as <-.
    split; [apply validation_frame_refl |].
    intros c' Hframe _. destruct (Hre c' Hframe eq_refl) as [-> _].
    rewrite Emode, Hr. reflexivity.
Qed.

(** [checkBgpPeeringConfig] assigns [bgp_translation_config] only, and
    passes again, assigning nothing, on the object it returns, whatever
    [eor_time_s] becomes. *)
Lemma checkBgpPeeringConfig_Ok c c3 :
  checkBgpPeeringConfig c = Ok c3 ->
  validation_frame c c3 /\
  prefixAllocationParams_ c3 = prefixAllocationParams_ c /\
  forall c' eor,
    config_ c' = OpenrConfig.set_eor_time_s (config_ c3) eor ->
    checkBgpPeeringConfig c' = Ok c'.
Proof.
  unfold checkBgpPeeringConfig, isBgpPeeringEnabled.
  rewrite !bool_decide_is_Some. intros Hok.
  destruct (OpenrConfig.enable_bgp_peering (config_ c)) eqn:Hen; simpl in Hok.
  - destruct (OpenrConfig.bgp_config (config_ c)) as [bgp |] eqn:Ebgp;
      [| discriminate].
    simpl in Hok. invert_Ok Hok.
    assert (Hagain : forall conf c',
      OpenrConfig.enable_bgp_peering (config_ c') = true ->
      OpenrConfig.bgp_config (config_ c') = Some bgp ->
      OpenrConfig.bgp_translation_config (config_ c') = Some conf ->
      isSegmentRoutingEnabled c' = isSegmentRoutingEnabled c ->
      throw_if
        (BgpRouteTranslationConfig.disable_legacy_translation conf
         && (negb (BgpRouteTranslationConfig.enable_openr_to_bgp conf)
             || negb (BgpRouteTranslationConfig.enable_bgp_to_openr conf)))
        (invalid_argument
           "Legacy translation can be disabled only when new translation is enabled")
      = Ok tt ->
      checkBgpPeeringConfig c' = Ok c').
    { intros conf c' Hen' Hbgp' Htr' Hsr' Hlegacy.
      unfold checkBgpPeeringConfig, isBgpPeeringEnabled.
      rewrite !bool_decide_is_Some, Hen', Hbgp', Htr'. simpl.
      rewrite (checkBgpPeers_frame c c' _ Hsr'), Hr. simpl.
      rewrite ?Hen', ?Htr'. simpl. rewrite Hlegacy. reflexivity. }
    injection Hok as <-.
    destruct (OpenrConfig.bgp_translation_config (config_ c)) as [conf |] eqn:Etr;
      simpl in *; rewrite ?Hen, ?Etr in Hr0; simpl in Hr0; destruct r0.
    + split; [apply validation_frame_refl |]. split; [reflexivity |].
      intros c' eor Hc'. apply (Hagain conf).
      * rewrite Hc'. exact Hen.
      * rewrite Hc'. exact Ebgp.
      * rewrite Hc'. exact Etr.
      * unfold isSegmentRoutingEnabled. rewrite Hc'. reflexivity.
      * assumption.
    + split; [apply validation_frame_bgp |]. split; [reflexivity |].
      intros c' eor Hc'.
      apply (Hagain BgpRouteTranslationConfig_default).
      * rewrite Hc'. exact Hen.
      * rewrite Hc'. exact Ebgp.
      * rewrite Hc'. reflexivity.
      * unfold isSegmentRoutingEnabled. rewrite Hc'. reflexivity.
      * assumption.
  - rewrite Hen in Hok. simpl in Hok. injection Hok as <-.
    split; [apply validation_frame_refl |]. split; [reflexivity |].
    intros c' eor Hc'. unfold checkBgpPeeringConfig, isBgpPeeringEnabled.
    rewrite !bool_decide_is_Some, Hc'. simpl. rewrite !Hen. simpl.
    rewrite ?Hc'. simpl. rewrite ?Hen. reflexivity.
Qed.

Lemma populateInternalDb_frames c c' :
  populateInternalDb c = Ok c' ->
  exists c1 c2 c3,
    populateAreaConfig c = Ok c1 /\
    validation_frame c1 c2 /\ validation_frame c2 c3 /\ validation_frame c3 c' /\
    prefixAllocationParams_ c' = prefixAllocationParams_ c2 /\
    (exists eor, config_ c' = OpenrConfig.set_eor_time_s (config_ c3) eor) /\
    is_Some (OpenrConfig.eor_time_s (config_ c')) /\
    (isPrefixAllocationEnabled c1 = true ->
     size (areaConfigs_ c1) <= 1 /\ checkPrefixAllocationConfig c1 = Ok c2) /\
    checkVipServiceConfig c2 = Ok tt /\
    checkBgpPeeringConfig c2 = Ok c3 /\
    (isSecureThriftServerEnabled c3 = true -> checkThriftServerConfig c3 = Ok tt).
Proof.
  intros Hok.
  apply populateInternalDb_Ok_inv in Hok
    as (c1 & c2 & c3 & Hc1 & _ & _ & _ & _ & _ & _ & _ & _ & _ & _ & _ & _
        & Hpa & Hvip & Hbgp & Hthrift & ->).
  exists c1, c2, c3.
  assert (F12 : validation_frame c1 c2).
  { destruct (isPrefixAllocationEnabled c1).
    - destruct Hpa as [_ Hpa]. apply checkPrefixAllocationConfig_Ok in Hpa as [F _].
      exact F.
    - subst c2. apply validation_frame_refl. }
  destruct (checkBgpPeeringConfig_Ok c2 c3 Hbgp) as (F23 & Hparams & _).
  repeat match goal with |- _ /\ _ => split end; try assumption.
  - destruct (bool_decide _); [apply validation_frame_refl | apply validation_frame_eor].
  - destruct (bool_decide _); simpl; exact Hparams.
  - destruct (bool_decide _); simpl.
    + exists (OpenrConfig.eor_time_s (config_ c3)). destruct (config_ c3). reflexivity.
    + eexists. reflexivity.
  - destruct (bool_decide (is_Some (OpenrConfig.eor_time_s (config_ c3)))) eqn:E.
    + apply bool_decide_eq_true in E. exact E.
    + simpl. eauto.
  - intros Hen. rewrite Hen in Hpa. exact Hpa.
Qed.

(** The object that [populateInternalDb] returns, started from an empty
    map of area configurations, passes every check. *)
Lemma populateInternalDb_FullyValidated c c' :
  areaConfigs_ c = ∅ -> populateInternalDb c = Ok c' -> FullyValidated c'.
Proof.
  intros Hempty Hok.
  destruct (populateInternalDb_frames c c' Hok)
    as (c1 & c2 & c3 & Hc1 & F12 & F23 & F3 & Hparams & Heor & Hsome & Hpa
        & Hvip & Hbgp & Hthrift).
  pose proof (validation_frame_trans _ _ _ F23 F3) as F2.
  pose proof (validation_frame_trans _ _ _ F12 F2) as F1.
  apply populateInternalDb_Ok_inv in Hok
    as (c1' & _ & _ & Hc1' & Hnamed & Hksp & Htos & Hbv & Hwd & Hrd & Hkv & Hdec
        & Hspark & Hmon & Hlm & Hsr & _).
  assert (c1' = c1) as -> by congruence. clear Hc1'.
  pose proof (populateAreaConfig_Ok c c1 Hc1) as Hareas. cbv zeta in Hareas.
  destruct Hareas as (Hcfg1 & _ & Hpass & Hreg & Hnd & _ & Hdom & _).
  destruct F1 as (Ha & b & e & Hc').
  assert (Hareas' : OpenrConfig.areas (config_ c')
                    = map normalize_area (effective_areas (config_ c))).
  { rewrite Hc', Hcfg1. reflexivity. }
  assert (Hpolicy : propagationPolicy_of c' = propagationPolicy_of c).
  { unfold propagationPolicy_of, getAreaPolicies. rewrite Hc', Hcfg1. reflexivity. }
  assert (F1 : validation_frame c1 c') by (split; eauto).
  constructor.
  - rewrite Hareas'. unfold effective_areas.
    destruct (OpenrConfig.areas (config_ c)); discriminate.
  - rewrite Hareas'. apply normalize_area_all.
  - rewrite Hareas', Hpolicy. exact Hpass.
  - rewrite Hareas', Ha. exact Hreg.
  - rewrite Hareas', normalize_area_ids. exact Hnd.
  - rewrite Hareas', Ha, Hdom, Hempty, dom_empty_L, normalize_area_ids. set_solver.
  - rewrite Hc'. simpl. apply orb_false_iff in Hnamed as [H1 H2].
    apply negb_false_iff in H1, H2. auto.
  - rewrite Hc'. exact Hksp.
  - rewrite Hc'. exact Htos.
  - unfold isBgpPeeringEnabled, isVipServiceEnabled. rewrite Hc'. exact Hbv.
  - unfold isWatchdogEnabled. rewrite Hc'. exact Hwd.
  - rewrite Hc'. exact Hrd.
  - rewrite (checkKvStoreConfig_frame c1 c' F1). exact Hkv.
  - rewrite (checkDecisionConfig_frame c1 c' F1). exact Hdec.
  - rewrite (checkSparkConfig_frame c1 c' F1). exact Hspark.
  - rewrite (checkMonitorConfig_frame c1 c' F1). exact Hmon.
  - rewrite (checkLinkMonitorConfig_frame c1 c' F1). exact Hlm.
  - rewrite (checkSegmentRoutingConfig_frame c1 c' F1). exact Hsr.
  - intros Hen.
    assert (Hen1 : isPrefixAllocationEnabled c1 = true).
    { unfold isPrefixAllocationEnabled in *. rewrite Hc' in Hen. exact Hen. }
    destruct (Hpa Hen1) as [Hsize Hcheck]. split; [rewrite Ha; exact Hsize |].
    apply checkPrefixAllocationConfig_Ok in Hcheck as [_ Hagain].
    apply Hagain; assumption.
  - rewrite (checkVipServiceConfig_frame c2 c' F2). exact Hvip.
  - destruct Heor as (eor & Heor).
    destruct (checkBgpPeeringConfig_Ok c2 c3 Hbgp) as (_ & _ & Hagain).
    exact (Hagain c' eor Heor).
  - intros Hen. rewrite (checkThriftServerConfig_frame c3 c' F3). apply Hthrift.
    destruct F3 as (_ & ? & ? & Hc3).
    unfold isSecureThriftServerEnabled, getThriftServerConfig in *.
    rewrite Hc3 in Hen. exact Hen.
  - exact Hsome.
Qed.

End ConstructorFacts.

(** ** No [CHECK] of the validation fails *)

Section Aborts.
Context {ext : Externals}.

Lemma aborts_externally_Ok {A} (a : A) : aborts_externally (Ok a).
Proof. intros msg Hm. discriminate. Qed.

Lemma aborts_externally_Throw {A} e : aborts_externally (@Throw A e).
Proof. intros msg Hm. discriminate. Qed.

Lemma aborts_externally_throw_if cond e : aborts_externally (throw_if cond e).
Proof. destruct cond; intros msg Hm; discriminate. Qed.

Lemma aborts_externally_bind {A B} (m : outcome A) (k : A -> outcome B) :
  aborts_externally m -> (forall a, m = Ok a -> aborts_externally (k a)) ->
  aborts_externally (m ≫= k).
Proof.
  intros Hm Hk msg. destruct m as [a | e | msg']; simpl.
  - apply Hk. reflexivity.
  - discriminate.
  - intros [= ->]. apply Hm. reflexivity.
Qed.

Ltac no_abort :=
  repeat first
    [ apply aborts_externally_Ok
    | apply aborts_externally_Throw
    | apply aborts_externally_throw_if
    | apply aborts_externally_bind; [| intros ? _]
    | match goal with
      | |- aborts_externally (match ?x with _ => _ end) => destruct x
      | |- aborts_externally (if ?x then _ else _) => destruct x
      end ].

Lemma checkNodeSegmentLabelConfig_aborts a :
  aborts_externally (checkNodeSegmentLabelConfig a).
Proof. unfold checkNodeSegmentLabelConfig. no_abort. Qed.

Lemma checkAdjacencyLabelConfig_aborts a :
  aborts_externally (checkAdjacencyLabelConfig a).
Proof. unfold checkAdjacencyLabelConfig. no_abort. Qed.

Lemma checkPrependLabelConfig_aborts a :
  aborts_externally (checkPrependLabelConfig a).
Proof. unfold checkPrependLabelConfig. no_abort. Qed.

Lemma AreaConfiguration_of_aborts a : aborts_externally (AreaConfiguration_of a).
Proof. intros msg Hm. left. eauto. Qed.

Lemma IPAddress_of_string_aborts s : aborts_externally (IPAddress_of_string s).
Proof. intros msg Hm. right. left. eauto. Qed.

Lemma createNetwork_aborts s : aborts_externally (createNetwork s).
Proof. intros msg Hm. right. right. eauto. Qed.

Lemma populateAreaConfig_area_aborts pp a m :
  aborts_externally (populateAreaConfig_area pp a m).
Proof.
  unfold populateAreaConfig_area.
  apply aborts_externally_bind; [no_abort | intros _ _].
  apply aborts_externally_bind; [apply AreaConfiguration_of_aborts | intros ac _].
  apply aborts_externally_bind; [no_abort | intros _ _].
  apply aborts_externally_bind; [apply checkNodeSegmentLabelConfig_aborts | intros _ _].
  apply aborts_externally_bind; [apply checkAdjacencyLabelConfig_aborts | intros _ _].
  apply aborts_externally_bind; [apply checkPrependLabelConfig_aborts | intros _ _].
  no_abort.
Qed.

Lemma populateAreaConfig_loop_aborts pp areas : forall m,
  aborts_externally (populateAreaConfig_loop pp areas m).
Proof.
  induction areas as [| a areas IH]; intros m; simpl; [no_abort |].
  apply aborts_externally_bind; [apply populateAreaConfig_area_aborts |].
  intros [a' m1] _.
  apply aborts_externally_bind; [apply IH | intros [rest m2] _]. no_abort.
Qed.

Lemma populateAreaConfig_aborts c : aborts_externally (populateAreaConfig c).
Proof.
  unfold populateAreaConfig.
  apply aborts_externally_bind; [apply populateAreaConfig_loop_aborts |].
  intros [areas m] _. no_abort.
Qed.

Lemma checkKvStoreConfig_aborts c : aborts_externally (checkKvStoreConfig c).
Proof. unfold checkKvStoreConfig. no_abort. Qed.

Lemma checkDecisionConfig_aborts c : aborts_externally (checkDecisionConfig c).
Proof. unfold checkDecisionConfig. no_abort. Qed.

Lemma checkSparkConfig_aborts c : aborts_externally (checkSparkConfig c).
Proof. unfold checkSparkConfig. cbv zeta. no_abort. Qed.

Lemma checkMonitorConfig_aborts c : aborts_externally (checkMonitorConfig c).
Proof. unfold checkMonitorConfig. no_abort. Qed.

Lemma checkLinkMonitorConfig_aborts c : aborts_externally (checkLinkMonitorConfig c).
Proof. unfold checkLinkMonitorConfig. cbv zeta. no_abort. Qed.

Lemma checkSegmentRoutingConfig_aborts c :
  aborts_externally (checkSegmentRoutingConfig c).
Proof. unfold checkSegmentRoutingConfig. no_abort. Qed.

Lemma checkVipServiceConfig_aborts c : aborts_externally (checkVipServiceConfig c).
Proof. unfold checkVipServiceConfig. no_abort. Qed.

Lemma path_exists_aborts path : aborts_externally (path_exists path).
Proof. unfold path_exists. no_abort. Qed.

Lemma checkThriftServerConfig_aborts c : aborts_externally (checkThriftServerConfig c).
Proof.
  unfold checkThriftServerConfig. cbv zeta.
  repeat first
    [ apply path_exists_aborts
    | apply aborts_externally_Ok
    | apply aborts_externally_Throw
    | apply aborts_externally_throw_if
    | apply aborts_externally_bind; [| intros ? _]
    | match goal with
      | |- aborts_externally (match ?x with _ => _ end) => destruct x
      | |- aborts_externally (if ?x then _ else _) => destruct x
      end ].
Qed.

Lemma createPrefixAllocationParams_aborts seed len :
  aborts_externally (createPrefixAllocationParams seed len).
Proof.
  unfold createPrefixAllocationParams.
  apply aborts_externally_bind; [no_abort | intros _ _].
  apply aborts_externally_bind; [apply createNetwork_aborts | intros seedPfx _].
  no_abort.
Qed.

Lemma checkPrefixAllocationConfig_aborts c :
  aborts_externally (checkPrefixAllocationConfig c).
Proof.
  unfold checkPrefixAllocationConfig.
  destruct (OpenrConfig.prefix_allocation_config (config_ c)); [| no_abort].
  apply aborts_externally_bind; [no_abort | intros _ _].
  destruct (PrefixAllocationConfig.prefix_allocation_mode t); try solve [no_abort].
  apply aborts_externally_bind; [apply createPrefixAllocationParams_aborts |].
  intros params _. no_abort.
Qed.

Lemma checkBgpPeers_aborts c peers : aborts_externally (checkBgpPeers c peers).
Proof.
  induction peers as [| peer peers IH]; simpl; [no_abort |].
  apply aborts_externally_bind; [apply IPAddress_of_string_aborts | intros addr _].
  apply aborts_externally_bind; [no_abort | intros _ _]. exact IH.
Qed.

(** The [CHECK] of [checkBgpPeeringConfig] holds whenever it is reached:
    the translation configuration has just been set if it was not. *)
Lemma checkBgpPeeringConfig_aborts c : aborts_externally (checkBgpPeeringConfig c).
Proof.
  unfold checkBgpPeeringConfig, isBgpPeeringEnabled.
  rewrite !bool_decide_is_Some.
  apply aborts_externally_bind; [no_abort | intros _ _].
  apply aborts_externally_bind.
  { destruct (OpenrConfig.enable_bgp_peering (config_ c)); [| no_abort].
    destruct (OpenrConfig.bgp_config (config_ c)); [| no_abort].
    apply checkBgpPeers_aborts. }
  intros _ _.
  apply aborts_externally_bind; [| intros; no_abort].
  destruct (OpenrConfig.enable_bgp_peering (config_ c)) eqn:Hen; simpl.
  - destruct (OpenrConfig.bgp_translation_config (config_ c)) eqn:Etr; simpl;
      rewrite ?Hen, ?bool_decide_is_Some, ?Etr; simpl; no_abort.
  - rewrite Hen. no_abort.
Qed.

Lemma populateInternalDb_aborts c : aborts_externally (populateInternalDb c).
Proof.
  unfold populateInternalDb.
  apply aborts_externally_bind; [apply populateAreaConfig_aborts | intros c1 _].
  do 6 (apply aborts_externally_bind; [no_abort | intros _ _]).
  apply aborts_externally_bind; [apply checkKvStoreConfig_aborts | intros _ _].
  apply aborts_externally_bind; [apply checkDecisionConfig_aborts | intros _ _].
  apply aborts_externally_bind; [apply checkSparkConfig_aborts | intros _ _].
  apply aborts_externally_bind; [apply checkMonitorConfig_aborts | intros _ _].
  apply aborts_externally_bind; [apply checkLinkMonitorConfig_aborts | intros _ _].
  apply aborts_externally_bind; [apply checkSegmentRoutingConfig_aborts | intros _ _].
  apply aborts_externally_bind.
  { destruct (isPrefixAllocationEnabled c1); [| no_abort].
    apply aborts_externally_bind; [no_abort | intros _ _].
    apply checkPrefixAllocationConfig_aborts. }
  intros c2 _.
  apply aborts_externally_bind; [apply checkVipServiceConfig_aborts | intros _ _].
  apply aborts_externally_bind; [apply checkBgpPeeringConfig_aborts | intros c3 _].
  apply aborts_externally_bind; [| intros; no_abort].
  destruct (isSecureThriftServerEnabled c3); [| no_abort].
  apply checkThriftServerConfig_aborts.
Qed.

End Aborts.

(** ** Config::Config *)

Section ConstructorClaims.
Context {ext : Externals}.

(** C7.  The construction of a [Config], from a configuration file or from
    a configuration in memory, either returns an object of which every
    check of [populateInternalDb] holds, or throws and returns no object.
    (A third outcome has no object either: the process is aborted by a
    [CHECK] of the code that the parameters stand for; the [CHECK]s of the
    validation itself do not fail.) *)
Theorem Config_all_or_nothing :
  (forall configFile, all_or_nothing (Config_of_file configFile)) /\
  (forall config, all_or_nothing (populateInternalDb (Config_new config))).
Proof.
  assert (Hdb : forall config, all_or_nothing (populateInternalDb (Config_new config))).
  { intros config. unfold all_or_nothing.
    destruct (populateInternalDb (Config_new config)) as [c | e | msg] eqn:E.
    - left. exists c. split; [reflexivity |].
      apply (populateInternalDb_FullyValidated (Config_new config)); auto.
    - right. left. eauto.
    - right. right. exists msg. split; [reflexivity |].
      apply (populateInternalDb_aborts (Config_new config)). exact E. }
  split; [| exact Hdb].
  intros configFile. unfold Config_of_file.
  destruct (readFileToString configFile) as [contents |]; simpl;
    [| right; left; eauto].
  destruct (deserialize contents) as [ex | config]; simpl;
    [right; left; eauto |].
  apply Hdb.
Qed.

End ConstructorClaims.

(** The constructor at work on the example file: the area without
    neighbor patterns has got [.*], and [eor_time_s] three times the
    keep-alive time.  A file that cannot be read is an error. *)
Example Config_of_example_file :
  match @Config_of_file example_externals "/etc/openr.conf" with
  | Ok c =>
      map AreaConfig.neighbor_regexes (OpenrConfig.areas (config_ c))
      = [["rsw.*"; "fsw.*"]; [".*"]] /\
      OpenrConfig.eor_time_s (config_ c) = Some 6%Z /\
      size (areaConfigs_ c) = 2
  | _ => False
  end.
Proof. vm_compute. repeat split. Qed.

Example Config_of_missing_file :
  @Config_of_file example_externals "/tmp/openr.conf"
  = Throw (ConfigError "Could not read config file: /tmp/openr.conf").
Proof. reflexivity. Qed.

(** * Further properties of the validation *)

(** Case analysis on the comparisons of integers in the goal. *)
Ltac compare :=
  repeat match goal with
         | |- context [(?a <=? ?b)%Z] => destruct (Z.leb_spec a b)
         | |- context [(?a <? ?b)%Z] => destruct (Z.ltb_spec a b)
         | |- context [(?a =? ?b)%Z] => destruct (Z.eqb_spec a b)
         end.

(** ** createPrefixAllocationParams *)

Section PrefixAllocationParams.
Context {ext : Externals}.

(** X1.  [createPrefixAllocationParams] returns exactly when the seed
    prefix is not empty, the length is not zero, the seed prefix is a
    network, and the length is longer than the network's and at most 32 for
    a v4 network, at most 128 for a v6 network; it returns the network with
    the length. *)
Theorem createPrefixAllocationParams_Ok seedPfxStr allocationPfxLen params :
  createPrefixAllocationParams seedPfxStr allocationPfxLen = Ok params <->
  seedPfxStr <> "" /\ allocationPfxLen <> 0%Z /\
  exists seedPfx,
    createNetwork seedPfxStr = Ok seedPfx /\
    params = (seedPfx, allocationPfxLen) /\
    (isV4 seedPfx.1 = true -> (seedPfx.2 < allocationPfxLen <= 32)%Z) /\
    (isV6 seedPfx.1 = true -> (seedPfx.2 < allocationPfxLen <= 128)%Z).
Proof.
  unfold createPrefixAllocationParams.
  destruct (decide (seedPfxStr = "")) as [-> | Hseed].
  { simpl. split; [discriminate | intros (H & _); contradiction]. }
  rewrite bool_decide_false by assumption.
  destruct (Z.eqb_spec allocationPfxLen 0) as [-> | Hlen]; simpl.
  { split; [discriminate | intros (_ & H & _); contradiction]. }
  destruct (createNetwork seedPfxStr) as [[addr len] | e | msg]; simpl.
  - split.
    + destruct (isV4 addr) eqn:E4, (isV6 addr) eqn:E6; compare; simpl;
        try discriminate;
        intros [= <-]; (split; [assumption |]); (split; [assumption |]);
        exists (addr, len); simpl; rewrite E4, E6;
        repeat split; try discriminate; lia.
    + intros (_ & _ & seedPfx & [= <-] & -> & H4 & H6). simpl in *.
      destruct (isV4 addr), (isV6 addr); compare; simpl; try reflexivity;
        try (specialize (H4 eq_refl)); try (specialize (H6 eq_refl)); lia.
  - split; [discriminate | intros (_ & _ & seedPfx & H & _); discriminate].
  - split; [discriminate | intros (_ & _ & seedPfx & H & _); discriminate].
Qed.

(** X2.  What [createPrefixAllocationParams] throws: [std::invalid_argument]
    for an empty seed prefix or a length of zero, before the seed prefix is
    looked at; otherwise what [createNetwork] throws of the seed prefix, or
    [std::out_of_range] for a length that is not longer than the network's
    or exceeds the 32 bits of a v4 address, the 128 of a v6 address. *)
Theorem createPrefixAllocationParams_Throw seedPfxStr allocationPfxLen e :
  createPrefixAllocationParams seedPfxStr allocationPfxLen = Throw e ->
  (e = invalid_argument "seed_prefix and allocate_prefix_len must be filled." /\
   (seedPfxStr = "" \/ allocationPfxLen = 0%Z)) \/
  (seedPfxStr <> "" /\ allocationPfxLen <> 0%Z /\
   (createNetwork seedPfxStr = Throw e \/
    exists seedPfx what,
      createNetwork seedPfxStr = Ok seedPfx /\ e = out_of_range what /\
      (isV4 seedPfx.1 = true \/ isV6 seedPfx.1 = true) /\
      ((allocationPfxLen <= seedPfx.2)%Z \/
       (isV4 seedPfx.1 = true /\ (32 < allocationPfxLen)%Z) \/
       (isV4 seedPfx.1 = false /\ (128 < allocationPfxLen)%Z)))).
Proof.
  unfold createPrefixAllocationParams.
  destruct (decide (seedPfxStr = "")) as [-> | Hseed].
  { simpl. intros [= <-]. left. auto. }
  rewrite bool_decide_false by assumption.
  destruct (Z.eqb_spec allocationPfxLen 0) as [-> | Hlen]; simpl.
  { intros [= <-]. left. auto. }
  intros He. right. split; [assumption |]. split; [assumption |].
  destruct (createNetwork seedPfxStr) as [[addr len] | e' | msg]; simpl in He;
    [| left; injection He as <-; reflexivity | discriminate].
  right. exists (addr, len). simpl in *.
  destruct (isV4 addr), (isV6 addr); revert He; compare; simpl;
    intros He; try discriminate; injection He as <-;
    eexists; (split; [reflexivity |]); (split; [reflexivity |]);
    (split; [auto |]); first [left; lia | right; left; split; [reflexivity | lia]
                             | right; right; split; [reflexivity | lia]].
Qed.

End PrefixAllocationParams.

(** ** The checks of numbers *)

Section NumberChecks.
Context {ext : Externals}.

Lemma throw_if_Ok_iff cond e : throw_if cond e = Ok tt <-> cond = false.
Proof. destruct cond; simpl; split; intros; congruence. Qed.

Lemma then_Ok_iff (m k : outcome unit) :
  (m ;; k) = Ok tt <-> m = Ok tt /\ k = Ok tt.
Proof.
  destruct m as [[] | |]; simpl; split; try tauto; try discriminate;
    intros [? ?]; discriminate.
Qed.

Lemma string_app_inj (p x y : string) : p +:+ x = p +:+ y -> x = y.
Proof. induction p as [| a p IH]; simpl; [auto |]. intros [= H]. auto. Qed.

(** X3.  Where its two products are within the range of [int],
    [checkSparkConfig] accepts a configuration exactly when the discovery
    port is in 1..65535 (the port 0, which the message allows, is
    refused), the hello time is positive, the fast initial hello time is
    positive and at most a thousand times the hello time, the keep-alive
    time is positive and at most the hold time, the graceful restart time
    is at least three times the keep-alive time, the thresholds of the step
    detector are non-negative with the lower one below the upper one, and
    its window sizes are non-negative with the fast one at most the slow
    one. *)
Theorem checkSparkConfig_Ok c :
  let sparkConfig := OpenrConfig.spark_config (config_ c) in
  let step := SparkConfig.step_detector_conf sparkConfig in
  spark_products_fit sparkConfig ->
  (checkSparkConfig c = Ok tt <->
   (0 < SparkConfig.neighbor_discovery_port sparkConfig <= 65535 /\
    0 < SparkConfig.hello_time_s sparkConfig /\
    0 < SparkConfig.fastinit_hello_time_ms sparkConfig
      <= 1000 * SparkConfig.hello_time_s sparkConfig /\
    0 < SparkConfig.keepalive_time_s sparkConfig
      <= SparkConfig.hold_time_s sparkConfig /\
    3 * SparkConfig.keepalive_time_s sparkConfig
      <= SparkConfig.graceful_restart_time_s sparkConfig /\
    0 <= StepDetectorConfig.lower_threshold step
      < StepDetectorConfig.upper_threshold step /\
    0 <= StepDetectorConfig.fast_window_size step
      <= StepDetectorConfig.slow_window_size step)%Z).
Proof.
  intros sparkConfig step _. unfold checkSparkConfig. cbv zeta.
  fold sparkConfig. fold step.
  rewrite !then_Ok_iff, !throw_if_Ok_iff, !orb_false_iff,
    ?Z.leb_gt, ?Z.ltb_ge.
  lia.
Qed.

(** One check of a sequence that throws: the check throws, or it passes
    and the rest throws. *)
Lemma then_Throw_inv (cond : bool) e0 (k : outcome unit) e :
  (throw_if cond e0;; k) = Throw e ->
  (cond = true /\ e = e0) \/ (cond = false /\ k = Throw e).
Proof. destruct cond; simpl; [intros [= <-] |]; auto. Qed.

Lemma throw_if_Throw_inv (cond : bool) e0 e :
  throw_if cond e0 = Throw e -> cond = true /\ e = e0.
Proof. destruct cond; simpl; [intros [= <-]; auto | discriminate]. Qed.

(** X4.  Two checks of [checkSparkConfig] never fire, where its two
    products are within the range of [int].  The exception for a hold time
    that is not positive is never thrown: the keep-alive time
    has been found positive, and at most the hold time, before.  The last
    check of the thresholds of the step detector repeats an earlier one,
    and its exception is never thrown either. *)
Theorem checkSparkConfig_dead_checks c e :
  let sparkConfig := OpenrConfig.spark_config (config_ c) in
  spark_products_fit sparkConfig ->
  checkSparkConfig c = Throw e ->
  e <> out_of_range (hold_time_s_message sparkConfig) /\
  e <> invalid_argument (last_threshold_message sparkConfig).
Proof.
  intros sparkConfig _. unfold checkSparkConfig. cbv zeta. fold sparkConfig.
  unfold hold_time_s_message, last_threshold_message.
  intros H.
  repeat match type of H with
         | (throw_if _ _;; _) = Throw _ =>
             apply then_Throw_inv in H as [[_ ->] | [? H]];
               [split; intros [= Hm]; try discriminate Hm;
                repeat apply string_app_inj in Hm; discriminate Hm |]
         end.
  - (* the check of the hold time *)
    apply then_Throw_inv in H as [[Hhold _] | [_ H]].
    + rewrite Z.leb_le in Hhold.
      repeat match goal with
             | Hc : _ = false |- _ =>
                 rewrite ?orb_false_iff, ?Z.leb_gt, ?Z.ltb_ge in Hc
             end.
      lia.
    + repeat match type of H with
             | (throw_if _ _;; _) = Throw _ =>
                 apply then_Throw_inv in H as [[_ ->] | [? H]];
                   [split; intros [= Hm]; try discriminate Hm;
                    repeat apply string_app_inj in Hm; discriminate Hm |]
             end.
      apply throw_if_Throw_inv in H as [Hlast _]. congruence.
Qed.

(** X5.  [checkLinkMonitorConfig] accepts exactly the backoffs with
    [0 <= linkflap_initial_backoff_ms <= linkflap_max_backoff_ms]: equal
    backoffs pass, whatever the message of the last check says.  Every
    exception it throws is [std::out_of_range]. *)
Theorem checkLinkMonitorConfig_Ok c :
  let lmConf := OpenrConfig.link_monitor_config (config_ c) in
  (checkLinkMonitorConfig c = Ok tt <->
   (0 <= LinkMonitorConfig.linkflap_initial_backoff_ms lmConf
      <= LinkMonitorConfig.linkflap_max_backoff_ms lmConf)%Z) /\
  (forall e, checkLinkMonitorConfig c = Throw e -> exists what, e = out_of_range what) /\
  (forall msg, checkLinkMonitorConfig c <> Abort msg).
Proof.
  intros lmConf. unfold checkLinkMonitorConfig. cbv zeta. fold lmConf.
  split; [| split].
  - rewrite !then_Ok_iff, !throw_if_Ok_iff, ?Z.ltb_ge. lia.
  - intros e H.
    repeat match type of H with
           | (throw_if _ _;; _) = Throw _ =>
               apply then_Throw_inv in H as [[_ ->] | [_ H]]; [eauto |]
           end.
    apply throw_if_Throw_inv in H as [_ ->]. eauto.
  - intros msg. compare; simpl; discriminate.
Qed.

End NumberChecks.

(** ** The checks of the services *)

Section ServiceChecks.
Context {ext : Externals}.

(** X6.  The loop over the BGP peers passes exactly when the address of
    every peer is an address and no peer at a loopback address has
    [add_path] set to [RECEIVE] while segment routing is off.  The address
    is parsed first: a peer whose address is malformed fails the loop even
    if it has no [add_path]. *)
Theorem checkBgpPeers_Ok c peers :
  checkBgpPeers c peers = Ok tt <->
  Forall (fun peer =>
            exists addr,
              IPAddress_of_string (BgpPeer.peer_addr peer) = Ok addr /\
              (isLoopback addr = true ->
               BgpPeer.add_path peer = Some RECEIVE ->
               isSegmentRoutingEnabled c = true)) peers.
Proof.
  induction peers as [| peer peers IH]; simpl.
  - split; [constructor | reflexivity].
  - rewrite Forall_cons, <- IH. clear IH.
    destruct (IPAddress_of_string (BgpPeer.peer_addr peer)) as [addr | e | msg]; simpl.
    + rewrite then_Ok_iff, throw_if_Ok_iff.
      split; intros [Hc Hrest]; (split; [| exact Hrest]).
      * exists addr. split; [reflexivity |]. intros Hl Hp.
        rewrite Hl, Hp in Hc. simpl in Hc. apply negb_false_iff in Hc. exact Hc.
      * destruct Hc as (addr0 & [= <-] & H).
        destruct (isLoopback addr) eqn:El; simpl; [| reflexivity].
        destruct (BgpPeer.add_path peer) as [[] |] eqn:Ep; simpl; try reflexivity.
        rewrite H; auto.
    + split; [discriminate | intros [(addr & H & _) _]; discriminate].
    + split; [discriminate | intros [(addr & H & _) _]; discriminate].
Qed.

Lemma set_bgp_translation_config_id (c : Config) conf :
  OpenrConfig.bgp_translation_config (config_ c) = conf ->
  set_config_ c (OpenrConfig.set_bgp_translation_config (config_ c) conf) = c.
Proof. intros <-. destruct c as [[] ? ?]. reflexivity. Qed.

(** X7.  With BGP peering off, [checkBgpPeeringConfig] checks nothing and
    changes nothing.  With BGP peering on, it returns exactly when there is
    a BGP configuration, the loop over its peers passes, and the
    translation configuration, or the default one if there is none, does
    not disable the legacy translation without enabling both directions of
    the new one; what it returns is the object with that translation
    configuration. *)
Theorem checkBgpPeeringConfig_result c c' :
  checkBgpPeeringConfig c = Ok c' <->
  (isBgpPeeringEnabled c = false /\ c' = c) \/
  (isBgpPeeringEnabled c = true /\
   exists bgp,
     OpenrConfig.bgp_config (config_ c) = Some bgp /\
     checkBgpPeers c (BgpConfig.peers bgp) = Ok tt /\
     let conf := default BgpRouteTranslationConfig_default
                   (OpenrConfig.bgp_translation_config (config_ c)) in
     BgpRouteTranslationConfig.disable_legacy_translation conf
     && (negb (BgpRouteTranslationConfig.enable_openr_to_bgp conf)
         || negb (BgpRouteTranslationConfig.enable_bgp_to_openr conf)) = false /\
     c' = set_config_ c
            (OpenrConfig.set_bgp_translation_config (config_ c) (Some conf))).
Proof.
  unfold checkBgpPeeringConfig, isBgpPeeringEnabled.
  rewrite !bool_decide_is_Some.
  destruct (OpenrConfig.enable_bgp_peering (config_ c)) eqn:Hen; simpl.
  - destruct (OpenrConfig.bgp_config (config_ c)) as [bgp |] eqn:Ebgp; simpl.
    + destruct (checkBgpPeers c (BgpConfig.peers bgp)) as [[] | e | msg] eqn:Hpeers;
        simpl.
      * destruct (OpenrConfig.bgp_translation_config (config_ c)) as [conf |] eqn:Etr;
          simpl; rewrite ?Hen, ?Etr; simpl.
        -- destruct (_ && _) eqn:Hlegacy; simpl; split.
           ++ discriminate.
           ++ intros [[? _] | (_ & bgp' & _ & _ & ? & _)]; discriminate.
           ++ intros [= <-]. right. split; [reflexivity |].
              exists bgp. repeat split; auto.
              symmetry. apply set_bgp_translation_config_id. exact Etr.
           ++ intros [[? _] | (_ & bgp' & _ & _ & _ & ->)]; [discriminate |].
              rewrite set_bgp_translation_config_id; auto.
        -- destruct (_ && _) eqn:Hlegacy; simpl; split.
           ++ discriminate.
           ++ intros [[? _] | (_ & bgp' & _ & _ & ? & _)]; discriminate.
           ++ intros [= <-]. right. split; [reflexivity |].
              exists bgp. repeat split; auto.
           ++ intros [[? _] | (_ & bgp' & _ & _ & _ & ->)]; [discriminate |].
              reflexivity.
      * split; [discriminate |].
        intros [[? _] | (_ & bgp' & [= <-] & ? & _)]; congruence.
      * split; [discriminate |].
        intros [[? _] | (_ & bgp' & [= <-] & ? & _)]; congruence.
    + split; [discriminate |].
      intros [[? _] | (_ & bgp' & ? & _)]; discriminate.
  - rewrite Hen. simpl. split.
    + intros [= <-]. left. auto.
    + intros [[_ ->] | [? _]]; [reflexivity | discriminate].
Qed.

(** X8.  The check of the segment routing configuration is the check of
    an area: it passes exactly when [checkPrependLabelConfig] and
    [checkAdjacencyLabelConfig] pass on an area that has the prepend label
    ranges and the adjacency label of the configuration. *)
Theorem checkSegmentRoutingConfig_as_area c :
  checkSegmentRoutingConfig c = Ok tt <->
  match OpenrConfig.segment_routing_config (config_ c) with
  | Some srConfig =>
      checkPrependLabelConfig (area_of_segment_routing srConfig) = Ok tt /\
      checkAdjacencyLabelConfig (area_of_segment_routing srConfig) = Ok tt
  | None => True
  end.
Proof.
  unfold checkSegmentRoutingConfig, checkPrependLabelConfig, checkAdjacencyLabelConfig.
  destruct (OpenrConfig.segment_routing_config (config_ c)) as [srConfig |];
    [| tauto].
  simpl. rewrite then_Ok_iff.
  destruct (SegmentRoutingConfig.prepend_label_ranges srConfig) as [ranges |],
    (SegmentRoutingConfig.sr_adj_label srConfig) as [[[] [range |]] |]; simpl;
    rewrite ?then_Ok_iff, ?throw_if_Ok_iff; split; intros; try tauto;
    repeat match goal with H : _ /\ _ |- _ => destruct H end;
    try discriminate; auto.
Qed.

Ltac split_all :=
  repeat match goal with
         | |- _ /\ _ => split
         | |- _ <-> _ => split
         end.

(** X9.  [checkThriftServerConfig] passes exactly when the paths of the
    CA and of the certificate are set and [fs::exists] finds both, the name
    of the curve is set, and [fs::exists] finds the path of the key, if
    that is set.  An exception that leaves it is [std::invalid_argument],
    or is the one that [fs::exists] throws for one of the three paths.  The
    path of the certificate is looked up only if the one of the CA was
    found: with the CA missing the call throws [std::invalid_argument],
    whatever [fs::exists] does for the certificate.  No [CHECK] fails. *)
Theorem checkThriftServerConfig_Ok c :
  let thriftServerConfig := getThriftServerConfig c in
  (checkThriftServerConfig c = Ok tt <->
   exists caPath certPath,
     ThriftServerConfig.x509_ca_path thriftServerConfig = Some caPath /\
     ThriftServerConfig.x509_cert_path thriftServerConfig = Some certPath /\
     is_Some (ThriftServerConfig.ecc_curve_name thriftServerConfig) /\
     fs_exists caPath = inr true /\ fs_exists certPath = inr true /\
     forall keyPath,
       ThriftServerConfig.x509_key_path thriftServerConfig = Some keyPath ->
       fs_exists keyPath = inr true) /\
  (forall e,
     checkThriftServerConfig c = Throw e ->
     (exists what, e = invalid_argument what) \/
     exists path,
       (ThriftServerConfig.x509_ca_path thriftServerConfig = Some path \/
        ThriftServerConfig.x509_cert_path thriftServerConfig = Some path \/
        ThriftServerConfig.x509_key_path thriftServerConfig = Some path) /\
       fs_exists path = inl e) /\
  (forall caPath,
     ThriftServerConfig.x509_ca_path thriftServerConfig = Some caPath ->
     is_Some (ThriftServerConfig.x509_cert_path thriftServerConfig) ->
     is_Some (ThriftServerConfig.ecc_curve_name thriftServerConfig) ->
     fs_exists caPath = inr false ->
     checkThriftServerConfig c =
       Throw (invalid_argument
                "x509_ca_path or x509_cert_path is specified in the config but not found in the disk.")) /\
  (forall msg, checkThriftServerConfig c <> Abort msg).
Proof.
  intros thriftServerConfig. unfold checkThriftServerConfig, path_exists.
  fold thriftServerConfig.
  destruct (ThriftServerConfig.x509_ca_path thriftServerConfig) as [caPath |].
  2: { split_all;
         [ discriminate | intros (? & ? & ? & _); discriminate
         | intros e [= <-]; eauto | discriminate | discriminate ]. }
  destruct (ThriftServerConfig.x509_cert_path thriftServerConfig) as [certPath |].
  2: { split_all;
         [ discriminate | intros (? & ? & _ & ? & _); discriminate
         | intros e [= <-]; eauto | intros ? _ [? ?]; discriminate | discriminate ]. }
  destruct (ThriftServerConfig.ecc_curve_name thriftServerConfig) as [curve |].
  2: { split_all;
         [ discriminate | intros (? & ? & _ & _ & [? ?] & _); discriminate
         | intros e [= <-]; eauto | intros ? _ _ [? ?]; discriminate | discriminate ]. }
  destruct (fs_exists caPath) as [eca | []] eqn:Eca; simpl.
  - split_all;
      [ discriminate
      | intros (? & ? & [= <-] & _ & _ & ? & _); congruence
      | intros e [= <-]; right; exists caPath; auto
      | intros ? [= <-]; congruence | discriminate ].
  - destruct (fs_exists certPath) as [ecert | []] eqn:Ecert; simpl.
    + split_all;
        [ discriminate
        | intros (? & ? & _ & [= <-] & _ & _ & ? & _); congruence
        | intros e [= <-]; right; exists certPath; auto
        | intros ? [= <-]; congruence | discriminate ].
    + destruct (ThriftServerConfig.x509_key_path thriftServerConfig)
        as [keyPath |] eqn:Ekey.
      * destruct (fs_exists keyPath) as [ekey | []] eqn:Efound; simpl;
          split_all;
          try discriminate; try (intros ? [= <-]; congruence).
        -- intros (? & ? & _ & _ & _ & _ & _ & Hkey).
           specialize (Hkey _ eq_refl). congruence.
        -- intros e [= <-]. right. exists keyPath. auto.
        -- intros _. exists caPath, certPath.
           split_all; eauto.
           intros ? [= <-]. exact Efound.
        -- reflexivity.
        -- intros (? & ? & _ & _ & _ & _ & _ & Hkey).
           specialize (Hkey _ eq_refl). congruence.
        -- intros e [= <-]. eauto.
      * split_all;
          try discriminate; try (intros ? [= <-]; congruence).
        -- intros _. exists caPath, certPath.
           split_all; eauto. discriminate.
        -- reflexivity.
    + split_all;
        [ discriminate
        | intros (? & ? & _ & [= <-] & _ & _ & ? & _); congruence
        | intros e [= <-]; eauto
        | intros ? [= <-]; congruence | discriminate ].
  - split_all;
      [ discriminate
      | intros (? & ? & [= <-] & _ & _ & ? & _); congruence
      | intros e [= <-]; eauto
      | reflexivity | discriminate ].
Qed.

(** X10.  With the VIP service off, [checkVipServiceConfig] passes.  With
    the service on, it passes exactly when the service has a configuration
    whose ingress policy, if it names one, is an object of the route
    propagation policy.  It throws [std::invalid_argument] and nothing
    else. *)
Theorem checkVipServiceConfig_Ok c :
  (checkVipServiceConfig c = Ok tt <->
   isVipServiceEnabled c = false \/
   exists vip,
     OpenrConfig.vip_service_config (config_ c) = Some vip /\
     forall ingress_policy,
       VipServiceConfig.ingress_policy vip = Some ingress_policy ->
       exists propagationPolicy,
         propagationPolicy_of c = Some propagationPolicy /\
         ingress_policy ∈ Filters.objects propagationPolicy) /\
  throws_only_invalid_argument (checkVipServiceConfig c).
Proof.
  unfold checkVipServiceConfig.
  destruct (isVipServiceEnabled c); [| split; [split; auto | exact I]].
  destruct (OpenrConfig.vip_service_config (config_ c)) as [vip |];
    [| split; [split; [discriminate
                      | intros [? | (? & ? & _)]; discriminate]
              | exact I]].
  destruct (VipServiceConfig.ingress_policy vip) as [name |] eqn:Ein.
  - unfold policy_undefined.
    destruct (propagationPolicy_of c) as [policy |]; simpl.
    + destruct (decide (name ∈ Filters.objects policy)) as [Hin | Hout].
      * rewrite bool_decide_false by auto. simpl. split; [split | exact I]; auto.
        intros _. right. exists vip. split; [reflexivity |].
        rewrite Ein. intros ? [= <-]. eauto.
      * rewrite bool_decide_true by assumption. simpl.
        split; [split | exact I]; [discriminate |].
        intros [? | (vip' & [= <-] & H)]; [discriminate |].
        destruct (H _ Ein) as (policy' & [= <-] & Hin). contradiction.
    + split; [split | exact I]; [discriminate |].
      intros [? | (vip' & [= <-] & H)]; [discriminate |].
      destruct (H _ Ein) as (policy' & ? & _). discriminate.
  - split; [split | exact I]; auto.
    intros _. right. exists vip. split; [reflexivity |]. rewrite Ein. discriminate.
Qed.

End ServiceChecks.

(** ** Prefix allocation *)

Section PrefixAllocation.
Context {ext : Externals}.

Lemma createPrefixAllocationParams_Ok_inv seedPfxStr allocationPfxLen params :
  createPrefixAllocationParams seedPfxStr allocationPfxLen = Ok params ->
  seedPfxStr <> "" /\ allocationPfxLen <> 0%Z /\
  createNetwork seedPfxStr = Ok params.1 /\ params.2 = allocationPfxLen /\
  (isV4 params.1.1 = true -> (params.1.2 < allocationPfxLen <= 32)%Z) /\
  (isV6 params.1.1 = true -> (params.1.2 < allocationPfxLen <= 128)%Z).
Proof.
  unfold createPrefixAllocationParams. intros Hok. invert_Ok Hok.
  injection Hok as <-. simpl.
  apply throw_if_Ok_inv in Hr, Hr1, Hr2.
  apply orb_false_iff in Hr as [Hseed Hlen].
  apply bool_decide_eq_false in Hseed. apply Z.eqb_neq in Hlen.
  repeat match goal with |- _ /\ _ => split end; try assumption; try reflexivity.
  - intros H4. rewrite H4 in Hr1. simpl in Hr1. lia.
  - intros H6. rewrite H6 in Hr2. simpl in Hr2. lia.
Qed.

(** X11.  What [checkPrefixAllocationConfig] returns.  There is a prefix
    allocation configuration, and the members other than
    [prefixAllocationParams_] are as they were.  In the mode
    [DYNAMIC_ROOT_NODE] the parameters are the network of the seed prefix
    and the length, as an 8-bit number, which is longer than the network's
    and at most 32 for a v4 seed, for which v4 must be enabled, at most
    128 for a v6 seed.  In the modes [DYNAMIC_LEAF_NODE] and [STATIC] the
    object is unchanged, no seed prefix is given (or an empty one) and no
    positive length. *)
Theorem checkPrefixAllocationConfig_result c c' :
  checkPrefixAllocationConfig c = Ok c' ->
  exists paConf,
    OpenrConfig.prefix_allocation_config (config_ c) = Some paConf /\
    config_ c' = config_ c /\ areaConfigs_ c' = areaConfigs_ c /\
    let seedPrefix := default "" (PrefixAllocationConfig.seed_prefix paConf) in
    let allocatePfxLen :=
      default 0%Z (PrefixAllocationConfig.allocate_prefix_len paConf) in
    match PrefixAllocationConfig.prefix_allocation_mode paConf with
    | DYNAMIC_ROOT_NODE =>
        exists addr len,
          seedPrefix <> "" /\
          createNetwork seedPrefix = Ok (addr, len) /\
          prefixAllocationParams_ c' = Some ((addr, len), to_uint8 allocatePfxLen) /\
          (0 < to_uint8 allocatePfxLen < 256)%Z /\
          (isV4 addr = true ->
           isV4Enabled c = true /\ (len < to_uint8 allocatePfxLen <= 32)%Z) /\
          (isV6 addr = true -> (len < to_uint8 allocatePfxLen <= 128)%Z)
    | DYNAMIC_LEAF_NODE | STATIC =>
        c' = c /\ seedPrefix = "" /\ (allocatePfxLen <= 0)%Z
    | PrefixAllocationMode_other named => c' = c /\ named = true
    end.
Proof.
  unfold checkPrefixAllocationConfig. intros Hok.
  destruct (OpenrConfig.prefix_allocation_config (config_ c)) as [paConf |];
    [| discriminate].
  exists paConf. split; [reflexivity |].
  invert_Ok Hok. rename Hr into Hnamed.
  apply throw_if_Ok_inv, negb_false_iff in Hnamed.
  destruct (PrefixAllocationConfig.prefix_allocation_mode paConf).
  - invert_Ok Hok. injection Hok as <-.
    apply throw_if_Ok_inv, orb_false_iff in Hr as [Hseed Hlen].
    apply negb_false_iff, bool_decide_eq_true in Hseed. apply Z.ltb_ge in Hlen.
    auto.
  - invert_Ok Hok. injection Hok as <-.
    apply createPrefixAllocationParams_Ok_inv in Hr
      as (Hseed & Hlen & Hnet & Hn & H4 & H6).
    destruct r0 as [[addr len] n]. simpl in *. subst n.
    apply throw_if_Ok_inv in Hr0.
    split; [reflexivity |]. split; [reflexivity |].
    exists addr, len.
    assert (Hbound : (0 < to_uint8 (default 0%Z
                            (PrefixAllocationConfig.allocate_prefix_len paConf))
                      < 256)%Z).
    { unfold to_uint8 in *.
      pose proof (Z.mod_pos_bound
                    (default 0%Z (PrefixAllocationConfig.allocate_prefix_len paConf))
                    256). lia. }
    repeat match goal with |- _ /\ _ => split end;
      try assumption; try reflexivity; try lia.
    intros Hv4. rewrite Hv4 in Hr0. simpl in Hr0.
    apply negb_false_iff in Hr0. auto.
  - invert_Ok Hok. injection Hok as <-.
    apply throw_if_Ok_inv, orb_false_iff in Hr as [Hseed Hlen].
    apply negb_false_iff, bool_decide_eq_true in Hseed. apply Z.ltb_ge in Hlen.
    auto.
  - injection Hok as <-. auto.
Qed.

End PrefixAllocation.

(** ** The object that populateInternalDb returns, field by field *)

Section ConstructorResult.
Context {ext : Externals}.

Lemma checkPrefixAllocationConfig_config c c' :
  checkPrefixAllocationConfig c = Ok c' ->
  config_ c' = config_ c /\ areaConfigs_ c' = areaConfigs_ c.
Proof.
  unfold checkPrefixAllocationConfig. intros Hok.
  destruct (OpenrConfig.prefix_allocation_config (config_ c)) as [paConf |];
    [| discriminate].
  invert_Ok Hok.
  destruct (PrefixAllocationConfig.prefix_allocation_mode paConf);
    invert_Ok Hok; injection Hok as <-; auto.
Qed.

Lemma set_eor_time_s_id (config : OpenrConfig.t) :
  OpenrConfig.set_eor_time_s config (OpenrConfig.eor_time_s config) = config.
Proof. destruct config. reflexivity. Qed.

Lemma checkBgpPeeringConfig_config c c' :
  checkBgpPeeringConfig c = Ok c' ->
  config_ c'
  = OpenrConfig.set_bgp_translation_config (config_ c)
      (if OpenrConfig.enable_bgp_peering (config_ c)
       then Some (default BgpRouteTranslationConfig_default
                    (OpenrConfig.bgp_translation_config (config_ c)))
       else OpenrConfig.bgp_translation_config (config_ c)).
Proof.
  unfold checkBgpPeeringConfig, isBgpPeeringEnabled.
  rewrite !bool_decide_is_Some. intros Hok. invert_Ok Hok.
  injection Hok as <-.
  destruct (OpenrConfig.enable_bgp_peering (config_ c)); simpl.
  - destruct (OpenrConfig.bgp_translation_config (config_ c)) eqn:Etr; simpl;
      [| reflexivity].
    rewrite <- Etr. destruct (config_ c). reflexivity.
  - destruct (config_ c). reflexivity.
Qed.

(** A keep-alive time that [checkSparkConfig] accepts is positive. *)
Lemma checkSparkConfig_keepalive_time_s c :
  checkSparkConfig c = Ok tt ->
  (0 < SparkConfig.keepalive_time_s (OpenrConfig.spark_config (config_ c)))%Z.
Proof.
  unfold checkSparkConfig. cbv zeta.
  rewrite !then_Ok_iff, !throw_if_Ok_iff, !orb_false_iff, ?Z.leb_gt, ?Z.ltb_ge.
  lia.
Qed.

(** X12.  Where the two products of [checkSparkConfig] and of the default
    of [eor_time_s] are within the range of [int], the configuration of
    the object that [populateInternalDb] returns is the configuration it
    was given, but for three fields: the areas are the given ones, or the
    default area if there was none, each with [.*] for its neighbor
    patterns if it had none; with BGP peering on, the translation
    configuration is the given one, or the default one if there was none;
    and [eor_time_s] is the given one, or three times the keep-alive time
    of Spark if there was none, a positive [int] then. *)
Theorem populateInternalDb_result c c' :
  populateInternalDb c = Ok c' ->
  let config := config_ c in
  spark_products_fit (OpenrConfig.spark_config config) ->
  config_ c'
  = OpenrConfig.set_eor_time_s
      (OpenrConfig.set_bgp_translation_config
         (OpenrConfig.set_areas config (map normalize_area (effective_areas config)))
         (if OpenrConfig.enable_bgp_peering config
          then Some (default BgpRouteTranslationConfig_default
                       (OpenrConfig.bgp_translation_config config))
          else OpenrConfig.bgp_translation_config config))
      (Some (default (3 * SparkConfig.keepalive_time_s
                            (OpenrConfig.spark_config config))%Z
               (OpenrConfig.eor_time_s config))) /\
  (0 < 3 * SparkConfig.keepalive_time_s (OpenrConfig.spark_config config)
     <= 2147483647)%Z.
Proof.
  intros Hok config [_ Hfit].
  apply populateInternalDb_Ok_inv in Hok
    as (c1 & c2 & c3 & Hc1 & _ & _ & _ & _ & _ & _ & _ & _ & Hspark & _ & _ & _
        & Hpa & _ & Hbgp & _ & ->).
  apply checkSparkConfig_keepalive_time_s in Hspark.
  apply populateAreaConfig_Ok in Hc1 as (Hcfg1 & _). cbv zeta in Hcfg1.
  fold config in Hcfg1.
  rewrite Hcfg1 in Hspark. simpl in Hspark.
  split; [| lia].
  assert (Hcfg2 : config_ c2 = config_ c1).
  { destruct (isPrefixAllocationEnabled c1); [| subst; reflexivity].
    destruct Hpa as [_ Hpa]. apply checkPrefixAllocationConfig_config, Hpa. }
  apply checkBgpPeeringConfig_config in Hbgp. rewrite Hcfg2, Hcfg1 in Hbgp.
  simpl in Hbgp.
  unfold getSparkConfig. rewrite bool_decide_is_Some, Hbgp. simpl.
  destruct (OpenrConfig.eor_time_s config) as [eor |] eqn:Eeor; simpl;
    [| reflexivity].
  rewrite Hbgp, <- Eeor. symmetry.
  apply (set_eor_time_s_id
           (OpenrConfig.set_bgp_translation_config
              (OpenrConfig.set_areas config
                 (map normalize_area (effective_areas config))) _)).
Qed.

(** X13.  With prefix allocation enabled, the constructor accepts a
    single area only: the configuration it is given has at most one area,
    and the object it returns has exactly one, with its one entry in the
    map of area configurations. *)
Theorem populateInternalDb_single_area config c' :
  populateInternalDb (Config_new config) = Ok c' ->
  OpenrConfig.enable_prefix_allocation config = true ->
  length (OpenrConfig.areas config) <= 1 /\
  size (areaConfigs_ c') = 1 /\
  exists areaConf, OpenrConfig.areas (config_ c') = [areaConf].
Proof.
  intros Hok Hen.
  destruct (populateInternalDb_frames _ _ Hok)
    as (c1 & c2 & c3 & Hc1 & F12 & F23 & F3 & _ & _ & _ & Hpa & _).
  pose proof (validation_frame_trans _ _ _ F12 (validation_frame_trans _ _ _ F23 F3))
    as (Hm & b & eor & Hcfg).
  pose proof (populateAreaConfig_Ok _ c1 Hc1) as Hareas. cbv zeta in Hareas.
  simpl in Hareas.
  destruct Hareas as (Hcfg1 & _ & _ & _ & Hnd & _ & Hdom & _).
  destruct Hpa as [Hsize _].
  { unfold isPrefixAllocationEnabled. rewrite Hcfg1. exact Hen. }
  assert (Hlen : size (areaConfigs_ c1) = length (effective_areas config)).
  { rewrite <- size_dom, Hdom, dom_empty_L, union_empty_l_L, size_list_to_set
      by exact Hnd.
    apply length_map. }
  assert (Hone : exists a, effective_areas config = [a]).
  { destruct (effective_areas config) as [| a [| b' rest]] eqn:E; simpl in *.
    - unfold effective_areas in E. destruct (OpenrConfig.areas config); discriminate.
    - eauto.
    - lia. }
  destruct Hone as (a & Ha). split; [| split].
  - unfold effective_areas in Ha.
    destruct (OpenrConfig.areas config) as [| b' rest]; simpl; [lia |].
    injection Ha as -> ->. simpl. lia.
  - rewrite Hm, Hlen, Ha. reflexivity.
  - exists (normalize_area a). rewrite Hcfg, Hcfg1, Ha. reflexivity.
Qed.

(** X14.  The KvStore configuration that [toThriftKvStoreConfig] makes of
    an object that [populateInternalDb] returned has the node name and the
    TTL of the configuration the object was made from; its TTL is not the
    infinite one, the numbers of its flood rate, if it has one, are
    positive, and its IP TOS, if it has one, is a byte. *)
Theorem toThriftKvStoreConfig_validated c c' :
  populateInternalDb c = Ok c' ->
  let kvStoreConfig := toThriftKvStoreConfig c' in
  KvStoreConfig.node_name kvStoreConfig = OpenrConfig.node_name (config_ c) /\
  KvStoreConfig.key_ttl_ms kvStoreConfig
  = KvstoreConfig.key_ttl_ms (OpenrConfig.kvstore_config (config_ c)) /\
  KvStoreConfig.key_ttl_ms kvStoreConfig <> kTtlInfinity /\
  (forall rate,
     KvStoreConfig.flood_rate kvStoreConfig = Some rate ->
     (0 < KvStoreFloodRate.flood_msg_per_sec rate)%Z /\
     (0 < KvStoreFloodRate.flood_msg_burst_size rate)%Z) /\
  (forall ipTos,
     KvStoreConfig.ip_tos kvStoreConfig = Some ipTos -> (0 <= ipTos < 256)%Z).
Proof.
  intros Hok.
  destruct (populateInternalDb_frames _ _ Hok)
    as (c1' & c2 & c3 & Hc1' & F12 & F23 & F3 & _).
  pose proof (validation_frame_trans _ _ _ F12 (validation_frame_trans _ _ _ F23 F3))
    as (_ & b & eor & Hcfg).
  apply populateInternalDb_Ok_inv in Hok
    as (c1 & _ & _ & Hc1 & _ & _ & Htos & _ & _ & _ & Hkv & _).
  assert (c1' = c1) as -> by congruence. clear Hc1'.
  apply populateAreaConfig_Ok in Hc1 as (Hcfg1 & _). cbv zeta in Hcfg1.
  unfold checkKvStoreConfig in Hkv. rewrite Hcfg1 in Hkv, Htos.
  simpl in Hkv, Htos.
  unfold toThriftKvStoreConfig, getKvStoreConfig, getNodeName, getConfig.
  rewrite Hcfg, Hcfg1. simpl.
  apply then_Ok_iff in Hkv as [Hrate Httl].
  apply throw_if_Ok_iff, Z.eqb_neq in Httl.
  repeat match goal with |- _ /\ _ => split end; try reflexivity; try assumption.
  - intros rate.
    destruct (KvstoreConfig.flood_rate (OpenrConfig.kvstore_config (config_ c)))
      as [floodRate |]; [| discriminate].
    intros [= <-]. simpl.
    apply then_Ok_iff in Hrate as [Hsec Hburst].
    apply throw_if_Ok_iff, Z.leb_gt in Hsec, Hburst. lia.
Qed.

End ConstructorResult.

(** ** The exceptions of the constructor *)

Section Exceptions.
Context {ext : Externals}.

Lemma throws_validation_exceptions_Ok {A} (a : A) :
  throws_validation_exceptions (Ok a).
Proof. intros e He. discriminate. Qed.

Lemma throws_validation_exceptions_invalid_argument {A} what :
  throws_validation_exceptions (@Throw A (invalid_argument what)).
Proof. intros e [= <-]. left. eauto. Qed.

Lemma throws_validation_exceptions_out_of_range {A} what :
  throws_validation_exceptions (@Throw A (out_of_range what)).
Proof. intros e [= <-]. right. left. eauto. Qed.

Lemma throws_validation_exceptions_CHECK cond msg :
  throws_validation_exceptions (CHECK cond msg).
Proof. destruct cond; intros e He; discriminate. Qed.

Lemma throws_validation_exceptions_bind {A B} (m : outcome A) (k : A -> outcome B) :
  throws_validation_exceptions m ->
  (forall a, m = Ok a -> throws_validation_exceptions (k a)) ->
  throws_validation_exceptions (m ≫= k).
Proof.
  intros Hm Hk e. destruct m as [a | e' | msg]; simpl.
  - apply Hk. reflexivity.
  - intros [= ->]. apply Hm. reflexivity.
  - discriminate.
Qed.

Ltac only_validation_exceptions :=
  repeat first
    [ apply throws_validation_exceptions_Ok
    | apply throws_validation_exceptions_invalid_argument
    | apply throws_validation_exceptions_out_of_range
    | apply throws_validation_exceptions_CHECK
    | apply throws_validation_exceptions_bind; [| intros ? _]
    | match goal with
      | |- throws_validation_exceptions (throw_if ?x _) => destruct x; simpl
      | |- throws_validation_exceptions (match ?x with _ => _ end) => destruct x
      | |- throws_validation_exceptions (if ?x then _ else _) => destruct x
      end ].

Lemma AreaConfiguration_of_exceptions a :
  throws_validation_exceptions (AreaConfiguration_of a).
Proof. intros e He. right. right. left. eauto. Qed.

Lemma IPAddress_of_string_exceptions s :
  throws_validation_exceptions (IPAddress_of_string s).
Proof. intros e He. right. right. right. left. eauto. Qed.

Lemma createNetwork_exceptions s : throws_validation_exceptions (createNetwork s).
Proof. intros e He. right. right. right. right. left. eauto. Qed.

Lemma path_exists_exceptions path : throws_validation_exceptions (path_exists path).
Proof.
  unfold path_exists. intros e He. do 5 right. exists path.
  destruct (fs_exists path); congruence.
Qed.

Lemma checkThriftServerConfig_exceptions c :
  throws_validation_exceptions (checkThriftServerConfig c).
Proof.
  unfold checkThriftServerConfig. cbv zeta.
  repeat first
    [ apply path_exists_exceptions
    | apply throws_validation_exceptions_Ok
    | apply throws_validation_exceptions_invalid_argument
    | apply throws_validation_exceptions_bind; [| intros ? _]
    | match goal with
      | |- throws_validation_exceptions (throw_if ?x _) => destruct x; simpl
      | |- throws_validation_exceptions (match ?x with _ => _ end) => destruct x
      | |- throws_validation_exceptions (if ?x then _ else _) => destruct x
      end ].
Qed.

Lemma populateAreaConfig_area_exceptions pp a m :
  throws_validation_exceptions (populateAreaConfig_area pp a m).
Proof.
  unfold populateAreaConfig_area, checkNodeSegmentLabelConfig,
    checkAdjacencyLabelConfig, checkPrependLabelConfig.
  apply throws_validation_exceptions_bind;
    [only_validation_exceptions | intros _ _].
  apply throws_validation_exceptions_bind;
    [apply AreaConfiguration_of_exceptions | intros ac _].
  only_validation_exceptions.
Qed.

Lemma populateAreaConfig_loop_exceptions pp areas : forall m,
  throws_validation_exceptions (populateAreaConfig_loop pp areas m).
Proof.
  induction areas as [| a areas IH]; intros m; simpl;
    [only_validation_exceptions |].
  apply throws_validation_exceptions_bind;
    [apply populateAreaConfig_area_exceptions |].
  intros [a' m1] _.
  apply throws_validation_exceptions_bind; [apply IH | intros [rest m2] _].
  only_validation_exceptions.
Qed.

Lemma checkBgpPeers_exceptions c peers :
  throws_validation_exceptions (checkBgpPeers c peers).
Proof.
  induction peers as [| peer peers IH]; simpl; [only_validation_exceptions |].
  apply throws_validation_exceptions_bind;
    [apply IPAddress_of_string_exceptions | intros addr _].
  apply throws_validation_exceptions_bind;
    [only_validation_exceptions | intros _ _].
  exact IH.
Qed.

Lemma createPrefixAllocationParams_exceptions seed len :
  throws_validation_exceptions (createPrefixAllocationParams seed len).
Proof.
  unfold createPrefixAllocationParams.
  apply throws_validation_exceptions_bind;
    [only_validation_exceptions | intros _ _].
  apply throws_validation_exceptions_bind;
    [apply createNetwork_exceptions | intros seedPfx _].
  only_validation_exceptions.
Qed.

Lemma populateInternalDb_exceptions c :
  throws_validation_exceptions (populateInternalDb c).
Proof.
  unfold populateInternalDb.
  apply throws_validation_exceptions_bind.
  { unfold populateAreaConfig.
    apply throws_validation_exceptions_bind;
      [apply populateAreaConfig_loop_exceptions | intros [areas m] _].
    only_validation_exceptions. }
  intros c1 _.
  do 6 (apply throws_validation_exceptions_bind;
        [only_validation_exceptions | intros _ _]).
  apply throws_validation_exceptions_bind;
    [unfold checkKvStoreConfig; only_validation_exceptions | intros _ _].
  apply throws_validation_exceptions_bind;
    [unfold checkDecisionConfig; only_validation_exceptions | intros _ _].
  apply throws_validation_exceptions_bind;
    [unfold checkSparkConfig; cbv zeta; only_validation_exceptions | intros _ _].
  apply throws_validation_exceptions_bind;
    [unfold checkMonitorConfig; only_validation_exceptions | intros _ _].
  apply throws_validation_exceptions_bind;
    [unfold checkLinkMonitorConfig; cbv zeta; only_validation_exceptions
    | intros _ _].
  apply throws_validation_exceptions_bind;
    [unfold checkSegmentRoutingConfig; only_validation_exceptions | intros _ _].
  apply throws_validation_exceptions_bind.
  { destruct (isPrefixAllocationEnabled c1); [| only_validation_exceptions].
    apply throws_validation_exceptions_bind;
      [only_validation_exceptions | intros _ _].
    unfold checkPrefixAllocationConfig.
    destruct (OpenrConfig.prefix_allocation_config (config_ c1)) as [paConf |];
      [| only_validation_exceptions].
    apply throws_validation_exceptions_bind;
      [only_validation_exceptions | intros _ _].
    destruct (PrefixAllocationConfig.prefix_allocation_mode paConf);
      try solve [only_validation_exceptions].
    apply throws_validation_exceptions_bind;
      [apply createPrefixAllocationParams_exceptions | intros params _].
    only_validation_exceptions. }
  intros c2 _.
  apply throws_validation_exceptions_bind;
    [unfold checkVipServiceConfig; only_validation_exceptions | intros _ _].
  apply throws_validation_exceptions_bind.
  { unfold checkBgpPeeringConfig.
    apply throws_validation_exceptions_bind;
      [only_validation_exceptions | intros _ _].
    apply throws_validation_exceptions_bind.
    { destruct (isBgpPeeringEnabled c2); [| only_validation_exceptions].
      destruct (OpenrConfig.bgp_config (config_ c2));
        [apply checkBgpPeers_exceptions | only_validation_exceptions]. }
    intros _ _. only_validation_exceptions. }
  intros c3 _.
  apply throws_validation_exceptions_bind;
    [| intros; only_validation_exceptions].
  destruct (isSecureThriftServerEnabled c3); [| only_validation_exceptions].
  apply checkThriftServerConfig_exceptions.
Qed.

(** X15.  What the constructor of [Config] throws.  [thrift::ConfigError]
    if the file cannot be read, with the name of the file, or cannot be
    parsed, with the parser's message; the validation is not run then.
    Every other exception comes from the validation, which throws
    [std::invalid_argument] and [std::out_of_range], and nothing else
    unless it comes from the compilation of an area's patterns, from
    folly's parsing of an address or from [fs::exists]. *)
Theorem Config_of_file_exceptions configFile e :
  Config_of_file configFile = Throw e ->
  (readFileToString configFile = None /\
   e = ConfigError ("Could not read config file: " +:+ configFile)) \/
  (exists contents ex,
     readFileToString configFile = Some contents /\
     deserialize contents = inl ex /\
     e = ConfigError ("Could not parse OpenrConfig struct: " +:+ ex)) \/
  (exists contents config,
     readFileToString configFile = Some contents /\
     deserialize contents = inr config /\
     populateInternalDb (Config_new config) = Throw e /\
     validation_exception e).
Proof.
  unfold Config_of_file.
  destruct (readFileToString configFile) as [contents |]; simpl;
    [| intros [= <-]; left; auto].
  destruct (deserialize contents) as [ex | config] eqn:Ed; simpl.
  - intros [= <-]. right. left. eauto.
  - intros He. right. right. exists contents, config.
    repeat split; auto. apply (populateInternalDb_exceptions _ _ He).
Qed.

End Exceptions.

(** ** The first area with an undefined import policy *)

Section ImportPolicy.
Context {ext : Externals}.

(** X16.  An area that names an import policy which the route propagation
    policy does not define is refused with [std::invalid_argument], the
    message naming the policy, as soon as the areas before it have passed:
    the policy is looked up before the patterns of the area are compiled
    and before its id is compared with the ids of the areas before it. *)
Theorem populateAreaConfig_undefined_policy c pre a post name :
  OpenrConfig.areas (config_ c) = pre ++ a :: post ->
  is_ok (populateAreaConfig_loop (propagationPolicy_of c) pre (areaConfigs_ c))
  = true ->
  AreaConfig.import_policy_name a = Some name ->
  policy_undefined (propagationPolicy_of c) name = true ->
  populateAreaConfig c
  = Throw (invalid_argument ("No area policy definition found for " +:+ name)).
Proof.
  intros Hareas Hpre Hname Hundef. rewrite populateAreaConfig_unfold.
  assert (Heff : effective_areas (config_ c) = pre ++ a :: post).
  { unfold effective_areas. rewrite Hareas. destruct pre; reflexivity. }
  rewrite Heff, populateAreaConfig_loop_app.
  destruct (populateAreaConfig_loop (propagationPolicy_of c) pre (areaConfigs_ c))
    as [[pre' m1] | |]; try discriminate.
  simpl. unfold populateAreaConfig_area. rewrite normalize_area_decide.
  assert (Hn : AreaConfig.import_policy_name (normalize_area a) = Some name).
  { unfold normalize_area. destruct (AreaConfig.neighbor_regexes a); exact Hname. }
  rewrite Hn, Hundef. reflexivity.
Qed.

End ImportPolicy.

(** ** Pattern sets of concatenated lists *)

Section PatternSetUnion.
Import RE2.

Lemma add_strings_parsed parser strings es :
  @parsed_as parser strings es ->
  forall reSet regexErr,
    compiled reSet = false ->
    options reSet = folding_options ->
    @add_strings parser strings reSet regexErr
    = Ok ({| options := options reSet; anchor := anchor reSet;
             elem := elem reSet ++ es; compiled := false |}, regexErr).
Proof.
  induction 1 as [| str e strings es [Hfst Hp] _ IH]; intros reSet regexErr Hc Ho;
    simpl.
  - rewrite app_nil_r. destruct reSet. simpl in *. subst. reflexivity.
  - unfold Add. rewrite Hc, Ho, Hp.
    destruct (Z.eqb_spec (Z.of_nat (length (elem reSet))) (-1)); [lia |].
    rewrite IH by (simpl; auto). simpl.
    destruct e as [str' re]. simpl in *. subst str'.
    rewrite <- app_assoc. reflexivity.
Qed.

Lemma compileRegexSet_parsed parser strings es :
  strings <> [] ->
  @parsed_as parser strings es ->
  @compileRegexSet parser strings
  = Ok {| options := folding_options; anchor := ANCHOR_BOTH;
          elem := es; compiled := true |}.
Proof.
  intros Hne Hes. unfold compileRegexSet.
  rewrite bool_decide_false by assumption. simpl.
  rewrite (add_strings_parsed parser strings es Hes) by reflexivity.
  reflexivity.
Qed.

(** The set of the empty list matches what the parser's reading of [a^]
    matches. *)
Lemma compileRegexSet_nil_Match parser set text :
  (forall re, parse folding_options "a^" = inr re ->
              regex_match ANCHOR_BOTH re text = false) ->
  @compileRegexSet parser [] = Ok set -> Match set text = false.
Proof.
  intros Hun Hok. apply compileRegexSet_Ok in Hok as (es & Hes & ->).
  rewrite bool_decide_true in Hes by reflexivity.
  inversion Hes as [| ? [p re] ? es' [Hf Hp] Hnil]; subst.
  inversion Hnil; subst. unfold Match. simpl in *.
  rewrite (Hun _ Hp). reflexivity.
Qed.

(** [a^], as [parse_pattern] reads it, matches nothing. *)
Lemma parse_pattern_unmatchable re text :
  parse_pattern folding_options "a^" = inr re ->
  regex_match ANCHOR_BOTH re text = false.
Proof.
  intros [= <-]. unfold regex_match. apply not_true_is_false. intros Hrun.
  apply run_Matches in Hrun. exact (unmatchable_never_matches _ _ _ _ Hrun).
Qed.

(** X17.  Take two lists of patterns that [compileRegexSet] compiles, with
    any parser that reads [a^] as a pattern nothing matches.  Then
    [compileRegexSet] refuses no pattern of the two lists put together,
    and the set it returns for them matches a text exactly when the set of
    one of the two lists matches it.  This holds of empty lists as well,
    the set of the empty list matching nothing. *)
Theorem compileRegexSet_app (parser : Parser) strings1 strings2 set1 set2 :
  (forall re text, parse folding_options "a^" = inr re ->
                   regex_match ANCHOR_BOTH re text = false) ->
  compileRegexSet strings1 = Ok set1 ->
  compileRegexSet strings2 = Ok set2 ->
  (forall e, compileRegexSet (strings1 ++ strings2) <> Throw e) /\
  (forall set,
     compileRegexSet (strings1 ++ strings2) = Ok set ->
     forall text, Match set text = Match set1 text || Match set2 text).
Proof.
  intros Hun H1 H2.
  destruct strings1 as [| p1 rest1].
  { simpl. rewrite H2. split; [discriminate |]. intros set [= <-] text.
    rewrite (compileRegexSet_nil_Match parser set1 text); [reflexivity | | exact H1].
    intros re. apply Hun. }
  destruct strings2 as [| p2 rest2].
  { rewrite app_nil_r, H1. split; [discriminate |]. intros set [= <-] text.
    rewrite (compileRegexSet_nil_Match parser set2 text), ?orb_false_r;
      [reflexivity | | exact H2].
    intros re. apply Hun. }
  apply compileRegexSet_nonempty_Ok in H1 as (es1 & Hes1 & ->); [| discriminate].
  apply compileRegexSet_nonempty_Ok in H2 as (es2 & Hes2 & ->); [| discriminate].
  assert (Hes : parsed_as ((p1 :: rest1) ++ p2 :: rest2) (es1 ++ es2))
    by (apply Forall2_app; assumption).
  rewrite (compileRegexSet_parsed parser _ (es1 ++ es2)); [| discriminate | exact Hes].
  split; [discriminate |]. intros set [= <-] text.
  unfold Match. simpl. apply existsb_app.
Qed.

End PatternSetUnion.

(** ** Node segment labels *)

Section NodeSegmentLabel.
Context {ext : Externals}.

(** X18.  [checkNodeSegmentLabelConfig] passes an area without a node
    label configuration.  Of a configuration of type [AUTO] it wants a
    label range, which must be valid, and does not look at the static
    label; of a configuration of another type it wants a static label,
    which must be valid, and does not look at the range.  It throws
    [std::invalid_argument] and nothing else. *)
Theorem checkNodeSegmentLabelConfig_Ok areaConf :
  (checkNodeSegmentLabelConfig areaConf = Ok tt <->
   match AreaConfig.area_sr_node_label areaConf with
   | None => True
   | Some srNodeConfig =>
       match SegmentRoutingNodeLabel.sr_node_label_type srNodeConfig with
       | AUTO =>
           exists label_range,
             SegmentRoutingNodeLabel.node_segment_label_range srNodeConfig
             = Some label_range /\
             isLabelRangeValid label_range = true
       | _ =>
           exists label,
             SegmentRoutingNodeLabel.node_segment_label srNodeConfig = Some label /\
             isMplsLabelValid label = true
       end
   end) /\
  throws_only_invalid_argument (checkNodeSegmentLabelConfig areaConf).
Proof.
  split; [| apply checkNodeSegmentLabelConfig_throws].
  unfold checkNodeSegmentLabelConfig.
  destruct (AreaConfig.area_sr_node_label areaConf) as [srNodeConfig |]; [| tauto].
  destruct (SegmentRoutingNodeLabel.sr_node_label_type srNodeConfig).
  - destruct (SegmentRoutingNodeLabel.node_segment_label_range srNodeConfig)
      as [label_range |].
    + rewrite throw_if_Ok_iff, negb_false_iff. split; [eauto |].
      intros (? & [= <-] & H). exact H.
    + split; [discriminate | intros (? & ? & _); discriminate].
  - destruct (SegmentRoutingNodeLabel.node_segment_label srNodeConfig) as [label |].
    + rewrite throw_if_Ok_iff, negb_false_iff. split; [eauto |].
      intros (? & [= <-] & H). exact H.
    + split; [discriminate | intros (? & ? & _); discriminate].
Qed.

End NodeSegmentLabel.

(** ** The further properties at work *)

(** X2 at work: a length that is not longer than the seed's. *)
Lemma createPrefixAllocationParams_Throw_witness :
  exists e,
    @createPrefixAllocationParams example_externals "10.1.0.0/16" 8 = Throw e /\
    exists what, e = out_of_range what.
Proof.
  eexists. split; [reflexivity |].
  destruct (@createPrefixAllocationParams_Throw example_externals "10.1.0.0/16" 8 _
              eq_refl)
    as [[H _] | (_ & _ & [H | (seedPfx & what & _ & H & _)])];
    try discriminate H.
  eauto.
Defined.

(** X3 at work: the Spark configuration of the example passes. *)
Lemma checkSparkConfig_Ok_witness :
  @checkSparkConfig example_externals (Config_new example_config) = Ok tt.
Proof.
  pose proof (@checkSparkConfig_Ok example_externals (Config_new example_config))
    as H.
  cbv zeta in H. apply H.
  - unfold spark_products_fit. simpl. lia.
  - simpl. lia.
Defined.

(** X4 at work: what is thrown for the port 0 is neither. *)
Lemma checkSparkConfig_dead_checks_witness :
  let c := @Config_new example_externals (example_variant [] (example_spark 0) None) in
  exists e,
    checkSparkConfig c = Throw e /\
    e <> out_of_range (hold_time_s_message (OpenrConfig.spark_config (config_ c))) /\
    e <> invalid_argument
           (last_threshold_message (OpenrConfig.spark_config (config_ c))).
Proof.
  intros c. eexists. split; [reflexivity |].
  apply (@checkSparkConfig_dead_checks example_externals c).
  - unfold spark_products_fit. simpl. lia.
  - reflexivity.
Defined.

(** X11 at work: the parameters of the root node of the example. *)
Lemma checkPrefixAllocationConfig_result_witness :
  match @checkPrefixAllocationConfig example_externals (Config_new example_root_config)
  with
  | Ok c' =>
      prefixAllocationParams_ c' = Some ((example_v4 false, 16%Z), 24%Z)
  | _ => False
  end.
Proof.
  destruct (@checkPrefixAllocationConfig example_externals
              (Config_new example_root_config)) as [c' | e | msg] eqn:E;
    [| discriminate E ..].
  destruct (@checkPrefixAllocationConfig_result example_externals _ _ E)
    as (paConf & [= <-] & _ & _ & Hmode).
  destruct Hmode as (addr & len & _ & [= <- <-] & Hparams & _).
  exact Hparams.
Defined.

(** X12 at work: [eor_time_s] of the example, three times two seconds. *)
Lemma populateInternalDb_result_witness :
  match @populateInternalDb example_externals (Config_new example_config) with
  | Ok c' =>
      OpenrConfig.eor_time_s (config_ c') = Some 6%Z /\
      OpenrConfig.bgp_translation_config (config_ c') = None
  | _ => False
  end.
Proof.
  assert (Hok : is_ok (@populateInternalDb example_externals
                         (Config_new example_config)) = true)
    by (vm_compute; reflexivity).
  destruct (@populateInternalDb example_externals (Config_new example_config))
    as [c' | e | msg] eqn:E; [| discriminate Hok ..].
  assert (Hfit : spark_products_fit (OpenrConfig.spark_config example_config))
    by (unfold spark_products_fit; simpl; lia).
  rewrite (proj1 (@populateInternalDb_result example_externals _ _ E Hfit)).
  split; reflexivity.
Defined.

(** X13 at work: the root node of the example has its one area. *)
Lemma populateInternalDb_single_area_witness :
  match @populateInternalDb example_externals (Config_new example_root_config) with
  | Ok c' => size (areaConfigs_ c') = 1
  | _ => False
  end.
Proof.
  assert (Hok : is_ok (@populateInternalDb example_externals
                         (Config_new example_root_config)) = true)
    by (vm_compute; reflexivity).
  destruct (@populateInternalDb example_externals (Config_new example_root_config))
    as [c' | e | msg] eqn:E; [| discriminate Hok ..].
  destruct (@populateInternalDb_single_area example_externals _ _ E eq_refl)
    as (_ & Hsize & _).
  exact Hsize.
Defined.

(** X14 at work: the KvStore configuration of the example. *)
Lemma toThriftKvStoreConfig_validated_witness :
  match @populateInternalDb example_externals (Config_new example_config) with
  | Ok c' =>
      KvStoreConfig.node_name (toThriftKvStoreConfig c') = "thanos@universe" /\
      KvStoreConfig.key_ttl_ms (toThriftKvStoreConfig c') = 300000%Z
  | _ => False
  end.
Proof.
  assert (Hok : is_ok (@populateInternalDb example_externals
                         (Config_new example_config)) = true)
    by (vm_compute; reflexivity).
  destruct (@populateInternalDb example_externals (Config_new example_config))
    as [c' | e | msg] eqn:E; [| discriminate Hok ..].
  destruct (@toThriftKvStoreConfig_validated example_externals _ _ E)
    as (Hname & Httl & _).
  split; assumption.
Defined.

(** X15 at work: a file whose configuration names a certificate that
    [fs::exists] may not look at, a file that does not parse, and a file
    that is not there. *)
Lemma Config_of_file_exceptions_witness :
  let denied := library_exception "filesystem error: status: Permission denied" in
  let unparsed := ConfigError "Could not parse OpenrConfig struct: expected '}'" in
  let unread := ConfigError "Could not read config file: /tmp/openr.conf" in
  (@Config_of_file example_externals "/etc/openr.tls" = Throw denied /\
   @populateInternalDb example_externals (Config_new example_secure_config)
   = Throw denied /\
   @validation_exception example_externals denied) /\
  (@Config_of_file example_externals "/etc/openr.broken" = Throw unparsed /\
   @deserialize example_externals "{" = inl "expected '}'") /\
  (@Config_of_file example_externals "/tmp/openr.conf" = Throw unread /\
   @readFileToString example_externals "/tmp/openr.conf" = None).
Proof.
  intros denied unparsed unread.
  assert (Hdenied : @Config_of_file example_externals "/etc/openr.tls" = Throw denied).
  { assert (Hthrown : match @Config_of_file example_externals "/etc/openr.tls" with
                      | Throw e => e = denied
                      | _ => False
                      end) by (vm_compute; reflexivity).
    destruct (@Config_of_file example_externals "/etc/openr.tls");
      [destruct Hthrown | rewrite Hthrown; reflexivity | destruct Hthrown]. }
  assert (Hunparsed :
            @Config_of_file example_externals "/etc/openr.broken" = Throw unparsed)
    by reflexivity.
  assert (Hunread : @Config_of_file example_externals "/tmp/openr.conf" = Throw unread)
    by reflexivity.
  split; [split; [exact Hdenied | split] | split; split;
            [exact Hunparsed | | exact Hunread |]].
  - destruct (@Config_of_file_exceptions example_externals _ _ Hdenied)
      as [[Hread _] | [(contents & ex & Hread & Hd & _)
                      | (contents & config & Hread & Hd & Hthrow & _)]];
      [discriminate Hread | injection Hread as <-; discriminate Hd |].
    injection Hread as <-. injection Hd as <-. exact Hthrow.
  - destruct (@Config_of_file_exceptions example_externals _ _ Hdenied)
      as [[Hread _] | [(contents & ex & Hread & Hd & _)
                      | (contents & config & Hread & _ & _ & Hv)]];
      [discriminate Hread | injection Hread as <-; discriminate Hd | exact Hv].
  - reflexivity.
  - destruct (@Config_of_file_exceptions example_externals _ _ Hunread)
      as [[Hread _] | [(contents & ex & Hread & _)
                      | (contents & config & Hread & _)]];
      [exact Hread | discriminate Hread ..].
Defined.

(** X16 at work: the second area imports a policy and there is none. *)
Lemma populateAreaConfig_undefined_policy_witness :
  @populateAreaConfig example_externals
    (Config_new
       (example_variant
          [example_area "spine" ["rsw.*"]; example_area_importing "spine" "import-all"]
          (example_spark 6666) None))
  = Throw (invalid_argument "No area policy definition found for import-all").
Proof.
  apply (@populateAreaConfig_undefined_policy example_externals _
           [example_area "spine" ["rsw.*"]]
           (example_area_importing "spine" "import-all") [] "import-all");
    reflexivity.
Defined.

(** X17 at work: two lists of one pattern each. *)
Lemma compileRegexSet_app_witness :
  match @compileRegexSet RE2.parse_pattern ["key3"],
        @compileRegexSet RE2.parse_pattern ["adj:.*"],
        @compileRegexSet RE2.parse_pattern (["key3"] ++ ["adj:.*"]) with
  | Ok set1, Ok set2, Ok set =>
      forall text,
        RE2.Match set text = RE2.Match set1 text || RE2.Match set2 text
  | _, _, _ => False
  end.
Proof.
  destruct (@compileRegexSet RE2.parse_pattern ["key3"]) as [set1 | e | msg] eqn:E1;
    [| discriminate E1 ..].
  destruct (@compileRegexSet RE2.parse_pattern ["adj:.*"]) as [set2 | e | msg] eqn:E2;
    [| discriminate E2 ..].
  destruct (compileRegexSet_app RE2.parse_pattern ["key3"] ["adj:.*"] set1 set2
              parse_pattern_unmatchable E1 E2) as [Hthrow Hmatch].
  destruct (@compileRegexSet RE2.parse_pattern (["key3"] ++ ["adj:.*"]))
    as [set | e | msg] eqn:E; [| destruct (Hthrow e eq_refl) | discriminate E].
  exact (Hmatch set eq_refl).
Defined.
